(** * BrowserBox webview element: protocol engine of [browserbox-webview.js]

    A shallow embedding of the request ledger, the liveness prober, the
    transport resolver, the legacy adapter and the tab cache of the
    [BrowserBoxWebview] custom element, with the properties its
    specification states about them. *)

From Stdlib Require Import ZArith Ascii String.
From stdpp Require Import base tactics option strings pretty numbers list.

Set Warnings "-register-all".

(** ** JavaScript values *)

(** Numbers that [Number.isInteger] refuses.  A finite non-integral number
    is kept as the text [String(x)] renders, the only thing the element ever
    reads of it. *)
Inductive NonInteger : Type :=
| NaN
| Infinity (negative : bool)
| Fraction (text : string).

(** The values that cross the message channel, as far as the element looks
    into them: primitives, arrays and plain objects.  An object is its own
    enumerable properties in insertion order; [JNum] is an integral Number.
    A string is held code unit by code unit, each 16-bit unit in the one to
    three bytes UTF-8 gives it (a character outside the basic plane is its
    two surrogates); ASCII text is itself. *)
Inductive JsVal : Type :=
| JUndefined
| JNull
| JBool (b : bool)
| JNum (z : Z)
| JNonInt (x : NonInteger)
| JStr (s : string)
| JArr (items : list JsVal)
| JObj (props : list (string * JsVal)).

Module Js.

(** *** Strings *)

Definition continuation (c : ascii) : bool :=
  let n := nat_of_ascii c in (128 <=? n)%nat && (n <? 192)%nat.

(** The code units of a string, each with its bytes. *)
Fixpoint units (s : string) : list string :=
  match s with
  | EmptyString => []
  | String c s' =>
      let starts_unit :=
        match s' with String c' _ => negb (continuation c') | EmptyString => true end in
      match units s' with
      | u :: us => if starts_unit then String c EmptyString :: u :: us else String c u :: us
      | [] => [String c EmptyString]
      end
  end.

(** [u.charCodeAt(0)]; -1 where the bytes are no code unit. *)
Definition unit_code (u : string) : Z :=
  match (fun c => Z.of_nat (nat_of_ascii c)) <$> list_ascii_of_string u with
  | [a] => if (a <? 128)%Z then a else (-1)%Z
  | [a; b] =>
      if (192 <=? a)%Z && (a <? 224)%Z then ((a - 192) * 64 + (b - 128))%Z else (-1)%Z
  | [a; b; c] =>
      if (224 <=? a)%Z && (a <? 240)%Z
      then ((a - 224) * 4096 + (b - 128) * 64 + (c - 128))%Z
      else (-1)%Z
  | _ => (-1)%Z
  end.

(** [String.fromCharCode(code)], for a code unit. *)
Definition fromCharCode (code : Z) : string :=
  let byte (n : Z) := ascii_of_nat (Z.to_nat n) in
  if (code <? 128)%Z then String (byte code) EmptyString
  else if (code <? 2048)%Z then
    String (byte (192 + code / 64)%Z) (String (byte (128 + code mod 64)%Z) EmptyString)
  else
    String (byte (224 + code / 4096)%Z)
      (String (byte (128 + (code / 64) mod 64)%Z)
         (String (byte (128 + code mod 64)%Z) EmptyString)).

(** [s.length] *)
Definition length (s : string) : nat := List.length (units s).

(** The code units that [String.prototype.trim] strips: the WhiteSpace and
    LineTerminator of ECMAScript, that is TAB, LF, VT, FF, CR, SP, NBSP,
    U+1680, U+2000 to U+200A, U+2028, U+2029, U+202F, U+205F, U+3000 and
    U+FEFF. *)
Definition white_space : list Z :=
  [9; 10; 11; 12; 13; 32; 160; 5760;
   8192; 8193; 8194; 8195; 8196; 8197; 8198; 8199; 8200; 8201; 8202;
   8232; 8233; 8239; 8287; 12288; 65279]%Z.

Definition is_space (u : string) : bool := bool_decide (unit_code u ∈ white_space).

Fixpoint trimStart (us : list string) : list string :=
  match us with
  | u :: us' => if is_space u then trimStart us' else us
  | [] => []
  end.

Fixpoint trimEnd (us : list string) : list string :=
  match us with
  | [] => []
  | u :: us' =>
      match trimEnd us' with
      | [] => if is_space u then [] else [u]
      | t => u :: t
      end
  end.

(** [s.trim()] *)
Definition trim (s : string) : string := String.concat "" (trimEnd (trimStart (units s))).

(** *** Numbers as text *)

(** The Number a decimal numeral denotes: the double nearest to the integer
    [y], a tie going to the even significand. *)
Definition nearest_double (y : Z) : Z :=
  let bits := (Z.log2 y + 1)%Z in
  if (bits <=? 53)%Z then y
  else
    let ulp := (2 ^ (bits - 53))%Z in
    let q := (y / ulp)%Z in
    let r := (y mod ulp)%Z in
    ((if (ulp <? 2 * r)%Z || ((ulp =? 2 * r)%Z && Z.odd q) then q + 1 else q) * ulp)%Z.

Definition decimal_digits (x : Z) : Z := Z.of_nat (String.length (pretty x)).

(** The numeral of [k] significant digits that denotes [x], if there is
    one; of two, the nearer. *)
Definition shortest_with (x digits k : Z) : option Z :=
  let unit := (10 ^ (digits - k))%Z in
  let lo := (x / unit * unit)%Z in
  let hi := (lo + unit)%Z in
  match (nearest_double lo =? x)%Z, (nearest_double hi =? x)%Z with
  | true, true =>
      Some (if (x - lo <? hi - x)%Z then lo
            else if (hi - x <? x - lo)%Z then hi
            else if Z.even (x / unit) then lo else hi)
  | true, false => Some lo
  | false, true => Some hi
  | false, false => None
  end.

(** The numeral with the fewest significant digits that denotes [x]. *)
Definition shortest (x : Z) : Z :=
  let digits := decimal_digits x in
  default x
    (list_find is_Some
       ((fun k => shortest_with x digits (Z.of_nat k)) <$> seq 1 (Z.to_nat (Z.min digits 17)))
     ≫= fun found => found.2).

Fixpoint strip_zeros (s : string) : string :=
  match s with
  | EmptyString => EmptyString
  | String c s' =>
      match strip_zeros s' with
      | EmptyString => if Ascii.eqb c "0" then EmptyString else String c EmptyString
      | t => String c t
      end
  end.

Definition exponent_form (y : Z) : string :=
  match strip_zeros (pretty y) with
  | String c EmptyString => String c EmptyString
  | String c rest => String c ("." +:+ rest)
  | EmptyString => EmptyString
  end +:+ "e+" +:+ pretty (decimal_digits y - 1)%Z.

(** [String(z)] and [`${z}`] for an integral Number: up to 2^53 its decimal
    digits; beyond, the shortest numeral that denotes it, filled with zeros
    below 10^21 and in exponent form from there on. *)
Definition number_text (z : Z) : string :=
  if (Z.abs z <? 2 ^ 53)%Z then pretty z
  else
    let y := shortest (Z.abs z) in
    (if (z <? 0)%Z then "-" else "") +:+
    (if (decimal_digits y <=? 21)%Z then pretty y else exponent_form y).

(** The delay that [setTimeout] and [setInterval] take: a 32-bit integer,
    a negative one counting as 0. *)
Definition toInt32 (z : Z) : Z := ((z + 2 ^ 31) mod 2 ^ 32 - 2 ^ 31)%Z.

Definition timer_delay (timeout : Z) : Z := Z.max 0 (toInt32 timeout).

(** *** Values *)

(** [!!v] *)
Definition truthy (v : JsVal) : bool :=
  match v with
  | JUndefined | JNull => false
  | JBool b => b
  | JNum z => negb (z =? 0)%Z
  | JNonInt NaN => false
  | JNonInt _ => true
  | JStr s => negb (String.eqb s "")
  | JArr _ | JObj _ => true
  end.

Definition nullish (v : JsVal) : bool :=
  match v with JUndefined | JNull => true | _ => false end.

(** [a || b] and [a ?? b] *)
Definition or (a b : JsVal) : JsVal := if truthy a then a else b.
Definition coalesce (a b : JsVal) : JsVal := if nullish a then b else a.

(** [typeof v === 'object'] *)
Definition typeof_object (v : JsVal) : bool :=
  match v with JNull | JArr _ | JObj _ => true | _ => false end.

Definition isInteger (v : JsVal) : bool :=
  match v with JNum _ => true | _ => false end.

Definition isArray (v : JsVal) : bool :=
  match v with JArr _ => true | _ => false end.

Fixpoint lookup_prop (k : string) (ps : list (string * JsVal)) : option JsVal :=
  match ps with
  | [] => None
  | (k', v) :: ps' => if String.eqb k' k then Some v else lookup_prop k ps'
  end.

(** Assignment of one property: an existing key keeps its place. *)
Fixpoint set_prop (k : string) (v : JsVal) (ps : list (string * JsVal))
  : list (string * JsVal) :=
  match ps with
  | [] => [(k, v)]
  | (k', v') :: ps' =>
      if String.eqb k' k then (k, v) :: ps' else (k', v') :: set_prop k v ps'
  end.

Definition assign (target source : list (string * JsVal)) : list (string * JsVal) :=
  fold_left (fun acc kv => set_prop kv.1 kv.2 acc) source target.

(** The properties copied by a spread [...v] in an object literal. *)
Definition spread (v : JsVal) : list (string * JsVal) :=
  match v with
  | JObj ps => ps
  | JArr items => imap (fun i x => (pretty i, x)) items
  | JStr s => imap (fun i u => (pretty i, JStr u)) (units s)
  | _ => []
  end.

(** [v.k] and [v?.k]; the element reads no property of a nullish value
    without the [?.] guard. *)
Definition get (v : JsVal) (k : string) : JsVal :=
  match v with
  | JObj ps => default JUndefined (lookup_prop k ps)
  | JArr items => if String.eqb k "length" then JNum (Z.of_nat (List.length items)) else JUndefined
  | JStr s => if String.eqb k "length" then JNum (Z.of_nat (length s)) else JUndefined
  | _ => JUndefined
  end.

(** [Object.hasOwn(v, k)] for the keys the element uses. *)
Definition has (v : JsVal) (k : string) : bool :=
  match v with
  | JObj ps => bool_decide (is_Some (lookup_prop k ps))
  | _ => false
  end.

(** [String(v)], as [new Error(v)] computes its message; [None] is the
    TypeError of a value that has no primitive form.  An object that the
    channel carries has one unless a key of its own hides
    [Object.prototype.toString]: a cloned property is never a function, and
    [valueOf] gives the object back. *)
Fixpoint toString (v : JsVal) : option string :=
  match v with
  | JUndefined => Some "undefined"
  | JNull => Some "null"
  | JBool b => Some (if b then "true" else "false")
  | JNum z => Some (number_text z)
  | JNonInt NaN => Some "NaN"
  | JNonInt (Infinity negative) => Some (if negative then "-Infinity" else "Infinity")
  | JNonInt (Fraction text) => Some text
  | JStr s => Some s
  | JArr items =>
      String.concat "," <$>
        (fix join (items : list JsVal) : option (list string) :=
           match items with
           | [] => Some []
           | x :: rest =>
               text ← match x with
                      | JUndefined | JNull => Some ""
                      | _ => toString x
                      end;
               texts ← join rest;
               Some (text :: texts)
           end) items
  | JObj props =>
      if bool_decide ("toString" ∈ props.*1) then None else Some "[object Object]"
  end.

(** An object holds each key once. *)
Definition unique_keys (v : JsVal) : Prop :=
  match v with
  | JObj ps => NoDup ps.*1
  | _ => True
  end.

End Js.

Notation "v .[ k ]" := (Js.get v k) (at level 1, left associativity, format "v .[ k ]").

(** ** Tab cache *)

Module TabCache.

(** [_normalizeTabId]; [None] is the source's [null]. *)
Definition nonempty_string (v : JsVal) : option string :=
  match v with
  | JStr s => if String.eqb s "" then None else Some s
  | _ => None
  end.

Definition _normalizeTabId (detail : JsVal) : option string :=
  if negb (Js.truthy detail) || negb (Js.typeof_object detail) then None
  else
    let candidates := [detail.["id"]; detail.["tabId"]; detail.["targetId"]] in
    (fix first (cs : list JsVal) : option string :=
       match cs with
       | [] => None
       | c :: cs' => match nonempty_string c with Some s => Some s | None => first cs' end
       end) candidates.

(** [cache.findIndex(tab => this._normalizeTabId(tab) === tabId)], with
    the entry found. *)
Definition findIndex (tabId : string) (cache : list JsVal) : option (nat * JsVal) :=
  list_find (fun tab => _normalizeTabId tab = Some tabId) cache.

(** [{ ...tab, index: i }] *)
Definition stamp (i : nat) (tab : JsVal) : JsVal :=
  JObj (Js.set_prop "index" (JNum (Z.of_nat i)) (Js.assign [] (Js.spread tab))).

Definition reindex (cache : list JsVal) : list JsVal := imap stamp cache.

Definition _updateLegacyTabCache (detail : JsVal) (cache : list JsVal) : list JsVal :=
  match _normalizeTabId detail with
  | None => cache
  | Some tabId =>
      match findIndex tabId cache with
      | None => cache
      | Some (index, existing) =>
          let merged := Js.assign (Js.assign [] (Js.spread existing)) (Js.spread detail) in
          let idx :=
            Js.coalesce existing.["index"]
              (Js.coalesce detail.["index"] (JNum (Z.of_nat index))) in
          <[index := JObj (Js.set_prop "index" idx merged)]> cache
      end
  end.

(** [arr.splice(start, 0, entry)]: a negative start counts from the end. *)
Definition splice_in (start : Z) (entry : JsVal) (l : list JsVal) : list JsVal :=
  let len := Z.of_nat (length l) in
  let from := if (start <? 0)%Z then Z.max (len + start) 0 else Z.min start len in
  take (Z.to_nat from) l ++ entry :: drop (Z.to_nat from) l.

Definition _addLegacyTabCache (detail : JsVal) (cache : list JsVal) : list JsVal :=
  match _normalizeTabId detail with
  | None => cache
  | Some tabId =>
      match findIndex tabId cache with
      | Some _ => _updateLegacyTabCache detail cache
      | None =>
          let len := Z.of_nat (length cache) in
          let index := match detail.["index"] with JNum z => z | _ => len end in
          let entry := JObj (Js.set_prop "index" (JNum index) (Js.assign [] (Js.spread detail))) in
          reindex (splice_in (Z.min index len) entry cache)
      end
  end.

Definition _removeLegacyTabCache (detail : JsVal) (cache : list JsVal) : list JsVal :=
  match _normalizeTabId detail with
  | None => cache
  | Some tabId =>
      reindex (filter (fun tab => _normalizeTabId tab ≠ Some tabId) cache)
  end.

(** The three lifecycle notifications that maintain the cache. *)
Inductive Op : Type :=
| Insert (detail : JsVal)
| Update (detail : JsVal)
| Remove (detail : JsVal).

Definition apply (cache : list JsVal) (op : Op) : list JsVal :=
  match op with
  | Insert d => _addLegacyTabCache d cache
  | Update d => _updateLegacyTabCache d cache
  | Remove d => _removeLegacyTabCache d cache
  end.

Definition run (ops : list Op) : list JsVal := fold_left apply ops [].

(** Every entry's [index] is its position. *)
Definition indexed (cache : list JsVal) : Prop :=
  ∀ (i : nat) (tab : JsVal), cache !! i = Some tab → tab.["index"] = JNum (Z.of_nat i).

End TabCache.

(** ** The element and its host *)

Inductive TransportMode : Type := Unknown | Modern | Legacy.

Definition mode_name (m : TransportMode) : string :=
  match m with Unknown => "unknown" | Modern => "modern" | Legacy => "legacy" end.

(** [mode === other] *)
Definition mode_is (other mode : TransportMode) : bool :=
  match mode, other with
  | Unknown, Unknown | Modern, Modern | Legacy, Legacy => true
  | _, _ => false
  end.

(** [new Error(message)] *)
Inductive JsError : Type := Error (message : string).

Definition error_message (e : JsError) : string := let 'Error m := e in m.

(** What the callbacks handed to [setTimeout] and [setInterval] do. *)
Inductive TimerTask : Type :=
| InitPing
| RequestTimeout (requestId type : string) (timeoutMs : Z)
| RetryLoad (src : string)
| ReadyTimeout (timeoutMs : Z).

Record Timer : Type := mkTimer {
  timer_id : nat;
  timer_delay : Z;
  timer_repeats : bool;
  timer_task : TimerTask
}.

(** One call of a promise's [resolve] or [reject]. *)
Inductive Settle : Type :=
| Resolve (requestId : string) (data : JsVal)
| Reject (requestId : string) (error : JsError)
| ResolveReady (promise : nat)
| RejectReady (timer : nat) (error : JsError).

Record World : Type := mkWorld {
  (** [++this._requestSeq] numbers the requests *)
  _requestSeq : nat;
  (** the ledger, in insertion order: request id and its timeout timer; [resolve] and
      [reject] are those of the promise of that id *)
  _pending : list (string * nat);
  _apiMethods : list JsVal;
  _isReady : bool;
  (** which ready promise is current; [_resolveReady] resolves that one *)
  _readyPromise : nat;
  _initPingTimer : option nat;
  _transportMode : TransportMode;
  _legacyTabsCache : list JsVal;
  _iframeRetryCount : Z;
  _iframeRetryMax : Z;
  _iframeRetryPingThreshold : Z;
  _initPingCount : Z;
  _reconnectStopped : bool;
  (** [this.iframe.src] *)
  iframe_src : string;
  (** a navigation of the iframe is under way *)
  iframe_loading : bool;
  (** [this.iframe.contentWindow] is not null *)
  iframe_contentWindow : bool;
  (** the [parent-origin] attribute *)
  attr_parent_origin : option string;
  (** what [Number.parseInt] reads in the [request-timeout-ms] attribute, when it is a
      number *)
  attr_request_timeout_ms : option Z;
  (** [Date.now()] *)
  now : Z;
  (** the armed timers *)
  timers : list Timer;
  next_timer : nat;
  (** [postMessage(message, targetOrigin)] calls on the peer window, oldest first *)
  posted : list (JsVal * string);
  (** the [CustomEvent]s dispatched on the element: type and detail *)
  dispatched : list (string * JsVal);
  (** the calls of promise continuations, oldest first *)
  settled : list Settle
}.

Definition set_requestSeq (v : nat) (w : World) : World :=
    mkWorld v (_pending w) (_apiMethods w) (_isReady w) (_readyPromise w) (_initPingTimer w)
    (_transportMode w) (_legacyTabsCache w) (_iframeRetryCount w) (_iframeRetryMax w)
    (_iframeRetryPingThreshold w) (_initPingCount w) (_reconnectStopped w) (iframe_src w)
    (iframe_loading w) (iframe_contentWindow w) (attr_parent_origin w) (attr_request_timeout_ms w)
    (now w) (timers w) (next_timer w) (posted w) (dispatched w) (settled w).
Definition set_pending (v : list (string * nat)) (w : World) : World :=
    mkWorld (_requestSeq w) v (_apiMethods w) (_isReady w) (_readyPromise w) (_initPingTimer w)
    (_transportMode w) (_legacyTabsCache w) (_iframeRetryCount w) (_iframeRetryMax w)
    (_iframeRetryPingThreshold w) (_initPingCount w) (_reconnectStopped w) (iframe_src w)
    (iframe_loading w) (iframe_contentWindow w) (attr_parent_origin w) (attr_request_timeout_ms w)
    (now w) (timers w) (next_timer w) (posted w) (dispatched w) (settled w).
Definition set_apiMethods (v : list JsVal) (w : World) : World :=
    mkWorld (_requestSeq w) (_pending w) v (_isReady w) (_readyPromise w) (_initPingTimer w)
    (_transportMode w) (_legacyTabsCache w) (_iframeRetryCount w) (_iframeRetryMax w)
    (_iframeRetryPingThreshold w) (_initPingCount w) (_reconnectStopped w) (iframe_src w)
    (iframe_loading w) (iframe_contentWindow w) (attr_parent_origin w) (attr_request_timeout_ms w)
    (now w) (timers w) (next_timer w) (posted w) (dispatched w) (settled w).
Definition set_isReady (v : bool) (w : World) : World :=
    mkWorld (_requestSeq w) (_pending w) (_apiMethods w) v (_readyPromise w) (_initPingTimer w)
    (_transportMode w) (_legacyTabsCache w) (_iframeRetryCount w) (_iframeRetryMax w)
    (_iframeRetryPingThreshold w) (_initPingCount w) (_reconnectStopped w) (iframe_src w)
    (iframe_loading w) (iframe_contentWindow w) (attr_parent_origin w) (attr_request_timeout_ms w)
    (now w) (timers w) (next_timer w) (posted w) (dispatched w) (settled w).
Definition set_readyPromise (v : nat) (w : World) : World :=
    mkWorld (_requestSeq w) (_pending w) (_apiMethods w) (_isReady w) v (_initPingTimer w)
    (_transportMode w) (_legacyTabsCache w) (_iframeRetryCount w) (_iframeRetryMax w)
    (_iframeRetryPingThreshold w) (_initPingCount w) (_reconnectStopped w) (iframe_src w)
    (iframe_loading w) (iframe_contentWindow w) (attr_parent_origin w) (attr_request_timeout_ms w)
    (now w) (timers w) (next_timer w) (posted w) (dispatched w) (settled w).
Definition set_initPingTimer (v : option nat) (w : World) : World :=
    mkWorld (_requestSeq w) (_pending w) (_apiMethods w) (_isReady w) (_readyPromise w) v
    (_transportMode w) (_legacyTabsCache w) (_iframeRetryCount w) (_iframeRetryMax w)
    (_iframeRetryPingThreshold w) (_initPingCount w) (_reconnectStopped w) (iframe_src w)
    (iframe_loading w) (iframe_contentWindow w) (attr_parent_origin w) (attr_request_timeout_ms w)
    (now w) (timers w) (next_timer w) (posted w) (dispatched w) (settled w).
Definition set_transportMode (v : TransportMode) (w : World) : World :=
    mkWorld (_requestSeq w) (_pending w) (_apiMethods w) (_isReady w) (_readyPromise w)
    (_initPingTimer w) v (_legacyTabsCache w) (_iframeRetryCount w) (_iframeRetryMax w)
    (_iframeRetryPingThreshold w) (_initPingCount w) (_reconnectStopped w) (iframe_src w)
    (iframe_loading w) (iframe_contentWindow w) (attr_parent_origin w) (attr_request_timeout_ms w)
    (now w) (timers w) (next_timer w) (posted w) (dispatched w) (settled w).
Definition set_legacyTabsCache (v : list JsVal) (w : World) : World :=
    mkWorld (_requestSeq w) (_pending w) (_apiMethods w) (_isReady w) (_readyPromise w)
    (_initPingTimer w) (_transportMode w) v (_iframeRetryCount w) (_iframeRetryMax w)
    (_iframeRetryPingThreshold w) (_initPingCount w) (_reconnectStopped w) (iframe_src w)
    (iframe_loading w) (iframe_contentWindow w) (attr_parent_origin w) (attr_request_timeout_ms w)
    (now w) (timers w) (next_timer w) (posted w) (dispatched w) (settled w).
Definition set_iframeRetryCount (v : Z) (w : World) : World :=
    mkWorld (_requestSeq w) (_pending w) (_apiMethods w) (_isReady w) (_readyPromise w)
    (_initPingTimer w) (_transportMode w) (_legacyTabsCache w) v (_iframeRetryMax w)
    (_iframeRetryPingThreshold w) (_initPingCount w) (_reconnectStopped w) (iframe_src w)
    (iframe_loading w) (iframe_contentWindow w) (attr_parent_origin w) (attr_request_timeout_ms w)
    (now w) (timers w) (next_timer w) (posted w) (dispatched w) (settled w).
Definition set_initPingCount (v : Z) (w : World) : World :=
    mkWorld (_requestSeq w) (_pending w) (_apiMethods w) (_isReady w) (_readyPromise w)
    (_initPingTimer w) (_transportMode w) (_legacyTabsCache w) (_iframeRetryCount w)
    (_iframeRetryMax w) (_iframeRetryPingThreshold w) v (_reconnectStopped w) (iframe_src w)
    (iframe_loading w) (iframe_contentWindow w) (attr_parent_origin w) (attr_request_timeout_ms w)
    (now w) (timers w) (next_timer w) (posted w) (dispatched w) (settled w).
Definition set_reconnectStopped (v : bool) (w : World) : World :=
    mkWorld (_requestSeq w) (_pending w) (_apiMethods w) (_isReady w) (_readyPromise w)
    (_initPingTimer w) (_transportMode w) (_legacyTabsCache w) (_iframeRetryCount w)
    (_iframeRetryMax w) (_iframeRetryPingThreshold w) (_initPingCount w) v (iframe_src w)
    (iframe_loading w) (iframe_contentWindow w) (attr_parent_origin w) (attr_request_timeout_ms w)
    (now w) (timers w) (next_timer w) (posted w) (dispatched w) (settled w).
Definition set_iframe_src (v : string) (w : World) : World :=
    mkWorld (_requestSeq w) (_pending w) (_apiMethods w) (_isReady w) (_readyPromise w)
    (_initPingTimer w) (_transportMode w) (_legacyTabsCache w) (_iframeRetryCount w)
    (_iframeRetryMax w) (_iframeRetryPingThreshold w) (_initPingCount w) (_reconnectStopped w) v
    (iframe_loading w) (iframe_contentWindow w) (attr_parent_origin w) (attr_request_timeout_ms w)
    (now w) (timers w) (next_timer w) (posted w) (dispatched w) (settled w).
Definition set_iframe_loading (v : bool) (w : World) : World :=
    mkWorld (_requestSeq w) (_pending w) (_apiMethods w) (_isReady w) (_readyPromise w)
    (_initPingTimer w) (_transportMode w) (_legacyTabsCache w) (_iframeRetryCount w)
    (_iframeRetryMax w) (_iframeRetryPingThreshold w) (_initPingCount w) (_reconnectStopped w)
    (iframe_src w) v (iframe_contentWindow w) (attr_parent_origin w) (attr_request_timeout_ms w)
    (now w) (timers w) (next_timer w) (posted w) (dispatched w) (settled w).
Definition set_iframe_contentWindow (v : bool) (w : World) : World :=
    mkWorld (_requestSeq w) (_pending w) (_apiMethods w) (_isReady w) (_readyPromise w)
    (_initPingTimer w) (_transportMode w) (_legacyTabsCache w) (_iframeRetryCount w)
    (_iframeRetryMax w) (_iframeRetryPingThreshold w) (_initPingCount w) (_reconnectStopped w)
    (iframe_src w) (iframe_loading w) v (attr_parent_origin w) (attr_request_timeout_ms w) (now w)
    (timers w) (next_timer w) (posted w) (dispatched w) (settled w).
Definition set_now (v : Z) (w : World) : World :=
    mkWorld (_requestSeq w) (_pending w) (_apiMethods w) (_isReady w) (_readyPromise w)
    (_initPingTimer w) (_transportMode w) (_legacyTabsCache w) (_iframeRetryCount w)
    (_iframeRetryMax w) (_iframeRetryPingThreshold w) (_initPingCount w) (_reconnectStopped w)
    (iframe_src w) (iframe_loading w) (iframe_contentWindow w) (attr_parent_origin w)
    (attr_request_timeout_ms w) v (timers w) (next_timer w) (posted w) (dispatched w) (settled w).
Definition set_timers (v : list Timer) (w : World) : World :=
    mkWorld (_requestSeq w) (_pending w) (_apiMethods w) (_isReady w) (_readyPromise w)
    (_initPingTimer w) (_transportMode w) (_legacyTabsCache w) (_iframeRetryCount w)
    (_iframeRetryMax w) (_iframeRetryPingThreshold w) (_initPingCount w) (_reconnectStopped w)
    (iframe_src w) (iframe_loading w) (iframe_contentWindow w) (attr_parent_origin w)
    (attr_request_timeout_ms w) (now w) v (next_timer w) (posted w) (dispatched w) (settled w).
Definition set_next_timer (v : nat) (w : World) : World :=
    mkWorld (_requestSeq w) (_pending w) (_apiMethods w) (_isReady w) (_readyPromise w)
    (_initPingTimer w) (_transportMode w) (_legacyTabsCache w) (_iframeRetryCount w)
    (_iframeRetryMax w) (_iframeRetryPingThreshold w) (_initPingCount w) (_reconnectStopped w)
    (iframe_src w) (iframe_loading w) (iframe_contentWindow w) (attr_parent_origin w)
    (attr_request_timeout_ms w) (now w) (timers w) v (posted w) (dispatched w) (settled w).
Definition set_posted (v : list (JsVal * string)) (w : World) : World :=
    mkWorld (_requestSeq w) (_pending w) (_apiMethods w) (_isReady w) (_readyPromise w)
    (_initPingTimer w) (_transportMode w) (_legacyTabsCache w) (_iframeRetryCount w)
    (_iframeRetryMax w) (_iframeRetryPingThreshold w) (_initPingCount w) (_reconnectStopped w)
    (iframe_src w) (iframe_loading w) (iframe_contentWindow w) (attr_parent_origin w)
    (attr_request_timeout_ms w) (now w) (timers w) (next_timer w) v (dispatched w) (settled w).
Definition set_dispatched (v : list (string * JsVal)) (w : World) : World :=
    mkWorld (_requestSeq w) (_pending w) (_apiMethods w) (_isReady w) (_readyPromise w)
    (_initPingTimer w) (_transportMode w) (_legacyTabsCache w) (_iframeRetryCount w)
    (_iframeRetryMax w) (_iframeRetryPingThreshold w) (_initPingCount w) (_reconnectStopped w)
    (iframe_src w) (iframe_loading w) (iframe_contentWindow w) (attr_parent_origin w)
    (attr_request_timeout_ms w) (now w) (timers w) (next_timer w) (posted w) v (settled w).
Definition set_settled (v : list Settle) (w : World) : World :=
    mkWorld (_requestSeq w) (_pending w) (_apiMethods w) (_isReady w) (_readyPromise w)
    (_initPingTimer w) (_transportMode w) (_legacyTabsCache w) (_iframeRetryCount w)
    (_iframeRetryMax w) (_iframeRetryPingThreshold w) (_initPingCount w) (_reconnectStopped w)
    (iframe_src w) (iframe_loading w) (iframe_contentWindow w) (attr_parent_origin w)
    (attr_request_timeout_ms w) (now w) (timers w) (next_timer w) (posted w) (dispatched w) v.

Module Element.

(** *** Host primitives *)

(** [setTimeout(task, timeout)] and [setInterval(task, timeout)]: the timer
    runs for the 32-bit delay the browser makes of [timeout]. *)
Definition setTimer (timeout : Z) (repeats : bool) (task : TimerTask) (w : World) : nat * World :=
  let id := next_timer w in
  (id,
   set_next_timer (S id)
     (set_timers (timers w ++ [mkTimer id (Js.timer_delay timeout) repeats task]) w)).

Definition clearTimer (id : nat) (w : World) : World :=
  set_timers (filter (fun t => timer_id t ≠ id) (timers w)) w.

Definition find_timer (id : nat) (w : World) : option Timer :=
  snd <$> list_find (fun t => timer_id t = id) (timers w).

Definition dispatchEvent (type : string) (detail : JsVal) (w : World) : World :=
  set_dispatched (dispatched w ++ [(type, detail)]) w.

Definition settle (s : Settle) (w : World) : World :=
  set_settled (settled w ++ [s]) w.

(** *** The ledger as a [Map] *)

Definition pending_has (requestId : string) (w : World) : bool :=
  bool_decide (requestId ∈ (_pending w).*1).

Definition pending_get (requestId : string) (w : World) : option nat :=
  (fun found => found.2.2) <$> list_find (fun p => p.1 = requestId) (_pending w).

Definition pending_delete (requestId : string) (w : World) : World :=
  set_pending (filter (fun p => p.1 ≠ requestId) (_pending w)) w.

Definition pending_set (requestId : string) (timer : nat) (w : World) : World :=
  set_pending
    (if pending_has requestId w
     then (fun p => if decide (p.1 = requestId) then (requestId, timer) else p) <$> _pending w
     else _pending w ++ [(requestId, timer)]) w.

(** *** Attributes *)

Definition parentOrigin (w : World) : string :=
  match attr_parent_origin w with
  | Some s => if String.eqb s "" then "*" else s
  | None => "*"
  end.

Definition requestTimeoutMs (w : World) : Z :=
  match attr_request_timeout_ms w with
  | Some parsed => if (parsed <? 100)%Z then 30000%Z else parsed
  | None => 30000%Z
  end.

Definition _allowedOrigin (w : World) : string :=
  let configured := parentOrigin w in
  if negb (String.eqb configured "") && negb (String.eqb configured "*") then configured
  else "*".

Definition _validateIncomingOrigin (origin : string) (w : World) : bool :=
  let allowed := _allowedOrigin w in
  String.eqb allowed "*" || String.eqb origin allowed.

(** *** Readiness and the liveness prober *)

Definition _resetReadyPromise (w : World) : World :=
  set_readyPromise (S (_readyPromise w)) w.

Definition _stopInitPing (w : World) : World :=
  match _initPingTimer w with
  | Some t => set_initPingTimer None (clearTimer t w)
  | None => w
  end.

Definition _setReady (w : World) : World :=
  if negb (_isReady w) then
    let w := set_isReady true w in
    let w := set_iframeRetryCount 0%Z w in
    let w := set_reconnectStopped false w in
    let w := _stopInitPing w in
    settle (ResolveReady (_readyPromise w)) w
  else w.

Definition _rejectPending (error : JsError) (w : World) : World :=
  let w :=
    fold_left (fun w pending => settle (Reject pending.1 error) (clearTimer pending.2 w))
      (_pending w) w in
  set_pending [] w.

Definition _postRaw (message : JsVal) (w : World) : World :=
  if negb (iframe_contentWindow w) then w
  else set_posted (posted w ++ [(message, _allowedOrigin w)]) w.

(** Setting [this.iframe.src] starts a navigation of the frame. *)
Definition _assignIframeSrc (nextSrc : string) (w : World) : World :=
  set_iframe_loading true (set_iframe_src nextSrc w).

Definition stopReconnectAttempts (reason : string) (w : World) : World :=
  let w := set_reconnectStopped true w in
  let w := _stopInitPing w in
  _rejectPending (Error ("browserbox-webview reconnect stopped (" +:+ reason +:+ ")")) w.

Definition _retryIframeLoad (w : World) : World :=
  let w := _stopInitPing w in
  let w := set_iframeRetryCount (_iframeRetryCount w + 1)%Z w in
  let src := iframe_src w in
  if String.eqb src "" then w
  else
    let delay := Z.min (2000 * _iframeRetryCount w) 8000 in
    let w :=
      dispatchEvent "iframe-retry"
        (JObj [("attempt", JNum (_iframeRetryCount w));
               ("maxAttempts", JNum (_iframeRetryMax w));
               ("delayMs", JNum delay)]) w in
    (setTimer delay false (RetryLoad src) w).2.

Definition init_message : JsVal := JObj [("type", JStr "init")].

(** The callback that [_startInitPing] hands to [setInterval]. *)
Definition initPing (w : World) : World :=
  if _reconnectStopped w then _stopInitPing w
  else if _isReady w then _stopInitPing w
  else
    let w := set_initPingCount (_initPingCount w + 1)%Z w in
    if (_iframeRetryPingThreshold w <=? _initPingCount w)%Z then
      if (_iframeRetryCount w <? _iframeRetryMax w)%Z then _retryIframeLoad w
      else
        let w := stopReconnectAttempts "iframe-unresponsive" w in
        dispatchEvent "connect-failed"
          (JObj [("reason", JStr "iframe-unresponsive");
                 ("attempts", JNum (_iframeRetryCount w));
                 ("maxAttempts", JNum (_iframeRetryMax w))]) w
    else _postRaw init_message w.

Definition _startInitPing (w : World) : World :=
  if _reconnectStopped w then w
  else
    let w := _stopInitPing w in
    let w := set_initPingCount 0%Z w in
    let w := _postRaw init_message w in
    let '(t, w) := setTimer 1000 true InitPing w in
    set_initPingTimer (Some t) w.

Definition _handleLoad (w : World) : World :=
  let needsReset := _isReady w in
  let w := set_isReady false w in
  let w := set_apiMethods [] w in
  let w := set_transportMode Unknown w in
  let w := set_legacyTabsCache [] w in
  let w := set_initPingCount 0%Z w in
  let w := if needsReset then _resetReadyPromise (set_iframeRetryCount 0%Z w) else w in
  _startInitPing w.

(** The iframe's [load] event. *)
Definition load (w : World) : World := _handleLoad (set_iframe_loading false w).

(** *** Inbound messages *)

(** [payload.requestId && this._pending.has(payload.requestId)]: the ledger's
    keys are strings, so only a string can be one of them. *)
Definition matching_request (payload : JsVal) (w : World) : option (string * nat) :=
  match payload.["requestId"] with
  | JStr requestId =>
      if Js.truthy (JStr requestId)
      then (fun timer => (requestId, timer)) <$> pending_get requestId w
      else None
  | _ => None
  end.

(** The part of [_handleMessage] after the ledger: readiness signals, tab
    cache maintenance and the pass-through of the notification. *)
Definition notify (type : string) (payload : JsVal) (w : World) : World :=
  if String.eqb type "tab-api-ready" then
    let w := _setReady w in
    dispatchEvent "ready" (JObj [("type", JStr type)]) w
  else if String.eqb type "bbx-api-ready" then
    let w :=
      match payload.["data"].["methods"] with
      | JArr methods => set_transportMode Modern (set_apiMethods methods w)
      | _ => w
      end in
    let w := _setReady w in
    dispatchEvent "api-ready" (Js.or payload.["data"] (JObj [])) w
  else
    let w :=
      if String.eqb type "tab-updated" then
        set_legacyTabsCache
          (TabCache._updateLegacyTabCache payload.["data"] (_legacyTabsCache w)) w
      else if String.eqb type "tab-created" then
        set_legacyTabsCache
          (TabCache._addLegacyTabCache payload.["data"] (_legacyTabsCache w)) w
      else if String.eqb type "tab-closed" then
        set_legacyTabsCache
          (TabCache._removeLegacyTabCache payload.["data"] (_legacyTabsCache w)) w
      else w in
    dispatchEvent type (Js.or payload.["data"] (JObj [])) w.

(** [fromPeer] is [event.source === this.iframe.contentWindow].  When
    [new Error(payload.error)] throws, the handler ends there: the timer is
    cleared and the entry deleted, and neither [resolve] nor [reject] is
    called. *)
Definition _handleMessage (fromPeer : bool) (origin : string) (data : JsVal) (w : World)
  : World :=
  if negb fromPeer then w
  else if negb (_validateIncomingOrigin origin w) then w
  else
    let payload := Js.or data (JObj []) in
    match payload.["type"] with
    | JStr type =>
        match matching_request payload w with
        | Some (requestId, timer) =>
            let w := clearTimer timer w in
            let w := pending_delete requestId w in
            if Js.truthy payload.["error"] then
              match Js.toString payload.["error"] with
              | Some message => settle (Reject requestId (Error message)) w
              | None => w
              end
            else settle (Resolve requestId payload.["data"]) w
        | None => notify type payload w
        end
    | _ => w
    end.

(** *** Timers firing *)

Definition request_timeout_message (type : string) (timeoutMs : Z) : string :=
  "browserbox-webview request timed out (" +:+ type +:+ ") after " +:+
  Js.number_text timeoutMs +:+ "ms".

Definition ready_timeout_message (timeoutMs : Z) : string :=
  "browserbox-webview ready timeout after " +:+ Js.number_text timeoutMs +:+ "ms".

(** The callback of an armed timer runs; a timer that was cleared never
    fires, and a timeout is gone once it has fired. *)
Definition fire (id : nat) (w : World) : World :=
  match find_timer id w with
  | None => w
  | Some t =>
      let w := if timer_repeats t then w else clearTimer id w in
      match timer_task t with
      | InitPing => initPing w
      | RequestTimeout requestId type timeoutMs =>
          let w := pending_delete requestId w in
          settle (Reject requestId (Error (request_timeout_message type timeoutMs))) w
      | RetryLoad src =>
          if _isReady w || _reconnectStopped w then w
          else _assignIframeSrc src w
      | ReadyTimeout timeoutMs =>
          settle (RejectReady id (Error (ready_timeout_message timeoutMs))) w
      end
  end.

(** *** Life cycle *)

Definition constructor (parent_origin : option string) (request_timeout_ms : option Z)
    (clock : Z) : World :=
  _resetReadyPromise
    {| _requestSeq := 0;
       _pending := [];
       _apiMethods := [];
       _isReady := false;
       _readyPromise := 0;
       _initPingTimer := None;
       _transportMode := Unknown;
       _legacyTabsCache := [];
       _iframeRetryCount := 0;
       _iframeRetryMax := 5;
       _iframeRetryPingThreshold := 10;
       _initPingCount := 0;
       _reconnectStopped := false;
       iframe_src := "";
       iframe_loading := false;
       iframe_contentWindow := false;
       attr_parent_origin := parent_origin;
       attr_request_timeout_ms := request_timeout_ms;
       now := clock;
       timers := [];
       next_timer := 1;
       posted := [];
       dispatched := [];
       settled := [] |}.

(** [loginLink] is the link that [_updateIframeSrcFromAttribute] assigns:
    [None] when the attribute is empty or names the URL already loaded. *)
Definition _updateIframeSrcFromAttribute (loginLink : option string) (w : World) : World :=
  match loginLink with
  | Some link => _assignIframeSrc link w
  | None => w
  end.

(** Once connected, the iframe is in a document and has a window. *)
Definition connectedCallback (loginLink : option string) (w : World) : World :=
  _updateIframeSrcFromAttribute loginLink (set_iframe_contentWindow true w).

Definition disconnectedCallback (w : World) : World :=
  let w := _stopInitPing w in
  let w := _rejectPending (Error "browserbox-webview disconnected") w in
  set_iframe_contentWindow false w.

(** [attributeChangedCallback('login-link', oldValue, newValue)] with
    [oldValue !== newValue]. *)
Definition loginLinkChanged (loginLink : option string) (w : World) : World :=
  let w := set_isReady false w in
  let w := set_apiMethods [] w in
  let w := set_transportMode Unknown w in
  let w := set_legacyTabsCache [] w in
  let w := set_iframeRetryCount 0%Z w in
  let w := set_initPingCount 0%Z w in
  let w := set_reconnectStopped false w in
  let w := _resetReadyPromise w in
  let w := _rejectPending (Error "browserbox-webview source changed") w in
  _updateIframeSrcFromAttribute loginLink w.

Definition refresh (w : World) : World :=
  if negb (String.eqb (iframe_src w) "") then
    let w := set_isReady false w in
    let w := set_apiMethods [] w in
    let w := set_transportMode Unknown w in
    let w := set_legacyTabsCache [] w in
    let w := set_reconnectStopped false w in
    let w := _resetReadyPromise w in
    let w := _rejectPending (Error "browserbox-webview refreshed") w in
    _assignIframeSrc (iframe_src w) w
  else w.

End Element.

(** ** Promises and async functions *)

(** What an [await] waits for: the promise of a request, or the race of
    [whenReady] between a ready promise and its timeout. *)
Inductive Waitable : Type :=
| WRequest (requestId : string)
| WReady (promise timer : nat).

Inductive Outcome : Type :=
| Resolved (value : JsVal)
| Rejected (error : JsError).

(** The first settlement of a promise is the one that counts. *)
Definition settles (p : Waitable) (s : Settle) : option Outcome :=
  match p, s with
  | WRequest id, Resolve id' data => if String.eqb id id' then Some (Resolved data) else None
  | WRequest id, Reject id' error => if String.eqb id id' then Some (Rejected error) else None
  | WReady promise _, ResolveReady promise' =>
      if Nat.eqb promise promise' then Some (Resolved (JBool true)) else None
  | WReady _ timer, RejectReady timer' error =>
      if Nat.eqb timer timer' then Some (Rejected error) else None
  | _, _ => None
  end.

Fixpoint outcome_of (p : Waitable) (log : list Settle) : option Outcome :=
  match log with
  | [] => None
  | s :: log' => match settles p s with Some o => Some o | None => outcome_of p log' end
  end.

(** An async function body: synchronous reads and writes of the element
    between suspension points.  [Tick] is an [await] of a promise that is
    already settled: the rest runs in a later microtask. *)
Inductive Async (A : Type) : Type :=
| Ret (a : A)
| Throw (e : JsError)
| Get (k : World → Async A)
| Put (w : World) (k : Async A)
| Await (p : Waitable) (k : Outcome → Async A)
| Tick (k : Async A).

Arguments Ret {A} a.
Arguments Throw {A} e.
Arguments Get {A} k.
Arguments Put {A} w k.
Arguments Await {A} p k.
Arguments Tick {A} k.

Fixpoint bind {A B} (m : Async A) (f : A → Async B) : Async B :=
  match m with
  | Ret a => f a
  | Throw e => Throw e
  | Get k => Get (fun w => bind (k w) f)
  | Put w k => Put w (bind k f)
  | Await p k => Await p (fun o => bind (k o) f)
  | Tick k => Tick (bind k f)
  end.

(** [try { m } catch (e) { h e }], and [promise.catch(h)]. *)
Fixpoint try_catch {A} (m : Async A) (h : JsError → Async A) : Async A :=
  match m with
  | Ret a => Ret a
  | Throw e => h e
  | Get k => Get (fun w => try_catch (k w) h)
  | Put w k => Put w (try_catch k h)
  | Await p k => Await p (fun o => try_catch (k o) h)
  | Tick k => Tick (try_catch k h)
  end.

#[global] Instance Async_ret : MRet Async := @Ret.
#[global] Instance Async_bind : MBind Async := fun A B f m => bind m f.

Definition modify (f : World → World) : Async unit :=
  Get (fun w => Put (f w) (Ret tt)).

(** [await f(...)] of an async function [f]. *)
Definition await {A} (m : Async A) : Async A := x ← m; Tick (Ret x).

(** The outcome of the awaited promise, as [await] hands it on. *)
Definition settled_value (o : Outcome) : Async JsVal :=
  match o with
  | Resolved v => Ret v
  | Rejected e => Throw e
  end.

(** *** Running *)

Inductive Result (A : Type) : Type :=
| Returned (a : A)
| Threw (e : JsError).

Arguments Returned {A} a.
Arguments Threw {A} e.

Inductive Status (A : Type) : Type :=
| Finished (r : Result A)
| Waiting (p : Waitable) (k : Outcome → Async A)
| Yielded (k : Async A).

Arguments Finished {A} r.
Arguments Waiting {A} p k.
Arguments Yielded {A} k.

(** Run to the next suspension point. *)
Fixpoint run_sync {A} (m : Async A) (w : World) : World * Status A :=
  match m with
  | Ret a => (w, Finished (Returned a))
  | Throw e => (w, Finished (Threw e))
  | Get k => run_sync (k w) w
  | Put w' k => run_sync k w'
  | Await p k => (w, Waiting p k)
  | Tick k => (w, Yielded k)
  end.

(** The body never ends by throwing, whatever the element's state is at
    each read and however each awaited promise settles. *)
Inductive NeverThrows {A} : Async A → Prop :=
| NT_Ret a : NeverThrows (Ret a)
| NT_Get k : (∀ w, NeverThrows (k w)) → NeverThrows (Get k)
| NT_Put w k : NeverThrows k → NeverThrows (Put w k)
| NT_Await p k : (∀ o, NeverThrows (k o)) → NeverThrows (Await p k)
| NT_Tick k : NeverThrows k → NeverThrows (Tick k).

(** ** Requests *)

Module Requests.
Import Element.

Record RequestOptions : Type := mkOptions {
  (** [options.timeoutMs] when it is a finite number; every call site of the
      element passes an integer *)
  timeoutMs : option Z;
  messageExtras : JsVal
}.

Definition no_options : RequestOptions := mkOptions None JUndefined.
Definition timeout_option (ms : Z) : RequestOptions := mkOptions (Some ms) JUndefined.

Definition request_id (clock : Z) (seq : nat) : string :=
  "bbx-" +:+ Js.number_text clock +:+ "-" +:+ pretty seq.

Definition request_message (type requestId : string) (data : JsVal) (options : RequestOptions)
  : JsVal :=
  JObj (Js.assign [("type", JStr type); ("requestId", JStr requestId); ("data", data)]
          (Js.spread (Js.or (messageExtras options) (JObj [])))).

(** The synchronous part of [_request] once the peer window is there: the
    id, the timeout, the ledger entry and the message. *)
Definition send (type : string) (data : JsVal) (options : RequestOptions) (w : World)
  : string * World :=
  let timeoutMs :=
    match timeoutMs options with
    | Some ms => Z.max 100 ms
    | None => requestTimeoutMs w
    end in
  let w := set_requestSeq (S (_requestSeq w)) w in
  let requestId := request_id (now w) (_requestSeq w) in
  let message := request_message type requestId data options in
  let targetOrigin := _allowedOrigin w in
  let '(timer, w) := setTimer timeoutMs false (RequestTimeout requestId type timeoutMs) w in
  let w := pending_set requestId timer w in
  (requestId, set_posted (posted w ++ [(message, targetOrigin)]) w).

Definition _request (type : string) (data : JsVal) (options : RequestOptions) : Async JsVal :=
  Get (fun w =>
    if negb (iframe_contentWindow w)
    then Tick (Throw (Error "browserbox-webview iframe is not ready."))
    else
      let '(requestId, w) := send type data options w in
      Put w (Await (WRequest requestId) settled_value)).

Definition whenReady (timeoutMs : Z) : Async JsVal :=
  Get (fun w =>
    if _isReady w then Ret (JBool true)
    else
      let '(timer, w) := setTimer timeoutMs false (ReadyTimeout timeoutMs) w in
      Put w (Await (WReady (_readyPromise w) timer)
               (fun o => _ ← settled_value o; Ret (JBool true)))).

Definition _ensureReadyForApi : Async JsVal :=
  Get (fun w =>
    if _isReady w then Ret (JBool true)
    else
      let softTimeoutMs := Z.min (requestTimeoutMs w) 8000 in
      try_catch
        (_ ← await (whenReady softTimeoutMs); Ret (JBool true))
        (fun error =>
           modify (fun w =>
             dispatchEvent "ready-timeout"
               (JObj [("timeoutMs", JNum softTimeoutMs);
                      ("error", JStr (error_message error))])
               (_setReady w));;
           Ret (JBool false))).

Definition probe_data : JsVal :=
  JObj [("method", JStr "getTabCount"); ("args", JArr [])].

Definition _resolveTransport : Async JsVal :=
  Get (fun w =>
    if negb (mode_is Unknown (_transportMode w))
    then Ret (JStr (mode_name (_transportMode w)))
    else
      try_catch
        (_ ← _request "bbx-api-call" probe_data
               (timeout_option (Z.min (requestTimeoutMs w) 5000));
         modify (set_transportMode Modern))
        (fun _ => modify (set_transportMode Legacy));;
      Get (fun w => Ret (JStr (mode_name (_transportMode w))))).

End Requests.

(** ** Legacy adapter and the unified call *)

Module Legacy.
Import Element Requests.

(** A handler of the table takes [args] and [originalError] ([None] is
    [null]). *)
Definition Handler : Type := list JsVal → option JsError → Async JsVal.

(** [args[i]] *)
Definition arg (i : nat) (args : list JsVal) : JsVal := default JUndefined (args !! i).

(** [typeof v === 'string' ? v : ''] *)
Definition string_or_empty (v : JsVal) : string :=
  match v with JStr s => s | _ => "" end.

Definition fail {A} (message : string) (originalError : option JsError) : Async A :=
  let detail :=
    match originalError with
    | Some (Error m) => if String.eqb m "" then "" else " (" +:+ m +:+ ")"
    | None => ""
    end in
  Throw (Error (message +:+ detail)).

(** [{ index, ...tab }] *)
Definition with_default_index (index : nat) (tab : JsVal) : JsVal :=
  JObj (Js.assign [("index", JNum (Z.of_nat index))] (Js.spread tab)).

Definition getTabs : Handler := fun _ _ =>
  tabs ← try_catch (_request "getTabs" (JObj []) no_options)
           (fun _ => Get (fun w => Ret (JArr (_legacyTabsCache w))));
  match tabs with
  | JArr tabs =>
      let normalizedTabs := imap with_default_index tabs in
      modify (set_legacyTabsCache normalizedTabs);;
      Ret (JArr normalizedTabs)
  | _ => Get (fun w => Ret (JArr (_legacyTabsCache w)))
  end.

(** [tab?.id || tab?.targetId] *)
Definition tab_identifier (tab : JsVal) : JsVal := Js.or tab.["id"] tab.["targetId"].

(** [Math.max(0, Math.min(length - 1, normalized))] *)
Definition clamp_index (length normalized : Z) : Z := Z.max 0 (Z.min (length - 1) normalized).

(** [typeof indexArg === 'string' && indexArg.trim().length > 0] *)
Definition given_tab_id (indexArg : JsVal) : option string :=
  match indexArg with
  | JStr s => if negb (String.eqb (Js.trim s) "") then Some (Js.trim s) else None
  | _ => None
  end.

Definition resolveTabId (indexArg : JsVal) : Async JsVal :=
  match given_tab_id indexArg with
  | Some tabId => Ret (JStr tabId)
  | None =>
      tabs ← await (getTabs [] None);
      match tabs with
      | JArr (tab0 :: rest) =>
          let tabs := tab0 :: rest in
          let length := Z.of_nat (List.length tabs) in
          let requested := match indexArg with JNum i => i | _ => 0%Z end in
          let normalized := if (requested <? 0)%Z then (length + requested)%Z else requested in
          let safeIndex := clamp_index length normalized in
          let tab := default JUndefined (tabs !! Z.to_nat safeIndex) in
          Ret (Js.or (tab_identifier tab) JNull)
      | _ =>
          activeTab ← try_catch (_request "getActiveTab" (JObj []) no_options)
                        (fun _ => Ret JNull);
          Ret (Js.or (tab_identifier activeTab) JNull)
      end
  end.

Definition legacy_message (type : string) (tabId : JsVal) (data : JsVal) : JsVal :=
  JObj [("type", JStr type); ("tabId", tabId); ("data", data)].

Definition createTab_message (url : string) : JsVal :=
  JObj [("type", JStr "createTab"); ("data", JObj [("url", JStr url)])].

Definition getTabCount : Handler := fun _ _ =>
  tabs ← await (getTabs [] None);
  match tabs with
  | JArr tabs => Ret (JNum (Z.of_nat (length tabs)))
  | _ => Ret (JNum 0)
  end.

Definition createTab : Handler := fun args _ =>
  let url := string_or_empty (arg 0 args) in
  modify (_postRaw (createTab_message url));;
  Ret (JBool true).

Definition createTabs : Handler := fun args _ =>
  let count := match arg 0 args with JNum n => if (0 <? n)%Z then n else 0%Z | _ => 0%Z end in
  let opts := Js.or (arg 1 args) (JObj []) in
  let url := string_or_empty opts.["url"] in
  modify (fun w => Nat.iter (Z.to_nat count) (_postRaw (createTab_message url)) w);;
  Ret (JBool true).

(** The handlers that resolve a tab, fail without one and post their
    messages to it. *)
Definition on_tab (indexArg : JsVal) (failure : string) (messages : JsVal → list JsVal)
    (originalError : option JsError) : Async JsVal :=
  tabId ← await (resolveTabId indexArg);
  if negb (Js.truthy tabId) then fail failure originalError
  else
    modify (fun w => fold_left (fun w message => _postRaw message w) (messages tabId) w);;
    Ret (JBool true).

Definition closeTab : Handler := fun args originalError =>
  on_tab (arg 0 args) "Legacy closeTab failed: no target tab"
    (fun tabId => [legacy_message "closeTab" tabId (JObj [])]) originalError.

(** The indices [length - 1] down to [keep] of the closing loop. *)
Definition closing_indices (length keep : nat) : list nat :=
  reverse (seq keep (length - keep)).

Definition close_if_identified (tabs : list JsVal) (w : World) (i : nat) : World :=
  let tabId := tab_identifier (default JUndefined (tabs !! i)) in
  if negb (Js.truthy tabId) then w
  else _postRaw (legacy_message "closeTab" tabId (JObj [])) w.

Definition closeAllTabs : Handler := fun args _ =>
  let opts := Js.or (arg 0 args) (JObj []) in
  let keep := match opts.["keep"] with JNum k => Z.max 0 k | _ => 0%Z end in
  tabs ← await (getTabs [] None);
  match tabs with
  | JArr tabs =>
      if (Z.of_nat (length tabs) <=? keep)%Z
      then Ret (Js.or (JNum (Z.of_nat (length tabs))) (JNum 0))
      else
        modify (fun w =>
          fold_left (close_if_identified tabs)
            (closing_indices (length tabs) (Z.to_nat keep)) w);;
        Ret (JNum (Z.max keep 0))
  | _ => Ret (Js.or tabs.["length"] (JNum 0))
  end.

Definition switchToTab : Handler := fun args originalError =>
  on_tab (arg 0 args) "Legacy switchToTab failed: no target tab"
    (fun tabId => [legacy_message "setActiveTab" tabId (JObj [])]) originalError.

Definition navigateTo : Handler := fun args originalError =>
  let url := string_or_empty (arg 0 args) in
  on_tab JNull "Legacy navigateTo failed: no active tab"
    (fun tabId => [legacy_message "loadURL" tabId (JObj [("url", JStr url)])]) originalError.

Definition navigateTab : Handler := fun args originalError =>
  let url := string_or_empty (arg 1 args) in
  on_tab (arg 0 args) "Legacy navigateTab failed: no target tab"
    (fun tabId => [legacy_message "setActiveTab" tabId (JObj []);
                   legacy_message "loadURL" tabId (JObj [("url", JStr url)])]) originalError.

Definition submitOmnibox : Handler := fun args originalError =>
  let query := string_or_empty (arg 0 args) in
  navigateTo [JStr query] originalError.

Definition reload : Handler := fun _ originalError =>
  on_tab JNull "Legacy reload failed: no active tab"
    (fun tabId => [legacy_message "reload" tabId (JObj [])]) originalError.

Definition goBack : Handler := fun _ originalError =>
  on_tab JNull "Legacy goBack failed: no active tab"
    (fun tabId => [legacy_message "goBack" tabId (JObj [])]) originalError.

Definition goForward : Handler := fun _ originalError =>
  on_tab JNull "Legacy goForward failed: no active tab"
    (fun tabId => [legacy_message "goForward" tabId (JObj [])]) originalError.

Definition stop : Handler := fun _ originalError =>
  on_tab JNull "Legacy stop failed: no active tab"
    (fun tabId => [legacy_message "stop" tabId (JObj [])]) originalError.

(** [s.includes(sub)] *)
Fixpoint includes (sub s : string) : bool :=
  String.prefix sub s ||
  match s with
  | EmptyString => false
  | String _ s' => includes sub s'
  end.

Definition evaluate : Handler := fun args originalError =>
  let expression := string_or_empty (arg 0 args) in
  tabId ← await (resolveTabId JNull);
  if negb (Js.truthy tabId) then fail "Legacy evaluate failed: no active tab" originalError
  else if includes "history.back" expression then
    modify (_postRaw (legacy_message "goBack" tabId (JObj [])));; Ret (JBool true)
  else if includes "history.forward" expression then
    modify (_postRaw (legacy_message "goForward" tabId (JObj [])));; Ret (JBool true)
  else if includes "window.stop" expression then
    modify (_postRaw (legacy_message "stop" tabId (JObj [])));; Ret (JBool true)
  else
    fail "Legacy evaluate only supports history.back, history.forward, and window.stop"
      originalError.

Section Dispatch.

(** The handlers built on [Promise.all] and on polling loops over the wall
    clock are kept abstract: what follows holds whatever they do. *)
Variables getActiveTabIndex waitForTabCount waitForTabUrl : Handler.

(** The table is an object literal, so [this._legacyHandlers[method]] also
    finds what [Object.prototype] holds under these names. *)
Definition object_prototype : list string :=
  ["constructor"; "__defineGetter__"; "__defineSetter__"; "hasOwnProperty";
   "__lookupGetter__"; "__lookupSetter__"; "isPrototypeOf"; "propertyIsEnumerable";
   "toString"; "valueOf"; "__proto__"; "toLocaleString"].

(** What [handler.call(this, args, originalError)] gives for such a member.
    They are functions of the host ([__proto__] is the prototype itself, whose
    [call] is no function, so that the call throws): called on the element
    they neither change it nor wait, and return or throw at once.  What each
    returns or throws is the host's affair and is kept abstract. *)
Variable inherited : string → list JsVal → option JsError → Result JsVal.

(** The own keys of [_legacyHandlers]. *)
Definition _legacyHandlers (method : string) : option Handler :=
  if String.eqb method "getTabs" then Some getTabs
  else if String.eqb method "getActiveTabIndex" then Some getActiveTabIndex
  else if String.eqb method "getTabCount" then Some getTabCount
  else if String.eqb method "createTab" then Some createTab
  else if String.eqb method "createTabs" then Some createTabs
  else if String.eqb method "closeTab" then Some closeTab
  else if String.eqb method "closeAllTabs" then Some closeAllTabs
  else if String.eqb method "switchToTab" then Some switchToTab
  else if String.eqb method "navigateTo" then Some navigateTo
  else if String.eqb method "navigateTab" then Some navigateTab
  else if String.eqb method "submitOmnibox" then Some submitOmnibox
  else if String.eqb method "reload" then Some reload
  else if String.eqb method "goBack" then Some goBack
  else if String.eqb method "goForward" then Some goForward
  else if String.eqb method "stop" then Some stop
  else if String.eqb method "evaluate" then Some evaluate
  else if String.eqb method "waitForTabCount" then Some waitForTabCount
  else if String.eqb method "waitForTabUrl" then Some waitForTabUrl
  else None.

Definition _legacyCall (method : string) (args : list JsVal) (originalError : option JsError)
  : Async JsVal :=
  match _legacyHandlers method with
  | Some handler => handler args originalError
  | None =>
      if bool_decide (method ∈ object_prototype) then
        match inherited method args originalError with
        | Returned value => Ret value
        | Threw error => Throw error
        end
      else fail ("No legacy fallback for API method '" +:+ method +:+ "'") originalError
  end.

Definition method_required : JsError :=
  Error "callApi(method, ...args) requires a non-empty method string.".

Definition api_call_data (method : string) (args : list JsVal) : JsVal :=
  JObj [("method", JStr method); ("args", JArr args)].

Definition callApi (method : JsVal) (args : list JsVal) : Async JsVal :=
  match method with
  | JStr method =>
      if String.eqb (Js.trim method) "" then Throw method_required
      else
        await _ensureReadyForApi;;
        let normalizedMethod := Js.trim method in
        Get (fun w =>
          if mode_is Unknown (_transportMode w) then await _resolveTransport else Ret JUndefined);;
        Get (fun w =>
          if mode_is Legacy (_transportMode w) then _legacyCall normalizedMethod args None
          else
            _request "bbx-api-call" (api_call_data normalizedMethod args)
              (timeout_option (requestTimeoutMs w)))
  | _ => Throw method_required
  end.

End Dispatch.

End Legacy.

(** ** The event loop *)

Module Loop.
Import Element.

(** What the host page and the browser do to the element, one after the
    other on a single thread. *)
Inductive Event : Type :=
| Message (fromPeer : bool) (origin : string) (data : JsVal)
| TimerFires (id : nat)
| Loaded
| Stopped (reason : string)
| Refreshed
| LoginLinkChanged (loginLink : option string)
| Connected (loginLink : option string)
| Disconnected
| ClockReads (clock : Z).

Definition deliver (e : Event) (w : World) : World :=
  match e with
  | Message fromPeer origin data => _handleMessage fromPeer origin data w
  | TimerFires id => fire id w
  | Loaded => load w
  | Stopped reason => stopReconnectAttempts reason w
  | Refreshed => refresh w
  | LoginLinkChanged link => loginLinkChanged link w
  | Connected link => connectedCallback link w
  | Disconnected => disconnectedCallback w
  | ClockReads clock => set_now clock w
  end.

Definition deliver_all (events : list Event) (w : World) : World :=
  fold_left (fun w e => deliver e w) events w.

(** *** One call on its own *)

(** Run a call with nothing else on the microtask queue.  At each [await]
    the environment delivers its next batch of events; the call goes on when
    they have settled the awaited promise and stays suspended otherwise. *)
Fixpoint exec {A} (body : Async A) (env : list (list Event)) (w : World)
  : World * list (list Event) * option (Result A) :=
  match body with
  | Ret a => (w, env, Some (Returned a))
  | Throw e => (w, env, Some (Threw e))
  | Get k => exec (k w) env w
  | Put w' k => exec k env w'
  | Tick k => exec k env w
  | Await p k =>
      match env with
      | [] => (w, [], None)
      | events :: env' =>
          let w' := deliver_all events w in
          match outcome_of p (settled w') with
          | Some o => exec (k o) env' w'
          | None => (w', env', None)
          end
      end
  end.

(** *** Concurrent calls *)

(** What happens in a turn of the loop: the host page calls an async method
    of the element, or the browser delivers an event. *)
Inductive Action : Type :=
| Call (body : Async JsVal)
| Env (e : Event).

Record Machine : Type := mkMachine {
  world : World;
  (** continuations queued to run, first in first out *)
  microtasks : list (nat * Async JsVal);
  (** calls suspended on a promise *)
  waiting : list (nat * (Waitable * (Outcome → Async JsVal)));
  (** calls that returned or threw *)
  completed : list (nat * Result JsVal);
  next_task : nat
}.

Definition boot (w : World) : Machine := mkMachine w [] [] [] 0.

Definition set_world (w : World) (M : Machine) : Machine :=
  mkMachine w (microtasks M) (waiting M) (completed M) (next_task M).

(** Run one continuation up to its next suspension point. *)
Definition resume (id : nat) (body : Async JsVal) (M : Machine) : Machine :=
  let '(w, status) := run_sync body (world M) in
  match status with
  | Finished r => mkMachine w (microtasks M) (waiting M) (completed M ++ [(id, r)]) (next_task M)
  | Waiting p k => mkMachine w (microtasks M) (waiting M ++ [(id, (p, k))]) (completed M) (next_task M)
  | Yielded k => mkMachine w (microtasks M ++ [(id, k)]) (waiting M) (completed M) (next_task M)
  end.

(** The reactions of settled promises join the microtask queue. *)
Definition wake (M : Machine) : Machine :=
  let log := settled (world M) in
  let woken :=
    omap (fun t => (fun o => (t.1, t.2.2 o)) <$> outcome_of t.2.1 log) (waiting M) in
  let asleep := filter (fun t => outcome_of t.2.1 log = None) (waiting M) in
  mkMachine (world M) (microtasks M ++ woken) asleep (completed M) (next_task M).

Definition step (a : Action) (M : Machine) : Machine :=
  match a with
  | Call body =>
      resume (next_task M) body
        (mkMachine (world M) (microtasks M) (waiting M) (completed M) (S (next_task M)))
  | Env e => set_world (deliver e (world M)) M
  end.

(** Run the queued continuations; [fuel] bounds their number. *)
Fixpoint drain (fuel : nat) (M : Machine) : Machine :=
  let M := wake M in
  match fuel, microtasks M with
  | S fuel, (id, body) :: rest =>
      drain fuel
        (resume id body (mkMachine (world M) rest (waiting M) (completed M) (next_task M)))
  | _, _ => M
  end.

(** One turn of the loop: what the host does in a row, then the
    microtasks. *)
Definition turn (fuel : nat) (actions : list Action) (M : Machine) : Machine :=
  drain fuel (fold_left (fun M a => step a M) actions M).

Definition run (fuel : nat) (turns : list (list Action)) (M : Machine) : Machine :=
  fold_left (fun M actions => turn fuel actions M) turns M.

(** The probes of [_resolveTransport] among the messages posted. *)
Definition is_probe (message : JsVal * string) : bool :=
  match message.1.["type"], message.1.["data"].["method"] with
  | JStr type, JStr method => String.eqb type "bbx-api-call" && String.eqb method "getTabCount"
  | _, _ => false
  end.

End Loop.

(** ** The ledger in every reachable state *)

Module Ledger.
Import Element Requests Loop.

(** The attributes [parent-origin] and [request-timeout-ms] change. *)
Definition set_attributes (parent_origin : option string) (request_timeout_ms : option Z)
    (w : World) : World :=
  mkWorld (_requestSeq w) (_pending w) (_apiMethods w) (_isReady w) (_readyPromise w)
    (_initPingTimer w) (_transportMode w) (_legacyTabsCache w) (_iframeRetryCount w)
    (_iframeRetryMax w) (_iframeRetryPingThreshold w) (_initPingCount w) (_reconnectStopped w)
    (iframe_src w) (iframe_loading w) (iframe_contentWindow w) parent_origin
    request_timeout_ms (now w) (timers w) (next_timer w) (posted w) (dispatched w)
    (settled w).

(** Everything that acts on the element: the events of the loop, the
    changes of its other attributes, [updateIframe], and the synchronous steps
    that the async methods take between two suspension points. *)
Inductive Op : Type :=
| Deliver (e : Event)
| Send (type : string) (data : JsVal) (options : RequestOptions)
| ArmReadyTimeout (timeoutMs : Z)
| ForceReady
| SetTransportMode (mode : TransportMode)
| SetLegacyTabsCache (tabs : list JsVal)
| SetApiMethods (methods : list JsVal)
| PostRaw (message : JsVal)
| DispatchEvent (type : string) (detail : JsVal)
| SetAttributes (parent_origin : option string) (request_timeout_ms : option Z)
| UpdateIframe (loginLink : option string).

Definition apply (op : Op) (w : World) : World :=
  match op with
  | Deliver e => deliver e w
  | Send type data options =>
      if iframe_contentWindow w then (send type data options w).2 else w
  | ArmReadyTimeout timeoutMs => (setTimer timeoutMs false (ReadyTimeout timeoutMs) w).2
  | ForceReady => _setReady w
  | SetTransportMode mode => set_transportMode mode w
  | SetLegacyTabsCache tabs => set_legacyTabsCache tabs w
  | SetApiMethods methods => set_apiMethods methods w
  | PostRaw message => _postRaw message w
  | DispatchEvent type detail => dispatchEvent type detail w
  | SetAttributes parent_origin request_timeout_ms =>
      set_attributes parent_origin request_timeout_ms w
  | UpdateIframe loginLink => _updateIframeSrcFromAttribute loginLink w
  end.

(** The id of the request that [op] sends, if it sends one. *)
Definition issues (op : Op) (w : World) : option string :=
  match op with
  | Send type data options =>
      if iframe_contentWindow w then Some (send type data options w).1 else None
  | _ => None
  end.

(** The state after [ops], with the ids of the requests sent, oldest
    first. *)
Definition run (ops : list Op) (w : World) : World * list string :=
  fold_left
    (fun state op =>
       (apply op state.1, state.2 ++ option_list (issues op state.1)))
    ops (w, []).

(** [s] is a call of [resolve] or [reject] of the request [requestId]. *)
Definition settles_request (requestId : string) (s : Settle) : bool :=
  match s with
  | Resolve id _ | Reject id _ => String.eqb id requestId
  | _ => false
  end.

Definition settlements (requestId : string) (log : list Settle) : list Settle :=
  filter (fun s => settles_request requestId s = true) log.

Definition is_request_timeout (requestId : string) (t : Timer) : bool :=
  match timer_task t with
  | RequestTimeout id _ _ => String.eqb id requestId
  | _ => false
  end.

(** The request is in flight: in the ledger, its timeout armed, not
    settled. *)
Definition in_flight (requestId : string) (w : World) : Prop :=
  (∃ t, (requestId, t) ∈ _pending w ∧
        ∃ tm, tm ∈ timers w ∧ timer_id tm = t ∧ is_request_timeout requestId tm = true) ∧
  settlements requestId (settled w) = [].

(** The request is over: out of the ledger, settled by exactly one call. *)
Definition settled_once (requestId : string) (w : World) : Prop :=
  (requestId ∉ (_pending w).*1) ∧ length (settlements requestId (settled w)) = 1.

(** The request is lost: out of the ledger and its timeout disarmed, with
    no call of [resolve] or [reject]. *)
Definition abandoned (requestId : string) (w : World) : Prop :=
  (requestId ∉ (_pending w).*1) ∧ settlements requestId (settled w) = [].

(** A step passes a request by: out of the ledger before, it is out of the
    ledger after, and the step calls neither its [resolve] nor its
    [reject]. *)
Definition bypasses (requestId : string) (w w' : World) : Prop :=
  requestId ∉ (_pending w).*1 →
  (requestId ∉ (_pending w').*1) ∧
  settlements requestId (settled w') = settlements requestId (settled w).

(** The calls of [reject] that [_rejectPending] makes. *)
Definition rejections (error : JsError) (pending : list (string * nat)) : list Settle :=
  (fun p => Reject p.1 error) <$> pending.

(** What the ledger, the timers and the settlements keep true of each
    other. *)
Record Inv (issued : list string) (w : World) : Prop := mkInv {
  issued_nodup : NoDup issued;
  issued_seq : ∀ id, id ∈ issued →
    ∃ clock seq, id = request_id clock seq ∧ seq ≤ _requestSeq w;
  pending_nodup : NoDup (_pending w).*1;
  armed_pending : ∀ tm id type ms,
    tm ∈ timers w → timer_task tm = RequestTimeout id type ms →
    (id, timer_id tm) ∈ _pending w ∧ timer_repeats tm = false;
  timers_nodup : NoDup (timer_id <$> timers w);
  timers_fresh : ∀ tm, tm ∈ timers w → timer_id tm < next_timer w;
  ping_timer : ∀ t, _initPingTimer w = Some t →
    t < next_timer w ∧ ∀ tm, tm ∈ timers w → timer_id tm = t → timer_task tm = InitPing;
  settled_issued : ∀ id, settlements id (settled w) ≠ [] → id ∈ issued;
  pending_issued : ∀ id, id ∈ (_pending w).*1 → id ∈ issued;
  once : ∀ id, id ∈ issued → in_flight id w ∨ settled_once id w ∨ abandoned id w;
  rejected_fired : ∀ t error, RejectReady t error ∈ settled w → t < next_timer w;
  armed_delay : ∀ tm id type ms,
    tm ∈ timers w → timer_task tm = RequestTimeout id type ms →
    timer_delay tm = Js.timer_delay ms ∧ (100 ≤ ms)%Z
}.

(** What the invariant reads of the element. *)
Definition view (w : World) :=
  (_requestSeq w, _pending w, _initPingTimer w, timers w, next_timer w, settled w).

(** A peer's message that names the request [requestId]. *)
Definition response (requestId : string) (fields : list (string * JsVal)) : JsVal :=
  JObj (("type", JStr "response") :: ("requestId", JStr requestId) :: fields).

End Ledger.

(** ** Decimal numerals *)

Definition is_digit (c : ascii) : bool :=
  let n := nat_of_ascii c in (48 <=? n)%nat && (n <=? 57)%nat.

(** What [pretty] prints for a natural number. *)
Definition digits (s : string) : Prop :=
  Forall (fun c => is_digit c = true) (list_ascii_of_string s).

(** ** Statements that the element does not meet *)

(** The reading of C7 that lets the notification's index win. *)
Definition update_takes_supplied_index : Prop :=
  ∀ (cache : list JsVal) (detail existing : JsVal) (tabId : string) (i : nat),
    TabCache._normalizeTabId detail = Some tabId →
    TabCache.findIndex tabId cache = Some (i, existing) →
    ∃ merged,
      TabCache._updateLegacyTabCache detail cache !! i = Some merged ∧
      merged.["index"] =
        if Js.has detail "index" then detail.["index"] else existing.["index"].

(** The reading of C8 that stamps every returned entry with its position. *)
Definition getTabs_stamps_positions : Prop :=
  ∀ (w w' : World) (events : list Loop.Event) (returned : list JsVal),
    Loop.exec (Legacy.getTabs [] None) [events] w = (w', [], Some (Returned (JArr returned))) →
    ∀ (i : nat) (entry : JsVal),
      returned !! i = Some entry → entry.["index"] = JNum (Z.of_nat i).

(** ** Scenarios *)

Module Scenario.
Import Element Loop.

(** An element connected to a document, whose frame has loaded and whose
    peer has sent the legacy readiness signal: ready, transport unknown. *)
Definition ready_world : World :=
  _handleMessage true "https://bbx.example" (JObj [("type", JStr "tab-api-ready")])
    (load (connectedCallback (Some "https://bbx.example/login") (constructor None None 1700))).

(** The peer's answer to the request [requestId]. *)
Definition reply (requestId : string) (data : JsVal) : Event :=
  Message true "https://bbx.example"
    (JObj [("type", JStr "reply"); ("requestId", JStr requestId); ("data", data)]).

(** Five tabs as the peer lists them; the fourth has only a [targetId]. *)
Definition five_tabs : JsVal :=
  JArr [JObj [("id", JStr "a")]; JObj [("id", JStr "b")]; JObj [("id", JStr "c")];
        JObj [("targetId", JStr "d")]; JObj [("id", JStr "e")]].

(** Two calls made in a row by the host page while the transport is
    unknown, and the microtasks that follow. *)
Definition two_first_calls (first second : Async JsVal) : Machine :=
  turn 16 [Call first; Call second] (boot ready_world).

(** The probe that the request numbered [seq] carries. *)
Definition probe (seq : nat) : JsVal * string :=
  (JObj [("type", JStr "bbx-api-call");
         ("requestId", JStr (Requests.request_id 1700 seq));
         ("data", JObj [("method", JStr "getTabCount"); ("args", JArr [])])],
   "*").

(** The peer never answers: all that happens is that the frame loads, the
    prober's timers fire and each reload it asks for completes.  The timers
    fired are listed, oldest first. *)
Definition is_reload (t : Timer) : bool :=
  match timer_task t with RetryLoad _ => true | _ => false end.

Definition liveness_timer (w : World) : option Timer :=
  match _initPingTimer w with
  | Some t => find_timer t w
  | None => List.find is_reload (timers w)
  end.

Fixpoint unresponsive (fuel : nat) (w : World) (fired : list Timer) : World * list Timer :=
  match fuel with
  | 0 => (w, fired)
  | S fuel =>
      if iframe_loading w then unresponsive fuel (load w) fired
      else
        match liveness_timer w with
        | Some t => unresponsive fuel (fire (timer_id t) w) (fired ++ [t])
        | None => (w, fired)
        end
  end.

(** The delays of the reloads among the timers fired. *)
Definition reload_delays (fired : list Timer) : list Z :=
  omap (fun t => match timer_task t with RetryLoad _ => Some (timer_delay t) | _ => None end)
    fired.

Definition retry_event (attempt delay : Z) : string * JsVal :=
  ("iframe-retry",
   JObj [("attempt", JNum attempt); ("maxAttempts", JNum 5); ("delayMs", JNum delay)]).

Section Dispatch.
Import Requests Legacy.
Variables getActiveTabIndex waitForTabCount waitForTabUrl : Handler.
Variable inherited : string → list JsVal → option JsError → Result JsVal.

(** What is left of a call with a valid method name once the element is
    ready: the transport is resolved if need be, then the call goes out under
    the name [method]. *)
Definition dispatch (method : string) (args : list JsVal) (env : list (list Event))
    (w : World) : World * list (list Event) * option (Result JsVal) :=
  let resolved :=
    if mode_is Unknown (_transportMode w) then exec _resolveTransport env w
    else (w, env, Some (Returned JUndefined)) in
  match resolved with
  | (w, env, Some (Returned _)) =>
      if mode_is Legacy (_transportMode w)
      then exec
             (_legacyCall getActiveTabIndex waitForTabCount waitForTabUrl inherited method args
                None)
             env w
      else
        exec (_request "bbx-api-call"
                (JObj [("method", JStr method); ("args", JArr args)])
                (timeout_option (requestTimeoutMs w))) env w
  | (w, env, Some (Threw e)) => (w, env, Some (Threw e))
  | (w, env, None) => (w, env, None)
  end.

End Dispatch.

End Scenario.

(** ** The tab cache seen through the tabs it identifies *)

Module CacheView.
Import TabCache.

(** The tab that each entry of the cache identifies. *)
Definition tab_ids (cache : list JsVal) : list (option string) :=
  _normalizeTabId <$> cache.

(** An entry as the cache builds them: an object that holds each key once. *)
Definition entry_object (tab : JsVal) : Prop := ∃ ps, tab = JObj ps ∧ NoDup ps.*1.

(** A cache as the three notifications build it: objects whose [index] is
    their position. *)
Definition canonical (cache : list JsVal) : Prop :=
  indexed cache ∧ Forall entry_object cache.

(** A notification as the peer sends them for a tab: an object whose [id]
    is a non-empty string. *)
Definition identified_by_id (detail : JsVal) : Prop :=
  Js.unique_keys detail ∧ is_Some (nonempty_string detail.["id"]).

Definition names_its_tab (op : Op) : Prop :=
  match op with
  | Insert detail | Update detail => identified_by_id detail
  | Remove _ => True
  end.

End CacheView.

(** ** Readiness *)

Module Readiness.
Import Element.

(** [s] is a call of the [resolve] of the ready promise [promise]. *)
Definition resolves_ready (promise : nat) (s : Settle) : bool :=
  match s with
  | ResolveReady promise' => Nat.eqb promise' promise
  | _ => false
  end.

Definition ready_resolutions (promise : nat) (log : list Settle) : list Settle :=
  filter (fun s => resolves_ready promise s = true) log.

(** What readiness and the ready promises keep true of each other. *)
Record Inv (w : World) : Prop := mkInv {
  ready_now :
    _isReady w = true → length (ready_resolutions (_readyPromise w) (settled w)) = 1;
  unready_now :
    _isReady w = false → ready_resolutions (_readyPromise w) (settled w) = [];
  ready_past :
    ∀ promise, promise < _readyPromise w →
      length (ready_resolutions promise (settled w)) ≤ 1;
  ready_future :
    ∀ promise, _readyPromise w < promise → ready_resolutions promise (settled w) = []
}.

(** What the invariant reads of the element. *)
Definition is_ready_resolution (s : Settle) : bool :=
  match s with ResolveReady _ => true | _ => false end.

Definition view (w : World) : bool * nat * list Settle :=
  (_isReady w, _readyPromise w, filter (fun s => is_ready_resolution s = true) (settled w)).

End Readiness.

(** ** The liveness prober *)

Module Prober.
Import Element.

Definition is_init_ping (tm : Timer) : bool :=
  match timer_task tm with InitPing => true | _ => false end.

(** The intervals of [_startInitPing] that are armed. *)
Definition pings (w : World) : list Timer :=
  filter (fun tm => is_init_ping tm = true) (timers w).

(** What the prober keeps true: the interval recorded in [_initPingTimer]
    is the only one armed, and none is armed once the element is ready or
    reconnecting has been stopped. *)
Record Inv (w : World) : Prop := mkInv {
  ping_armed :
    pings w =
      match _initPingTimer w with
      | Some t => [mkTimer t 1000 true InitPing]
      | None => []
      end;
  ping_idle : _isReady w = true ∨ _reconnectStopped w = true → _initPingTimer w = None
}.

(** What the invariant reads of the element. *)
Definition view (w : World) : bool * bool * option nat * list Timer :=
  (_isReady w, _reconnectStopped w, _initPingTimer w, pings w).

End Prober.

(** ** Method discovery and the health check *)

Module Surface.
Import Element Requests.

Definition _legacyMethodList : list string :=
  ["getTabs"; "getActiveTabIndex"; "getTabCount"; "createTab"; "createTabs"; "closeTab";
   "closeAllTabs"; "switchToTab"; "navigateTo"; "navigateTab"; "submitOmnibox"; "reload";
   "goBack"; "goForward"; "stop"; "evaluate"; "waitForTabCount"; "waitForTabUrl"].

(** [this._apiMethods.slice()] *)
Definition api_methods : Async JsVal := Get (fun w => Ret (JArr (_apiMethods w))).

Definition adopt_legacy_methods : Async unit :=
  modify (set_apiMethods (JStr <$> _legacyMethodList)).

(** [options] is spread into the options of the request; its [timeoutMs]
    is kept when it is a finite number. *)
Definition listApiMethods (options : RequestOptions) : Async JsVal :=
  Get (fun w =>
    if (0 <? length (_apiMethods w))%nat then api_methods
    else
      await _ensureReadyForApi;;
      Get (fun w =>
        if mode_is Legacy (_transportMode w) then adopt_legacy_methods;; api_methods
        else
          let timeout :=
            match timeoutMs options with
            | Some ms => ms
            | None => Z.min (requestTimeoutMs w) 5000
            end in
          try_catch
            (methods ← _request "bbx-api-list" (JObj [])
                         (mkOptions (Some timeout) (messageExtras options));
             modify (set_apiMethods match methods with JArr items => items | _ => [] end);;
             modify (set_transportMode Modern))
            (fun _ => modify (set_transportMode Legacy);; adopt_legacy_methods);;
          api_methods)).

Definition health_unavailable : JsError :=
  Error "browserbox-webview health check failed: iframe is not ready.".

Definition health_failed (effectiveTimeoutMs : Z) (modernError legacyError : JsError)
  : JsError :=
  Error ("browserbox-webview health check failed after " +:+ Js.number_text effectiveTimeoutMs +:+
         "ms (modern error: " +:+ error_message modernError +:+
         "; legacy error: " +:+ error_message legacyError +:+ ")").

(** [timeoutMs] is the option of that name when it is a finite number. *)
Definition health (timeoutMs : option Z) : Async JsVal :=
  Get (fun w =>
    if negb (iframe_contentWindow w) then Throw health_unavailable
    else
      let effectiveTimeoutMs :=
        match timeoutMs with
        | Some ms => Z.max 100 ms
        | None => Z.min (requestTimeoutMs w) 8000
        end in
      let tryModern :=
        _request "bbx-api-call" probe_data (timeout_option effectiveTimeoutMs) in
      let tryLegacy := _request "getTabCount" (JObj []) (timeout_option effectiveTimeoutMs) in
      if mode_is Modern (_transportMode w) then _ ← tryModern; Ret (JBool true)
      else if mode_is Legacy (_transportMode w) then _ ← tryLegacy; Ret (JBool true)
      else
        try_catch
          (_ ← tryModern; modify (set_transportMode Modern);; Ret (JBool true))
          (fun modernError =>
             try_catch
               (_ ← tryLegacy; modify (set_transportMode Legacy);; Ret (JBool true))
               (fun legacyError =>
                  Throw (health_failed effectiveTimeoutMs modernError legacyError)))).

End Surface.

(** ** How a call can end *)

(** Whatever the element's state is at each read and however each awaited
    promise settles, the body can only return a value in [R] or throw an
    error in [E]. *)
Inductive Ends {A} (R : A → Prop) (E : JsError → Prop) : Async A → Prop :=
| Ends_Ret a : R a → Ends R E (Ret a)
| Ends_Throw e : E e → Ends R E (Throw e)
| Ends_Get k : (∀ w, Ends R E (k w)) → Ends R E (Get k)
| Ends_Put w k : Ends R E k → Ends R E (Put w k)
| Ends_Await p k : (∀ o, Ends R E (k o)) → Ends R E (Await p k)
| Ends_Tick k : Ends R E k → Ends R E (Tick k).

(** The error of a handler that finds no tab to act on. *)
Definition no_tab_error (message : string) (originalError : option JsError) : JsError :=
  Error (message +:+
         match originalError with
         | Some (Error m) => if String.eqb m "" then "" else " (" +:+ m +:+ ")"
         | None => ""
         end).

(** The expressions that the legacy [evaluate] can run. *)
Definition legacy_evaluable (expression : string) : bool :=
  Legacy.includes "history.back" expression ||
  Legacy.includes "history.forward" expression ||
  Legacy.includes "window.stop" expression.

(** What the posts of a call add to the messages posted. *)
Definition is_navigation (message : JsVal * string) : bool :=
  match message.1.["type"] with
  | JStr type =>
      String.eqb type "goBack" || String.eqb type "goForward" || String.eqb type "stop"
  | _ => false
  end.

(** The handlers that act on one tab, each with the message of its
    failure. *)
Definition tab_handlers : list (Legacy.Handler * string) :=
  [(Legacy.closeTab, "Legacy closeTab failed: no target tab");
   (Legacy.switchToTab, "Legacy switchToTab failed: no target tab");
   (Legacy.navigateTo, "Legacy navigateTo failed: no active tab");
   (Legacy.navigateTab, "Legacy navigateTab failed: no target tab");
   (Legacy.submitOmnibox, "Legacy navigateTo failed: no active tab");
   (Legacy.reload, "Legacy reload failed: no active tab");
   (Legacy.goBack, "Legacy goBack failed: no active tab");
   (Legacy.goForward, "Legacy goForward failed: no active tab");
   (Legacy.stop, "Legacy stop failed: no active tab")].

(** A count: a number that is not negative. *)
Definition is_count (v : JsVal) : Prop := ∃ n : Z, v = JNum n ∧ (0 ≤ n)%Z.

(** ** Calls that run concurrently *)

Module Concurrency.
Import Element Requests Loop.

(** The body keeps [P]: when the state it reads satisfies [P], so does
    every state that it writes. *)
Fixpoint Keeps {A} (P : World → Prop) (m : Async A) : Prop :=
  match m with
  | Ret _ | Throw _ => True
  | Get k => ∀ w, P w → Keeps P (k w)
  | Put w k => P w ∧ Keeps P k
  | Await _ k => ∀ o, Keeps P (k o)
  | Tick k => Keeps P k
  end.

(** The invariants of the ledger, of readiness and of the prober, taken
    together. *)
Definition Sound (w : World) : Prop :=
  (∃ issued, Ledger.Inv issued w) ∧ Readiness.Inv w ∧ Prober.Inv w.

(** The machine holds a state in [P] and continuations that keep [P]. *)
Definition Holds (P : World → Prop) (M : Machine) : Prop :=
  P (world M) ∧
  Forall (fun task => Keeps P task.2) (microtasks M) ∧
  Forall (fun task => ∀ o, Keeps P (task.2.2 o)) (waiting M).

(** The asynchronous methods that the host page calls. *)
Inductive Invocation : Type :=
| CallApi (method : JsVal) (args : list JsVal)
| WhenReady (timeoutMs : option Z)
| ListApiMethods (options : RequestOptions)
| Health (timeoutMs : option Z).

Inductive HostAction : Type :=
| Invoke (invocation : Invocation)
| Happen (e : Event).

Section Dispatch.
Variables getActiveTabIndex waitForTabCount waitForTabUrl : Legacy.Handler.
Variable inherited : string → list JsVal → option JsError → Result JsVal.

Definition body (invocation : Invocation) : Async JsVal :=
  match invocation with
  | CallApi method args =>
      Legacy.callApi getActiveTabIndex waitForTabCount waitForTabUrl inherited method args
  | WhenReady timeoutMs =>
      (* [whenReady({ timeoutMs = this.requestTimeoutMs } = {})] *)
      Get (fun w => whenReady (default (requestTimeoutMs w) timeoutMs))
  | ListApiMethods options => Surface.listApiMethods options
  | Health timeoutMs => Surface.health timeoutMs
  end.

Definition action (a : HostAction) : Action :=
  match a with
  | Invoke invocation => Call (body invocation)
  | Happen e => Env e
  end.

(** The element after the turns of the loop that the host page drives. *)
Definition after (fuel : nat) (turns : list (list HostAction)) (w : World) : World :=
  world (run fuel (map (map action) turns) (boot w)).

End Dispatch.

End Concurrency.

(** * Properties *)

(** ** Objects *)

Lemma lookup_set_prop_eq k v ps : Js.lookup_prop k (Js.set_prop k v ps) = Some v.
Proof.
  induction ps as [|[k' v'] ps IH]; simpl.
  - by rewrite String.eqb_refl.
  - destruct (String.eqb k' k) eqn:E; simpl.
    + by rewrite String.eqb_refl.
    + by rewrite E.
Qed.

Lemma lookup_set_prop_ne k k' v ps :
  k ≠ k' → Js.lookup_prop k' (Js.set_prop k v ps) = Js.lookup_prop k' ps.
Proof.
  intros Hne. induction ps as [|[k0 v0] ps IH]; simpl.
  - destruct (String.eqb k k') eqn:E; [|done].
    apply String.eqb_eq in E. contradiction.
  - destruct (String.eqb k0 k) eqn:E; simpl.
    + apply String.eqb_eq in E. subst k0.
      destruct (String.eqb k k') eqn:E'; [|done].
      apply String.eqb_eq in E'. contradiction.
    + by rewrite IH.
Qed.

Lemma get_set_prop_eq k v ps : (JObj (Js.set_prop k v ps)).[k] = v.
Proof. simpl. by rewrite lookup_set_prop_eq. Qed.

Lemma get_set_prop_ne k k' v ps :
  k ≠ k' → (JObj (Js.set_prop k v ps)).[k'] = (JObj ps).[k'].
Proof. intros. simpl. by rewrite lookup_set_prop_ne. Qed.

Lemma lookup_prop_None k ps : Js.lookup_prop k ps = None ↔ k ∉ ps.*1.
Proof.
  induction ps as [|[k' v'] ps IH]; simpl.
  - split; [intros _; apply not_elem_of_nil | done].
  - destruct (String.eqb k' k) eqn:E.
    + apply String.eqb_eq in E. subst. split; [done|].
      intros []. apply elem_of_cons. by left.
    + apply String.eqb_neq in E. rewrite IH, not_elem_of_cons. split; [by split|by intros []].
Qed.

(** [Object.assign]: a key of the source takes the source's value, any
    other key keeps the target's. *)
Lemma lookup_assign k target source :
  NoDup source.*1 →
  Js.lookup_prop k (Js.assign target source) =
    match Js.lookup_prop k source with
    | Some v => Some v
    | None => Js.lookup_prop k target
    end.
Proof.
  unfold Js.assign. revert target.
  induction source as [|[k' v'] source IH]; intros target Hnd; simpl; [done|].
  rewrite fmap_cons in Hnd. apply NoDup_cons in Hnd as [Hk' Hnd]. simpl in Hk'.
  rewrite IH by done. simpl.
  destruct (String.eqb k' k) eqn:E.
  - apply String.eqb_eq in E. subst k'.
    apply lookup_prop_None in Hk'. rewrite Hk'. apply lookup_set_prop_eq.
  - apply String.eqb_neq in E.
    destruct (Js.lookup_prop k source); [done|]. by apply lookup_set_prop_ne.
Qed.

(** ** Numerals *)

Lemma pretty_N_go_digits (x : N) (s : string) : digits s → digits (pretty_N_go x s).
Proof.
  revert s. induction (N.lt_wf_0 x) as [x _ IH]; intros s Hs.
  destruct (decide (x = 0%N)) as [->|Hx]; [by rewrite pretty_N_go_0|].
  rewrite pretty_N_go_step by lia. apply IH.
  - apply N.div_lt; lia.
  - constructor; [|done]. unfold pretty_N_char. by repeat case_match.
Qed.

Lemma pretty_nat_digits (n : nat) : digits (pretty n).
Proof.
  unfold pretty, pretty_nat, pretty, pretty_N. case_decide.
  - by repeat constructor.
  - apply pretty_N_go_digits. constructor.
Qed.

Lemma pretty_nat_not_index (n : nat) : pretty n ≠ "index".
Proof.
  intros Heq. pose proof (pretty_nat_digits n) as Hd. rewrite Heq in Hd.
  by inversion Hd.
Qed.

(** ** Tab cache *)

Section TabCacheFacts.
Import TabCache.

Lemma stamp_index i tab : (stamp i tab).["index"] = JNum (Z.of_nat i).
Proof. apply get_set_prop_eq. Qed.

Lemma reindex_indexed cache : indexed (reindex cache).
Proof.
  intros i tab. unfold reindex. rewrite list_lookup_imap.
  destruct (cache !! i); simpl; [|done].
  intros [= <-]. apply stamp_index.
Qed.

Lemma findIndex_Some tabId cache i tab :
  findIndex tabId cache = Some (i, tab) →
  cache !! i = Some tab ∧ _normalizeTabId tab = Some tabId.
Proof. unfold findIndex. rewrite list_find_Some. by intros (? & ? & _). Qed.


Lemma normalizeTabId_object detail tabId :
  _normalizeTabId detail = Some tabId → ∃ ps, detail = JObj ps.
Proof.
  destruct detail as [| | | | | |items|ps]; try (by compute); [..|by eauto];
    unfold _normalizeTabId; simpl; by repeat case_match.
Qed.

Lemma update_indexed detail cache :
  indexed cache → indexed (_updateLegacyTabCache detail cache).
Proof.
  intros Hix. unfold _updateLegacyTabCache.
  destruct (_normalizeTabId detail) as [tabId|]; [|done].
  destruct (findIndex tabId cache) as [[index existing]|] eqn:Hfind; [|done].
  apply findIndex_Some in Hfind as [Hexisting _].
  intros i tab Hi.
  destruct (decide (i = index)) as [->|Hne].
  - rewrite list_lookup_insert_eq in Hi by (by eapply lookup_lt_Some).
    injection Hi as <-. rewrite get_set_prop_eq.
    by rewrite (Hix _ _ Hexisting).
  - rewrite list_lookup_insert_ne in Hi by done. by apply Hix.
Qed.

Lemma add_indexed detail cache :
  indexed cache → indexed (_addLegacyTabCache detail cache).
Proof.
  intros Hix. unfold _addLegacyTabCache.
  destruct (_normalizeTabId detail) as [tabId|] eqn:Hid; [|done].
  destruct (findIndex tabId cache) as [[index existing]|] eqn:Hfind.
  - by apply update_indexed.
  - apply reindex_indexed.
Qed.

Lemma remove_indexed detail cache :
  indexed cache → indexed (_removeLegacyTabCache detail cache).
Proof.
  intros Hix. unfold _removeLegacyTabCache.
  destruct (_normalizeTabId detail) as [tabId|]; [|done].
  apply reindex_indexed.
Qed.

Lemma apply_indexed cache op : indexed cache → indexed (apply cache op).
Proof.
  destruct op; simpl; auto using add_indexed, update_indexed, remove_indexed.
Qed.

Lemma fold_apply_indexed ops cache :
  indexed cache → indexed (fold_left apply ops cache).
Proof.
  revert cache. induction ops as [|op ops IH]; intros cache Hix; simpl; [done|].
  by apply IH, apply_indexed.
Qed.

End TabCacheFacts.

(** C6.  Starting from the empty cache, after any finite sequence of insert,
    update and remove notifications every cache entry's [index] field equals
    the entry's position in the cache. *)
Theorem tab_cache_reindexing_invariant (ops : list TabCache.Op) :
  ∀ (i : nat) (tab : JsVal),
    TabCache.run ops !! i = Some tab → tab.["index"] = JNum (Z.of_nat i).
Proof.
  apply fold_apply_indexed. intros i tab Hi. by rewrite lookup_nil in Hi.
Qed.

(** After two tabs were created, the first of them updated and then
    closed, the tab left is at position 0 with index 0. *)
Lemma tab_cache_reindexing_invariant_witness :
  TabCache.run
    [TabCache.Insert (JObj [("id", JStr "a"); ("url", JStr "u")]);
     TabCache.Insert (JObj [("id", JStr "b"); ("index", JNum 0)]);
     TabCache.Update (JObj [("id", JStr "a"); ("index", JNum 9); ("title", JStr "t")]);
     TabCache.Remove (JObj [("tabId", JStr "b")])] !! 0
  = Some (JObj [("id", JStr "a"); ("url", JStr "u"); ("index", JNum 0); ("title", JStr "t")]) ∧
  (JObj [("id", JStr "a"); ("url", JStr "u"); ("index", JNum 0); ("title", JStr "t")]).["index"]
  = JNum 0.
Proof.
  split; [vm_compute; reflexivity|].
  apply (tab_cache_reindexing_invariant
           [TabCache.Insert (JObj [("id", JStr "a"); ("url", JStr "u")]);
            TabCache.Insert (JObj [("id", JStr "b"); ("index", JNum 0)]);
            TabCache.Update (JObj [("id", JStr "a"); ("index", JNum 9); ("title", JStr "t")]);
            TabCache.Remove (JObj [("tabId", JStr "b")])] 0).
  vm_compute. reflexivity.
Defined.

(** C7, as stated, fails: an update that supplies [index: 5] to the entry
    cached at index 0 leaves that entry at index 0. *)
Lemma update_takes_supplied_index_fails : ¬ update_takes_supplied_index.
Proof.
  intros Hclaim.
  destruct (Hclaim
              [JObj [("id", JStr "a"); ("index", JNum 0)]]
              (JObj [("id", JStr "a"); ("index", JNum 5); ("title", JStr "t")])
              (JObj [("id", JStr "a"); ("index", JNum 0)])
              "a" 0 eq_refl eq_refl) as (merged & Hmerged & Hindex).
  vm_compute in Hmerged. injection Hmerged as <-.
  vm_compute in Hindex. discriminate.
Qed.

(** C7, amended.  An update notification that matches a cached entry by
    identifier replaces that entry by the merge of both: every field other
    than [index] is the notification's when it carries the field and the
    entry's otherwise; the [index] stays the entry's own whenever the entry
    has one (not null or undefined), even when the notification supplies
    another, is the notification's only when the entry has none, and is the
    entry's position when neither has one. *)
Theorem update_merges_and_keeps_index
    (cache : list JsVal) (detail existing : JsVal) (tabId : string) (i : nat) :
  Js.unique_keys detail →
  Js.unique_keys existing →
  TabCache._normalizeTabId detail = Some tabId →
  TabCache.findIndex tabId cache = Some (i, existing) →
  ∃ merged,
    TabCache._updateLegacyTabCache detail cache = <[i := merged]> cache ∧
    (∀ k, k ≠ "index" →
       merged.[k] = if Js.has detail k then detail.[k] else existing.[k]) ∧
    merged.["index"] =
      if negb (Js.nullish existing.["index"]) then existing.["index"]
      else if negb (Js.nullish detail.["index"]) then detail.["index"]
      else JNum (Z.of_nat i).
Proof.
  intros Hkeys Hkeys' Hid Hfind. unfold TabCache._updateLegacyTabCache.
  rewrite Hid, Hfind. eexists. split; [reflexivity|]. split.
  - intros k Hk. rewrite get_set_prop_ne by done.
    apply findIndex_Some in Hfind as [_ Hid'].
    apply normalizeTabId_object in Hid as [ps ->].
    apply normalizeTabId_object in Hid' as [ps' ->].
    simpl in *. rewrite !lookup_assign by done. simpl.
    destruct (Js.lookup_prop k ps) as [v|] eqn:E; simpl; [done|].
    by destruct (Js.lookup_prop k ps').
  - rewrite get_set_prop_eq. unfold Js.coalesce.
    destruct (Js.nullish existing.["index"]); simpl; [|done].
    by destruct (Js.nullish detail.["index"]).
Qed.

Lemma update_merges_and_keeps_index_witness :
  ∃ merged,
    TabCache._updateLegacyTabCache
      (JObj [("id", JStr "a"); ("index", JNum 5); ("title", JStr "t")])
      [JObj [("id", JStr "a"); ("index", JNum 0); ("url", JStr "u")]]
    = [merged] ∧
    merged.["title"] = JStr "t" ∧ merged.["url"] = JStr "u" ∧ merged.["index"] = JNum 0.
Proof.
  destruct (update_merges_and_keeps_index
              [JObj [("id", JStr "a"); ("index", JNum 0); ("url", JStr "u")]]
              (JObj [("id", JStr "a"); ("index", JNum 5); ("title", JStr "t")])
              (JObj [("id", JStr "a"); ("index", JNum 0); ("url", JStr "u")])
              "a" 0) as (merged & Hupd & Hfields & Hindex).
  - cbn. apply (bool_decide_unpack _). by vm_compute.
  - cbn. apply (bool_decide_unpack _). by vm_compute.
  - reflexivity.
  - reflexivity.
  - exists merged. split; [exact Hupd|]. split; [|split].
    + by rewrite (Hfields "title").
    + by rewrite (Hfields "url").
    + exact Hindex.
Defined.

(** ** Timers and text *)

(** A delay that fits 31 bits is taken as it is. *)
Lemma timer_delay_fits (timeout : Z) :
  (0 ≤ timeout ≤ 2147483647)%Z → Js.timer_delay timeout = timeout.
Proof.
  intros Hfits. unfold Js.timer_delay, Js.toInt32.
  change (2 ^ 31)%Z with 2147483648%Z. change (2 ^ 32)%Z with 4294967296%Z.
  rewrite Z.mod_small by lia. lia.
Qed.

Lemma timer_delay_nonneg (timeout : Z) : (0 ≤ Js.timer_delay timeout ≤ 2147483647)%Z.
Proof.
  unfold Js.timer_delay, Js.toInt32.
  change (2 ^ 31)%Z with 2147483648%Z. change (2 ^ 32)%Z with 4294967296%Z.
  pose proof (Z.mod_pos_bound (timeout + 2147483648) 4294967296). lia.
Qed.

Lemma append_empty_r (s : string) : s +:+ "" = s.
Proof. induction s as [|c s IH]; [done|]. unfold String.app. simpl. by f_equal. Qed.

(** *** Trimming *)

Section TrimFacts.

Lemma trimStart_spaces before rest :
  Forall (fun u => Js.is_space u = true) before →
  Js.trimStart (before ++ rest) = Js.trimStart rest.
Proof.
  induction 1 as [|u before Hu _ IH]; [done|]. simpl. by rewrite Hu.
Qed.

Lemma trimStart_all us : Forall (fun u => Js.is_space u = true) us → Js.trimStart us = [].
Proof. intros H. rewrite <- (app_nil_r us). by rewrite trimStart_spaces. Qed.

Lemma trimStart_head u us : Js.is_space u = false → Js.trimStart (u :: us) = u :: us.
Proof. intros Hu. simpl. by rewrite Hu. Qed.

Lemma trimEnd_spaces us after :
  Forall (fun u => Js.is_space u = true) after →
  Js.trimEnd (us ++ after) = Js.trimEnd us.
Proof.
  intros Hafter. induction us as [|u us IH]; simpl.
  - induction Hafter as [|v after Hv _ IH]; [done|]. simpl. by rewrite IH, Hv.
  - by rewrite IH.
Qed.

Lemma trimEnd_last us u :
  last us = Some u → Js.is_space u = false → Js.trimEnd us = us.
Proof.
  intros Hlast Hu. induction us as [|v us IH]; [done|].
  destruct us as [|v' us].
  - simpl in *. injection Hlast as ->. by rewrite Hu.
  - specialize (IH Hlast). cbn [Js.trimEnd]. cbn [Js.trimEnd] in IH. rewrite IH. done.
Qed.

(** The code units of a string are not empty. *)
Lemma units_nonempty s : Forall (fun u => u ≠ "") (Js.units s).
Proof.
  induction s as [|c s IH]; simpl; [constructor|].
  destruct (Js.units s) as [|u us] eqn:E.
  - by repeat constructor.
  - apply Forall_cons in IH as [Hu Hus]. case_match; by repeat constructor.
Qed.

Lemma concat_nonempty u us : u ≠ "" → String.concat "" (u :: us) ≠ "".
Proof.
  intros Hu. destruct u as [|c u]; [done|]. simpl. by destruct us.
Qed.

(** What [trim] leaves of a string: the code units between its leading and
    its trailing white space. *)
Lemma trim_units s before name after :
  Js.units s = before ++ name ++ after →
  Forall (fun u => Js.is_space u = true) before →
  Forall (fun u => Js.is_space u = true) after →
  (∃ u, head name = Some u ∧ Js.is_space u = false) →
  (∃ u, last name = Some u ∧ Js.is_space u = false) →
  Js.trim s = String.concat "" name ∧ Js.trim s ≠ "".
Proof.
  intros Hs Hbefore Hafter (u & Hhead & Hu) (v & Hlast & Hv).
  unfold Js.trim. rewrite Hs, trimStart_spaces by done.
  destruct name as [|u' name]; [done|]. injection Hhead as ->.
  rewrite <- app_comm_cons, trimStart_head by done.
  rewrite app_comm_cons, trimEnd_spaces, (trimEnd_last _ v) by done.
  split; [done|]. apply concat_nonempty.
  pose proof (units_nonempty s) as Hne. rewrite Hs in Hne.
  apply Forall_app in Hne as [_ Hne]. apply Forall_app in Hne as [Hne _].
  by apply Forall_cons in Hne as [Hne _].
Qed.

Lemma trim_spaces s :
  Forall (fun u => Js.is_space u = true) (Js.units s) → Js.trim s = "".
Proof. intros Hs. unfold Js.trim. by rewrite trimStart_all. Qed.

(** Which code units are white space. *)
Lemma is_space_codes u :
  Js.is_space u = true ↔
  Js.unit_code u ∈
    [9; 10; 11; 12; 13; 32; 160; 5760; 8192; 8193; 8194; 8195; 8196; 8197; 8198; 8199;
     8200; 8201; 8202; 8232; 8233; 8239; 8287; 12288; 65279]%Z.
Proof. unfold Js.is_space. apply bool_decide_eq_true. Qed.

End TrimFacts.

(** ** Running async bodies *)

Section ExecFacts.
Import Element Requests Loop.

Lemma exec_Get {A} (k : World → Async A) env w : exec (Get k) env w = exec (k w) env w.
Proof. done. Qed.

Lemma exec_bind {A B} (m : Async A) (f : A → Async B) env w :
  exec (m ≫= f) env w =
    match exec m env w with
    | (w', env', Some (Returned a)) => exec (f a) env' w'
    | (w', env', Some (Threw e)) => (w', env', Some (Threw e))
    | (w', env', None) => (w', env', None)
    end.
Proof.
  unfold mbind, Async_bind. revert env w.
  induction m as [a|e|k IH|w' k IH|p k IH|k IH]; intros env w; simpl; auto.
  destruct env as [|events env]; [done|].
  destruct (outcome_of p (settled (deliver_all events w))); auto.
Qed.

Lemma exec_try_catch {A} (m : Async A) (h : JsError → Async A) env w :
  exec (try_catch m h) env w =
    match exec m env w with
    | (w', env', Some (Threw e)) => exec (h e) env' w'
    | r => r
    end.
Proof.
  revert env w.
  induction m as [a|e|k IH|w' k IH|p k IH|k IH]; intros env w; simpl; auto.
  destruct env as [|events env]; [done|].
  destruct (outcome_of p (settled (deliver_all events w))); auto.
Qed.

Lemma exec_await {A} (m : Async A) env w : exec (await m) env w = exec m env w.
Proof.
  unfold await. rewrite exec_bind.
  by destruct (exec m env w) as [[? ?] [[]|]].
Qed.

Lemma exec_modify f env w : exec (modify f) env w = (f w, env, Some (Returned tt)).
Proof. done. Qed.

(** A request with the peer window there: the message goes out, and the
    call goes on with what the next events make of the request. *)
Lemma exec_request type data options events env w :
  iframe_contentWindow w = true →
  exec (_request type data options) (events :: env) w =
    let w' := deliver_all events (send type data options w).2 in
    match outcome_of (WRequest (send type data options w).1) (settled w') with
    | Some (Resolved v) => (w', env, Some (Returned v))
    | Some (Rejected e) => (w', env, Some (Threw e))
    | None => (w', env, None)
    end.
Proof.
  intros Hwin. unfold _request. simpl. rewrite Hwin. simpl.
  destruct (send type data options w) as [requestId w1] eqn:Hsend. simpl.
  by destruct (outcome_of _ _) as [[]|].
Qed.

(** Without a peer window the request is rejected on the spot and nothing
    changes. *)
Lemma exec_request_unavailable type data options env w :
  iframe_contentWindow w = false →
  exec (_request type data options) env w =
    (w, env, Some (Threw (Error "browserbox-webview iframe is not ready."))).
Proof. intros Hwin. unfold _request. simpl. by rewrite Hwin. Qed.

End ExecFacts.

(** ** Legacy [getTabs] *)

Section GetTabsFacts.
Import Element Requests Legacy Loop.

Lemma lookup_assign_index (i : nat) ps :
  NoDup ps.*1 →
  Js.lookup_prop "index" (Js.assign [("index", JNum (Z.of_nat i))] ps) =
    Some (default (JNum (Z.of_nat i)) (Js.lookup_prop "index" ps)).
Proof.
  intros Hnd. rewrite lookup_assign by done. simpl.
  by destruct (Js.lookup_prop "index" ps).
Qed.

(** The keys under which a spread copies the items of an array or the
    characters of a string. *)
Lemma numeric_keys {A} (f : A → JsVal) (l : list A) :
  NoDup (imap (fun i x => (pretty i, f x)) l).*1 ∧
  Js.lookup_prop "index" (imap (fun i x => (pretty i, f x)) l) = None.
Proof.
  rewrite fmap_imap. split.
  - apply NoDup_alt. intros j1 j2 k. rewrite !list_lookup_imap.
    destruct (l !! j1), (l !! j2); simpl; intros; simplify_eq.
    by apply (inj pretty).
  - apply lookup_prop_None. rewrite fmap_imap.
    intros Hin. apply elem_of_lookup_imap_1 in Hin as (j & c & Hj & _).
    simpl in Hj. symmetry in Hj. by apply pretty_nat_not_index in Hj.
Qed.

(** [{ index, ...tab }]: the position is a default that the tab's own
    [index] overrides. *)
Lemma with_default_index_index (i : nat) (tab : JsVal) :
  Js.unique_keys tab →
  (with_default_index i tab).["index"] =
    if Js.has tab "index" then tab.["index"] else JNum (Z.of_nat i).
Proof.
  intros Hkeys. unfold with_default_index.
  destruct tab as [| | | | |s|items|ps]; try done.
  - simpl.
    destruct (numeric_keys JStr (Js.units s))
      as [Hnd Hnone].
    by rewrite lookup_assign, Hnone.
  - simpl. destruct (numeric_keys (fun x => x) items) as [Hnd Hnone]. simpl in *.
    by rewrite lookup_assign, Hnone.
  - simpl in *. rewrite lookup_assign_index by done.
    by destruct (Js.lookup_prop "index" ps).
Qed.

Lemma with_default_index_other (i : nat) props key :
  NoDup props.*1 → key ≠ "index" →
  (with_default_index i (JObj props)).[key] = (JObj props).[key].
Proof.
  intros Hnd Hkey. unfold with_default_index. cbn [Js.spread Js.get].
  rewrite lookup_assign by done. cbn [Js.lookup_prop].
  destruct (Js.lookup_prop key props); [done|].
  destruct (String.eqb "index" key) eqn:E; [|done].
  apply String.eqb_eq in E. by destruct Hkey.
Qed.

(** What [getTabs] does once its query has been answered or has failed. *)
Lemma exec_getTabs events env w :
  iframe_contentWindow w = true →
  exec (getTabs [] None) (events :: env) w =
    let sent := send "getTabs" (JObj []) no_options w in
    let w2 := deliver_all events sent.2 in
    match outcome_of (WRequest sent.1) (settled w2) with
    | Some (Resolved (JArr tabs)) =>
        (set_legacyTabsCache (imap with_default_index tabs) w2, env,
         Some (Returned (JArr (imap with_default_index tabs))))
    | Some (Resolved _) => (w2, env, Some (Returned (JArr (_legacyTabsCache w2))))
    | Some (Rejected _) =>
        (set_legacyTabsCache (imap with_default_index (_legacyTabsCache w2)) w2, env,
         Some (Returned (JArr (imap with_default_index (_legacyTabsCache w2)))))
    | None => (w2, env, None)
    end.
Proof.
  intros Hwin. unfold getTabs. rewrite exec_bind, exec_try_catch, exec_request by done.
  simpl. destruct (outcome_of _ _) as [[v|e]|]; [|done..].
  by destruct v.
Qed.

Lemma exec_getTabs_unavailable env w :
  iframe_contentWindow w = false →
  exec (getTabs [] None) env w =
    (set_legacyTabsCache (imap with_default_index (_legacyTabsCache w)) w, env,
     Some (Returned (JArr (imap with_default_index (_legacyTabsCache w))))).
Proof.
  intros Hwin. unfold getTabs.
  by rewrite exec_bind, exec_try_catch, exec_request_unavailable.
Qed.

End GetTabsFacts.

(** C8, as stated, fails: an entry that the peer sends with [index: 7] comes
    back at position 0 with its index still 7. *)
Lemma getTabs_stamps_positions_fails : ¬ getTabs_stamps_positions.
Proof.
  intros Hclaim.
  set (events := [Scenario.reply "bbx-1700-1"
                    (JArr [JObj [("id", JStr "a"); ("index", JNum 7)]])]).
  set (entry := JObj [("index", JNum 7); ("id", JStr "a")]).
  assert (Loop.exec (Legacy.getTabs [] None) [events] Scenario.ready_world
          = ((Loop.exec (Legacy.getTabs [] None) [events] Scenario.ready_world).1.1, [],
             Some (Returned (JArr [entry])))) as Hexec
    by (vm_compute; reflexivity).
  pose proof (Hclaim _ _ _ _ Hexec 0 entry eq_refl) as Hindex.
  discriminate Hindex.
Qed.

(** C8, amended.  The legacy [getTabs] returns a list and leaves the Tab
    Cache equal to it.  With the peer window there, once the [getTabs] query
    has settled, the list is the peer's when the query resolved with an
    array, and the Tab Cache when the query was rejected (or resolved with
    something else); without a peer window the query fails on the spot and
    the list is the Tab Cache.  In a list taken from the peer or, after a
    failure, from the cache, the entry at position [i] is
    [{ index: i, ...entry }]: its index is [i] unless the entry it comes from
    carries an [index] field of its own, which it then keeps, and its other
    fields are those of that entry. *)
Theorem getTabs_returns_list_and_refreshes_cache
    (w : World) (events : list Loop.Event) (env : list (list Loop.Event)) :
  let sent := Requests.send "getTabs" (JObj []) Requests.no_options w in
  let w2 := Loop.deliver_all events sent.2 in
  let entry (i : nat) (tab : JsVal) :=
    JObj (Js.assign [("index", JNum (Z.of_nat i))] (Js.spread tab)) in
  (iframe_contentWindow w = true →
   ∀ o : Outcome,
     outcome_of (WRequest sent.1) (settled w2) = Some o →
     ∃ (returned : list JsVal) (w3 : World),
       Loop.exec (Legacy.getTabs [] None) (events :: env) w
         = (w3, env, Some (Returned (JArr returned))) ∧
       _legacyTabsCache w3 = returned ∧
       match o with
       | Resolved (JArr tabs) => returned = imap entry tabs
       | Resolved _ => returned = _legacyTabsCache w2
       | Rejected _ => returned = imap entry (_legacyTabsCache w2)
       end) ∧
  (iframe_contentWindow w = false →
   ∃ w3 : World,
     Loop.exec (Legacy.getTabs [] None) env w
       = (w3, env, Some (Returned (JArr (imap entry (_legacyTabsCache w))))) ∧
     _legacyTabsCache w3 = imap entry (_legacyTabsCache w) ∧
     posted w3 = posted w) ∧
  (∀ (i : nat) (tab : JsVal),
     Js.unique_keys tab →
     (entry i tab).["index"] =
       if Js.has tab "index" then tab.["index"] else JNum (Z.of_nat i)) ∧
  (∀ (i : nat) (props : list (string * JsVal)) (key : string),
     NoDup props.*1 → key ≠ "index" → (entry i (JObj props)).[key] = (JObj props).[key]).
Proof.
  intros sent w2 entry. split; [|split; [|split]].
  - intros Hwin o Ho. rewrite exec_getTabs by done. cbv zeta.
    subst sent w2. rewrite Ho.
    destruct o as [v|e]; [destruct v|]; do 2 eexists;
      (split; [reflexivity|]); (split; done).
  - intros Hwin. rewrite exec_getTabs_unavailable by done.
    eexists. split; [reflexivity|]. done.
  - apply with_default_index_index.
  - apply with_default_index_other.
Qed.

(** An entry that the peer sends with [index: 7] keeps it; one that the
    cache holds comes back when there is no peer window. *)
Lemma getTabs_returns_list_and_refreshes_cache_witness :
  (∃ w3,
     Loop.exec (Legacy.getTabs [] None)
       [[Scenario.reply "bbx-1700-1" (JArr [JObj [("id", JStr "a"); ("index", JNum 7)];
                                             JObj [("id", JStr "b")]])]]
       Scenario.ready_world
     = (w3, [], Some (Returned (JArr [JObj [("index", JNum 7); ("id", JStr "a")];
                                      JObj [("index", JNum 1); ("id", JStr "b")]]))) ∧
     _legacyTabsCache w3 = [JObj [("index", JNum 7); ("id", JStr "a")];
                            JObj [("index", JNum 1); ("id", JStr "b")]]) ∧
  (let w :=
     set_legacyTabsCache [JObj [("id", JStr "a")]]
       (Element.disconnectedCallback Scenario.ready_world) in
   ∃ w3,
     Loop.exec (Legacy.getTabs [] None) [] w
     = (w3, [], Some (Returned (JArr [JObj [("index", JNum 0); ("id", JStr "a")]]))) ∧
     _legacyTabsCache w3 = [JObj [("index", JNum 0); ("id", JStr "a")]]).
Proof.
  split.
  - destruct (getTabs_returns_list_and_refreshes_cache Scenario.ready_world
                [Scenario.reply "bbx-1700-1"
                   (JArr [JObj [("id", JStr "a"); ("index", JNum 7)];
                          JObj [("id", JStr "b")]])]
                []) as [Hanswered _].
    destruct (Hanswered eq_refl
                (Resolved (JArr [JObj [("id", JStr "a"); ("index", JNum 7)];
                                 JObj [("id", JStr "b")]])))
      as (returned & w3 & Hexec & Hcache & Hreturned).
    + vm_compute. reflexivity.
    + exists w3. rewrite Hcache in *. rewrite Hreturned in *.
      split; [exact Hexec|reflexivity].
  - intros w.
    destruct (getTabs_returns_list_and_refreshes_cache w [] []) as (_ & Habsent & _).
    destruct (Habsent eq_refl) as (w3 & Hexec & Hcache & _).
    exists w3. split; [exact Hexec|exact Hcache].
Defined.

(** ** Legacy [closeAllTabs] *)

Section CloseAllFacts.
Import Element Requests Legacy Loop.

Lemma set_posted_same w : set_posted (posted w) w = w.
Proof. by destruct w. Qed.

Lemma postRaw_all messages w :
  iframe_contentWindow w = true →
  fold_left (fun w message => _postRaw message w) messages w =
    set_posted (posted w ++ ((fun message => (message, _allowedOrigin w)) <$> messages))%list w.
Proof.
  revert w. induction messages as [|message messages IH]; intros w Hwin; simpl.
  - by rewrite app_nil_r, set_posted_same.
  - unfold _postRaw at 2. rewrite Hwin. simpl. rewrite IH by done.
    simpl. by rewrite <- app_assoc.
Qed.

Lemma close_identified tabs indices w :
  Forall (fun tab => Js.truthy (tab_identifier tab) = true) tabs →
  Forall (fun i => i < length tabs) indices →
  fold_left (close_if_identified tabs) indices w =
    fold_left (fun w message => _postRaw message w)
      ((fun i =>
          JObj [("type", JStr "closeTab");
                ("tabId", tab_identifier (default JUndefined (tabs !! i)));
                ("data", JObj [])]) <$> indices) w.
Proof.
  intros Hids. revert w.
  induction indices as [|i indices IH]; intros w Hin; simpl; [done|].
  apply Forall_cons in Hin as [Hi Hin]. rewrite <- IH by done. f_equal.
  unfold close_if_identified.
  destruct (lookup_lt_is_Some_2 tabs i Hi) as [tab Htab]. rewrite Htab. simpl.
  rewrite Forall_forall in Hids.
  by rewrite (Hids tab) by (by eapply list_elem_of_lookup_2).
Qed.

End CloseAllFacts.

(** C4.  Let the legacy [closeAllTabs] be called with [keep = k >= 0] and
    let its tab query give [n] tabs.  If [n <= k] it posts nothing, changes
    nothing and returns [n].  Otherwise, when every tab carries an identifier
    ([id], or else [targetId]), it calls [_postRaw] exactly [n - k] times, for
    the tabs at indices [n - 1] down to [k] in that order, each time with the
    message [{ type: 'closeTab', tabId, data: {} }] of that tab, and returns
    [k]; with the peer window there these are the messages posted. *)
Theorem closeAllTabs_closes_beyond_keep
    (w w1 : World) (env env1 : list (list Loop.Event)) (args : list JsVal) (k : Z)
    (tabs : list JsVal) (originalError : option JsError) :
  (0 ≤ k)%Z →
  Js.truthy (Legacy.arg 0 args) = true →
  (Legacy.arg 0 args).["keep"] = JNum k →
  Loop.exec (Legacy.getTabs [] None) env w = (w1, env1, Some (Returned (JArr tabs))) →
  let n := length tabs in
  let close (i : nat) :=
    let tab := default JUndefined (tabs !! i) in
    JObj [("type", JStr "closeTab"); ("tabId", Js.or tab.["id"] tab.["targetId"]);
          ("data", JObj [])] in
  let closes := close <$> reverse (seq (Z.to_nat k) (n - Z.to_nat k)) in
  ((Z.of_nat n ≤ k)%Z →
   Loop.exec (Legacy.closeAllTabs args originalError) env w
     = (w1, env1, Some (Returned (JNum (Z.of_nat n))))) ∧
  ((k < Z.of_nat n)%Z →
   Forall (fun tab => Js.truthy (Js.or tab.["id"] tab.["targetId"]) = true) tabs →
   length closes = Z.to_nat (Z.of_nat n - k) ∧
   ∃ w2,
     Loop.exec (Legacy.closeAllTabs args originalError) env w
       = (w2, env1, Some (Returned (JNum k))) ∧
     w2 = fold_left (fun w message => Element._postRaw message w) closes w1 ∧
     (iframe_contentWindow w1 = true →
      posted w2 =
        (posted w1 ++
         ((fun message => (message, Element._allowedOrigin w1)) <$> closes))%list)).
Proof.
  intros Hk Hopts Hkeep Hget n close closes.
  unfold Legacy.closeAllTabs.
  replace (Js.or (Legacy.arg 0 args) (JObj [])) with (Legacy.arg 0 args)
    by (unfold Js.or; by rewrite Hopts).
  rewrite Hkeep.
  rewrite exec_bind, exec_await, Hget.
  replace (Z.max 0 k) with k by lia. fold n. split.
  - intros Hle. apply Z.leb_le in Hle. rewrite Hle. simpl.
    do 3 f_equal. by destruct n.
  - intros Hlt Hids. apply Z.leb_gt in Hlt as Hle. rewrite Hle.
    split.
    { subst closes. rewrite length_fmap, length_reverse, length_seq. lia. }
    eexists. rewrite exec_bind, exec_modify. simpl.
    replace (Z.max k 0) with k by lia. split; [reflexivity|].
    rewrite close_identified; [| done |].
    + split; [done|]. intros Hwin. by rewrite postRaw_all.
    + unfold Legacy.closing_indices. apply Forall_forall. intros i Hi.
      apply elem_of_reverse, elem_of_seq in Hi. lia.
Qed.

(** The scenario of C4: five tabs and [keep: 2] give three close messages,
    for the tabs at indices 4, 3 and 2, and the value 2; five tabs and
    [keep: 7] give no message and the value 5. *)
Lemma closeAllTabs_closes_beyond_keep_witness :
  (∃ w2,
     Loop.exec (Legacy.closeAllTabs [JObj [("keep", JNum 2)]] None)
       [[Scenario.reply "bbx-1700-1" Scenario.five_tabs]] Scenario.ready_world
     = (w2, [], Some (Returned (JNum 2))) ∧
     drop 2 (posted w2) =
       [(JObj [("type", JStr "closeTab"); ("tabId", JStr "e"); ("data", JObj [])], "*");
        (JObj [("type", JStr "closeTab"); ("tabId", JStr "d"); ("data", JObj [])], "*");
        (JObj [("type", JStr "closeTab"); ("tabId", JStr "c"); ("data", JObj [])], "*")]) ∧
  (∃ w1,
     Loop.exec (Legacy.closeAllTabs [JObj [("keep", JNum 7)]] None)
       [[Scenario.reply "bbx-1700-1" Scenario.five_tabs]] Scenario.ready_world
     = (w1, [], Some (Returned (JNum 5))) ∧
     length (posted w1) = 2).
Proof.
  set (tabs :=
         imap Legacy.with_default_index
           [JObj [("id", JStr "a")]; JObj [("id", JStr "b")]; JObj [("id", JStr "c")];
            JObj [("targetId", JStr "d")]; JObj [("id", JStr "e")]]).
  set (w1 :=
         (Loop.exec (Legacy.getTabs [] None)
            [[Scenario.reply "bbx-1700-1" Scenario.five_tabs]] Scenario.ready_world).1.1).
  assert (Loop.exec (Legacy.getTabs [] None)
            [[Scenario.reply "bbx-1700-1" Scenario.five_tabs]] Scenario.ready_world
          = (w1, [], Some (Returned (JArr tabs)))) as Hget by (vm_compute; reflexivity).
  split.
  - destruct (closeAllTabs_closes_beyond_keep Scenario.ready_world w1
                [[Scenario.reply "bbx-1700-1" Scenario.five_tabs]] []
                [JObj [("keep", JNum 2)]] 2 tabs None) as [_ Hmore];
      [lia|reflexivity|reflexivity|exact Hget|].
    destruct Hmore as (_ & w2 & Hexec & _ & Hposted).
    + vm_compute. reflexivity.
    + vm_compute. repeat constructor.
    + exists w2. split; [exact Hexec|]. rewrite Hposted by (vm_compute; reflexivity).
      vm_compute. reflexivity.
  - destruct (closeAllTabs_closes_beyond_keep Scenario.ready_world w1
                [[Scenario.reply "bbx-1700-1" Scenario.five_tabs]] []
                [JObj [("keep", JNum 7)]] 7 tabs None) as [Hfew _];
      [lia|reflexivity|reflexivity|exact Hget|].
    exists w1. split; [apply Hfew; vm_compute; discriminate|].
    vm_compute. reflexivity.
Defined.

(** ** The shared identifier resolver *)

Section ResolveFacts.
Import Element Requests Legacy Loop.

Lemma exec_resolveTabId_listed env w w1 env1 tabs indexArg :
  given_tab_id indexArg = None →
  exec (getTabs [] None) env w = (w1, env1, Some (Returned (JArr tabs))) →
  tabs ≠ [] →
  exec (resolveTabId indexArg) env w =
    let length := Z.of_nat (length tabs) in
    let requested := match indexArg with JNum i => i | _ => 0%Z end in
    let normalized := if (requested <? 0)%Z then (length + requested)%Z else requested in
    let tab := default JUndefined (tabs !! Z.to_nat (clamp_index length normalized)) in
    (w1, env1, Some (Returned (Js.or (tab_identifier tab) JNull))).
Proof.
  intros Hgiven Hget Hne. unfold resolveTabId.
  rewrite Hgiven, exec_bind, exec_await, Hget.
  by destruct tabs.
Qed.

Lemma exec_resolveTabId_active events env w w1 env1 indexArg :
  given_tab_id indexArg = None →
  exec (getTabs [] None) env w = (w1, events :: env1, Some (Returned (JArr []))) →
  iframe_contentWindow w1 = true →
  exec (resolveTabId indexArg) env w =
    let sent := send "getActiveTab" (JObj []) no_options w1 in
    let w2 := deliver_all events sent.2 in
    match outcome_of (WRequest sent.1) (settled w2) with
    | Some (Resolved activeTab) =>
        (w2, env1, Some (Returned (Js.or (tab_identifier activeTab) JNull)))
    | Some (Rejected _) => (w2, env1, Some (Returned JNull))
    | None => (w2, env1, None)
    end.
Proof.
  intros Hgiven Hget Hwin. unfold resolveTabId.
  rewrite Hgiven, exec_bind, exec_await, Hget.
  rewrite exec_bind, exec_try_catch, exec_request by done. simpl.
  by destruct (outcome_of _ _) as [[]|].
Qed.

Lemma exec_on_tab_fails env w w2 env2 indexArg failure messages originalError tabId :
  exec (resolveTabId indexArg) env w = (w2, env2, Some (Returned tabId)) →
  Js.truthy tabId = false →
  exec (on_tab indexArg failure messages originalError) env w =
    (w2, env2,
     Some (Threw (Error (failure +:+
                         match originalError with
                         | Some (Error m) => if String.eqb m "" then "" else " (" +:+ m +:+ ")"
                         | None => ""
                         end)))).
Proof.
  intros Hresolve Hfalsy. unfold on_tab.
  by rewrite exec_bind, exec_await, Hresolve, Hfalsy.
Qed.

End ResolveFacts.

(** C9.  (1) For an integer index argument [i] and a non-empty tab list of
    length [n] obtained by the resolver, the resolver returns the identifier
    ([id], else [targetId], else null) of the tab at position
    [clamp(n + i, 0, n - 1)] when [i < 0] and [clamp(i, 0, n - 1)] otherwise.
    (2) When no tab id string is given and the tab list comes back empty, the
    resolver sends a [getActiveTab] query and returns the identifier of the
    tab the peer answers with, null when the query fails.  (3) When the
    resolver has no identifier to give, [closeTab] posts nothing and rejects
    with "Legacy closeTab failed: no target tab", followed by the message of
    [originalError] in parentheses when there is one. *)
Theorem resolveTabId_selects_tab_or_fails
    (w w1 : World) (env env1 : list (list Loop.Event)) (tabs : list JsVal) :
  Loop.exec (Legacy.getTabs [] None) env w = (w1, env1, Some (Returned (JArr tabs))) →
  (∀ i : Z,
     tabs ≠ [] →
     let n := Z.of_nat (length tabs) in
     let position := Z.to_nat (Z.max 0 (Z.min (n - 1) (if (i <? 0)%Z then n + i else i)))%Z in
     ∃ tab,
       tabs !! position = Some tab ∧
       Loop.exec (Legacy.resolveTabId (JNum i)) env w =
         (w1, env1, Some (Returned (Js.or (Js.or tab.["id"] tab.["targetId"]) JNull)))) ∧
  (∀ (indexArg : JsVal) (events : list Loop.Event) (env2 : list (list Loop.Event)),
     Legacy.given_tab_id indexArg = None →
     tabs = [] →
     env1 = events :: env2 →
     iframe_contentWindow w1 = true →
     let sent := Requests.send "getActiveTab" (JObj []) Requests.no_options w1 in
     let w2 := Loop.deliver_all events sent.2 in
     sent.1 = Requests.request_id (now w1) (S (_requestSeq w1)) ∧
     (∃ target,
        posted sent.2 =
          (posted w1 ++
           [(JObj [("type", JStr "getActiveTab"); ("requestId", JStr sent.1); ("data", JObj [])],
             target)])%list) ∧
     Loop.exec (Legacy.resolveTabId indexArg) env w =
       match outcome_of (WRequest sent.1) (settled w2) with
       | Some (Resolved activeTab) =>
           (w2, env2,
            Some (Returned (Js.or (Js.or activeTab.["id"] activeTab.["targetId"]) JNull)))
       | Some (Rejected _) => (w2, env2, Some (Returned JNull))
       | None => (w2, env2, None)
       end) ∧
  (∀ (args : list JsVal) (originalError : option JsError) (w3 : World)
      (env3 : list (list Loop.Event)) (tabId : JsVal),
     Loop.exec (Legacy.resolveTabId (Legacy.arg 0 args)) env w
       = (w3, env3, Some (Returned tabId)) →
     Js.truthy tabId = false →
     Loop.exec (Legacy.closeTab args originalError) env w =
       (w3, env3,
        Some (Threw (Error ("Legacy closeTab failed: no target tab" +:+
                            match originalError with
                            | Some (Error m) =>
                                if String.eqb m "" then "" else " (" +:+ m +:+ ")"
                            | None => ""
                            end))))).
Proof.
  intros Hget. split; [|split].
  - intros i Hne n position.
    assert (position < length tabs) as Hlt.
    { destruct tabs; [done|]. subst position n. simpl length in *. lia. }
    destruct (lookup_lt_is_Some_2 tabs position Hlt) as [tab Htab].
    exists tab. split; [done|].
    rewrite (exec_resolveTabId_listed env w w1 env1 tabs) by done.
    simpl. unfold Legacy.clamp_index. fold n. fold position. by rewrite Htab.
  - intros indexArg events env2 Hgiven -> -> Hwin sent w2.
    split; [|split].
    + done.
    + eexists. subst sent. unfold Requests.send, Element.pending_set. simpl.
      reflexivity.
    + by rewrite (exec_resolveTabId_active events env w w1 env2).
  - intros args originalError w3 env3 tabId Hresolve Hfalsy.
    unfold Legacy.closeTab. by erewrite exec_on_tab_fails.
Qed.

(** With five tabs listed, index [-1] resolves to the last one; with no tab
    listed and no answer about the active tab, [closeTab] rejects and quotes
    the original error. *)
Lemma resolveTabId_selects_tab_or_fails_witness :
  (Loop.exec (Legacy.resolveTabId (JNum (-1)))
     [[Scenario.reply "bbx-1700-1" Scenario.five_tabs]] Scenario.ready_world).2
    = Some (Returned (JStr "e")) ∧
  (Loop.exec (Legacy.closeTab [] (Some (Error "boom")))
     [[Loop.TimerFires 2]; [Loop.TimerFires 3]] Scenario.ready_world).2
    = Some (Threw (Error "Legacy closeTab failed: no target tab (boom)")).
Proof.
  split.
  - destruct (resolveTabId_selects_tab_or_fails Scenario.ready_world
                (Loop.exec (Legacy.getTabs [] None)
                   [[Scenario.reply "bbx-1700-1" Scenario.five_tabs]] Scenario.ready_world).1.1
                [[Scenario.reply "bbx-1700-1" Scenario.five_tabs]] []
                (imap Legacy.with_default_index
                   [JObj [("id", JStr "a")]; JObj [("id", JStr "b")]; JObj [("id", JStr "c")];
                    JObj [("targetId", JStr "d")]; JObj [("id", JStr "e")]]))
      as (Hlisted & _ & _).
    + vm_compute. reflexivity.
    + destruct (Hlisted (-1)%Z) as (tab & Htab & Hexec); [done|].
      rewrite Hexec. vm_compute in Htab. injection Htab as <-. reflexivity.
  - destruct (resolveTabId_selects_tab_or_fails Scenario.ready_world
                (Loop.exec (Legacy.getTabs [] None)
                   [[Loop.TimerFires 2]; [Loop.TimerFires 3]] Scenario.ready_world).1.1
                [[Loop.TimerFires 2]; [Loop.TimerFires 3]] [[Loop.TimerFires 3]] [])
      as (_ & _ & Hfails).
    + vm_compute. reflexivity.
    + rewrite (Hfails [] (Some (Error "boom"))
                 (Loop.exec (Legacy.resolveTabId JUndefined)
                    [[Loop.TimerFires 2]; [Loop.TimerFires 3]] Scenario.ready_world).1.1
                 [] JNull).
      * reflexivity.
      * vm_compute. reflexivity.
      * reflexivity.
Defined.

(** ** Transport resolution *)

Section TransportFacts.
Import Element Requests Legacy Loop.

Lemma NeverThrows_bind {A B} (m : Async A) (f : A → Async B) :
  NeverThrows m → (∀ a, NeverThrows (f a)) → NeverThrows (m ≫= f).
Proof.
  intros Hm Hf. unfold mbind, Async_bind.
  induction Hm; simpl; auto using @NeverThrows.
Qed.

(** A [catch] whose handler does not throw shields whatever it guards. *)
Lemma NeverThrows_try_catch {A} (m : Async A) (h : JsError → Async A) :
  (∀ e, NeverThrows (h e)) → NeverThrows (try_catch m h).
Proof.
  intros Hh. induction m; simpl; auto using @NeverThrows.
Qed.

Lemma NeverThrows_modify f : NeverThrows (modify f).
Proof. repeat constructor. Qed.

Lemma NeverThrows_resolveTransport : NeverThrows _resolveTransport.
Proof.
  constructor. intros w.
  destruct (mode_is Unknown (_transportMode w)); lazy beta iota delta [negb].
  - apply NeverThrows_bind.
    + apply NeverThrows_try_catch. intros _. apply NeverThrows_modify.
    + intros _. repeat constructor.
  - constructor.
Qed.

Lemma mode_is_Unknown m : mode_is Unknown m = true ↔ m = Unknown.
Proof. by destruct m. Qed.

End TransportFacts.

(** C2.  [_resolveTransport] never ends by throwing.  With the mode known it
    returns the mode at once: nothing is sent and nothing changes.  With the
    mode unknown and the peer window there it makes one request: one
    [bbx-api-call] probe for [getTabCount] is posted, with a timeout of
    [min(requestTimeoutMs, 5000)] ms; when the request resolves the mode
    becomes modern, when it is rejected, by its timeout, by an error of the
    peer or otherwise, the mode becomes legacy, and the mode is returned.
    Without a peer window the request fails on the spot, nothing is posted and
    the mode becomes legacy. *)
Theorem resolveTransport_never_throws :
  NeverThrows Requests._resolveTransport ∧
  (∀ (w : World) (env : list (list Loop.Event)),
     _transportMode w ≠ Unknown →
     Loop.exec Requests._resolveTransport env w
       = (w, env, Some (Returned (JStr (mode_name (_transportMode w)))))) ∧
  (∀ (w : World) (events : list Loop.Event) (env : list (list Loop.Event)),
     _transportMode w = Unknown →
     iframe_contentWindow w = true →
     let timeout := Z.min (Element.requestTimeoutMs w) 5000 in
     let sent := Requests.send "bbx-api-call" Requests.probe_data
                   (Requests.timeout_option timeout) w in
     let w1 := Loop.deliver_all events sent.2 in
     (100 ≤ timeout ≤ 5000)%Z ∧
     posted sent.2 =
       (posted w ++
        [(JObj [("type", JStr "bbx-api-call"); ("requestId", JStr sent.1);
                ("data", JObj [("method", JStr "getTabCount"); ("args", JArr [])])],
          Element._allowedOrigin w)])%list ∧
     timers sent.2 =
       (timers w ++
        [mkTimer (next_timer w) timeout false
           (RequestTimeout sent.1 "bbx-api-call" timeout)])%list ∧
     Loop.exec Requests._resolveTransport (events :: env) w =
       match outcome_of (WRequest sent.1) (settled w1) with
       | Some (Resolved _) =>
           (set_transportMode Modern w1, env, Some (Returned (JStr "modern")))
       | Some (Rejected _) =>
           (set_transportMode Legacy w1, env, Some (Returned (JStr "legacy")))
       | None => (w1, env, None)
       end) ∧
  (∀ (w : World) (env : list (list Loop.Event)),
     _transportMode w = Unknown →
     iframe_contentWindow w = false →
     Loop.exec Requests._resolveTransport env w
       = (set_transportMode Legacy w, env, Some (Returned (JStr "legacy")))).
Proof.
  split; [apply NeverThrows_resolveTransport|]. split; [|split].
  - intros w env Hmode. unfold Requests._resolveTransport. rewrite exec_Get.
    destruct (mode_is Unknown (_transportMode w)) eqn:E; [|done].
    by apply mode_is_Unknown in E.
  - intros w events env Hmode Hwin timeout sent w1.
    split; [|split; [|split]].
    + subst timeout. unfold Element.requestTimeoutMs.
      destruct (attr_request_timeout_ms w) as [parsed|]; [|lia].
      destruct (parsed <? 100)%Z eqn:E; [lia|]. apply Z.ltb_ge in E. lia.
    + subst sent. unfold Requests.send, Element.pending_set. simpl. reflexivity.
    + subst sent. unfold Requests.send, Element.pending_set. simpl.
      assert (100 ≤ timeout)%Z as Hmin.
      { subst timeout. unfold Element.requestTimeoutMs.
        destruct (attr_request_timeout_ms w) as [parsed|]; [|lia].
        destruct (parsed <? 100)%Z eqn:E; [lia|]. apply Z.ltb_ge in E. lia. }
      replace (Z.max 100 timeout) with timeout by lia.
      rewrite timer_delay_fits; [done|].
      subst timeout. lia.
    + unfold Requests._resolveTransport. rewrite exec_Get, Hmode. cbn [mode_is negb].
      rewrite exec_bind, exec_try_catch, exec_bind, exec_request by done.
      cbv zeta. subst sent w1 timeout.
      by destruct (outcome_of _ _) as [[]|].
  - intros w env Hmode Hwin. unfold Requests._resolveTransport.
    rewrite exec_Get, Hmode. cbn [mode_is negb].
    by rewrite exec_bind, exec_try_catch, exec_bind, exec_request_unavailable.
Qed.

(** An answered probe selects the modern transport, a probe that times out
    the legacy one. *)
Lemma resolveTransport_never_throws_witness :
  (Loop.exec Requests._resolveTransport
     [[Scenario.reply "bbx-1700-1" (JNum 3)]] Scenario.ready_world).2
    = Some (Returned (JStr "modern")) ∧
  (Loop.exec Requests._resolveTransport [[Loop.TimerFires 2]] Scenario.ready_world).2
    = Some (Returned (JStr "legacy")).
Proof.
  destruct resolveTransport_never_throws as (_ & _ & Hprobe & _).
  split.
  - destruct (Hprobe Scenario.ready_world [Scenario.reply "bbx-1700-1" (JNum 3)] [])
      as (_ & _ & _ & Hexec); [reflexivity|reflexivity|].
    rewrite Hexec. vm_compute. reflexivity.
  - destruct (Hprobe Scenario.ready_world [Loop.TimerFires 2] [])
      as (_ & _ & _ & Hexec); [reflexivity|reflexivity|].
    rewrite Hexec. vm_compute. reflexivity.
Defined.

(** ** The unified call *)

Section CallFacts.
Import Element Requests Legacy Loop.
Variables getActiveTabIndex waitForTabCount waitForTabUrl : Handler.
Variable inherited : string → list JsVal → option JsError → Result JsVal.

Lemma exec_callApi method args env w :
  Js.trim method ≠ "" →
  exec (callApi getActiveTabIndex waitForTabCount waitForTabUrl inherited (JStr method) args)
    env w =
    match exec _ensureReadyForApi env w with
    | (w, env, Some (Returned _)) =>
        Scenario.dispatch getActiveTabIndex waitForTabCount waitForTabUrl inherited
          (Js.trim method) args env w
    | (w, env, Some (Threw e)) => (w, env, Some (Threw e))
    | (w, env, None) => (w, env, None)
    end.
Proof.
  intros Hvalid. unfold callApi.
  destruct (String.eqb (Js.trim method) "") eqn:E.
  { by apply String.eqb_eq in E. }
  rewrite exec_bind, exec_await.
  destruct (exec _ensureReadyForApi env w) as [[w1 env1] [[ready|e]|]]; [|done..].
  rewrite exec_bind, exec_Get. unfold Scenario.dispatch.
  destruct (mode_is Unknown (_transportMode w1)).
  - rewrite exec_await.
    destruct (exec _resolveTransport env1 w1) as [[w2 env2] [[mode|e]|]]; [|done..].
    rewrite exec_Get. by destruct (mode_is Legacy (_transportMode w2)).
  - cbn [exec]. by destruct (mode_is Legacy (_transportMode w1)).
Qed.

End CallFacts.

(** C10.  A call whose method is not a string, or is a string of white
    space only (the empty string too), is the rejection "callApi(method,
    ...args) requires a non-empty method string." and nothing else: it waits
    for nothing, posts nothing and leaves the element as it was.  A call with
    any other method string waits for readiness, resolves the transport if it
    is unknown, and then dispatches under the name that is left of the string
    between its leading and its trailing white space: in legacy mode to what
    the handler table holds under that name (one of its own handlers, or a
    member of [Object.prototype], and the error 'No legacy fallback' if there
    is neither), and otherwise in a [bbx-api-call] request whose [method] is
    that name.  White space is the code units that [String.prototype.trim]
    strips. *)
Theorem callApi_validates_and_trims
    (getActiveTabIndex waitForTabCount waitForTabUrl : Legacy.Handler)
    (inherited : string → list JsVal → option JsError → Result JsVal)
    (args : list JsVal) :
  let callApi := Legacy.callApi getActiveTabIndex waitForTabCount waitForTabUrl inherited in
  let _legacyCall :=
    Legacy._legacyCall getActiveTabIndex waitForTabCount waitForTabUrl inherited in
  let rejection : Async JsVal :=
    Throw (Error "callApi(method, ...args) requires a non-empty method string.") in
  let white (us : list string) := Forall (fun u => Js.is_space u = true) us in
  (∀ method : JsVal, (∀ s, method ≠ JStr s) → callApi method args = rejection) ∧
  (∀ s : string, white (Js.units s) → callApi (JStr s) args = rejection) ∧
  (∀ (s : string) (before name after : list string),
     Js.units s = before ++ name ++ after →
     white before → white after →
     (∃ u, head name = Some u ∧ Js.is_space u = false) →
     (∃ u, last name = Some u ∧ Js.is_space u = false) →
     let normalizedMethod := String.concat "" name in
     ∀ (env : list (list Loop.Event)) (w : World),
       Loop.exec (callApi (JStr s) args) env w =
         match Loop.exec Requests._ensureReadyForApi env w with
         | (w1, env1, Some (Returned _)) =>
             match
               (if mode_is Unknown (_transportMode w1)
                then Loop.exec Requests._resolveTransport env1 w1
                else (w1, env1, Some (Returned JUndefined)))
             with
             | (w2, env2, Some (Returned _)) =>
                 if mode_is Legacy (_transportMode w2)
                 then Loop.exec (_legacyCall normalizedMethod args None) env2 w2
                 else
                   Loop.exec
                     (Requests._request "bbx-api-call"
                        (JObj [("method", JStr normalizedMethod); ("args", JArr args)])
                        (Requests.timeout_option (Element.requestTimeoutMs w2))) env2 w2
             | (w2, env2, Some (Threw e)) => (w2, env2, Some (Threw e))
             | (w2, env2, None) => (w2, env2, None)
             end
         | (w1, env1, Some (Threw e)) => (w1, env1, Some (Threw e))
         | (w1, env1, None) => (w1, env1, None)
         end) ∧
  (∀ u : string,
     Js.is_space u = true ↔
     Js.unit_code u ∈
       [9; 10; 11; 12; 13; 32; 160; 5760; 8192; 8193; 8194; 8195; 8196; 8197; 8198; 8199;
        8200; 8201; 8202; 8232; 8233; 8239; 8287; 12288; 65279]%Z) ∧
  (∀ method : string,
     _legacyCall method args None =
       match Legacy._legacyHandlers getActiveTabIndex waitForTabCount waitForTabUrl method with
       | Some handler => handler args None
       | None =>
           if bool_decide
                (method ∈
                   ["constructor"; "__defineGetter__"; "__defineSetter__"; "hasOwnProperty";
                    "__lookupGetter__"; "__lookupSetter__"; "isPrototypeOf";
                    "propertyIsEnumerable"; "toString"; "valueOf"; "__proto__";
                    "toLocaleString"])
           then
             match inherited method args None with
             | Returned value => Ret value
             | Threw error => Throw error
             end
           else Throw (Error ("No legacy fallback for API method '" +:+ method +:+ "'"))
       end).
Proof.
  intros callApi _legacyCall rejection white.
  split; [|split; [|split; [|split]]].
  - intros method Hmethod. destruct method as [| | | | |s| |]; try reflexivity.
    by destruct (Hmethod s).
  - intros s Hs. subst callApi. unfold Legacy.callApi. by rewrite trim_spaces.
  - intros s before name after Hs Hbefore Hafter Hhead Hlast normalizedMethod env w.
    destruct (trim_units s before name after Hs Hbefore Hafter Hhead Hlast) as [Htrim Hne].
    subst callApi. rewrite exec_callApi by done. rewrite Htrim. reflexivity.
  - apply is_space_codes.
  - intros method. subst _legacyCall. unfold Legacy._legacyCall, Legacy.fail.
    rewrite append_empty_r. reflexivity.
Qed.

(** A method name wrapped in an ideographic space, a space, a tab and a
    byte order mark goes out as [getTabs]: on the modern transport in a
    [bbx-api-call] request, on the legacy one to the [getTabs] handler, which
    posts its query.  On the legacy transport [constructor] reaches
    [Object.prototype], and a name that the table lacks is refused. *)
Lemma callApi_validates_and_trims_witness :
  let idle : Legacy.Handler := fun _ _ => Ret JUndefined in
  let inherited : string → list JsVal → option JsError → Result JsVal :=
    fun _ args _ => Returned (JArr args) in
  let callApi := Legacy.callApi idle idle idle inherited in
  let padded :=
    Js.fromCharCode 12288 +:+ " getTabs" +:+ Js.fromCharCode 9 +:+ Js.fromCharCode 65279 in
  let modern :=
    Loop.exec (callApi (JStr padded) [JNum 1])
      [[Scenario.reply "bbx-1700-1" (JNum 3)]; []] Scenario.ready_world in
  let legacy :=
    Loop.exec (callApi (JStr padded) [JNum 1]) [[Loop.TimerFires 2]; []]
      Scenario.ready_world in
  drop 2 (posted modern.1.1) =
    [(JObj [("type", JStr "bbx-api-call"); ("requestId", JStr "bbx-1700-2");
            ("data", JObj [("method", JStr "getTabs"); ("args", JArr [JNum 1])])], "*")] ∧
  drop 2 (posted legacy.1.1) =
    [(JObj [("type", JStr "getTabs"); ("requestId", JStr "bbx-1700-2"); ("data", JObj [])],
      "*")] ∧
  (Loop.exec (callApi (JStr " constructor") [JNum 1]) [[Loop.TimerFires 2]]
     Scenario.ready_world).2 = Some (Returned (JArr [JNum 1])) ∧
  (Loop.exec (callApi (JStr "closeEverything") []) [[Loop.TimerFires 2]]
     Scenario.ready_world).2
    = Some (Threw (Error "No legacy fallback for API method 'closeEverything'")) ∧
  callApi (JStr (Js.fromCharCode 8232 +:+ " " +:+ Js.fromCharCode 160)) []
    = Throw (Error "callApi(method, ...args) requires a non-empty method string.").
Proof.
  intros idle inherited callApi padded modern legacy.
  destruct (callApi_validates_and_trims idle idle idle inherited [JNum 1])
    as (_ & _ & Hdispatch & _).
  destruct (callApi_validates_and_trims idle idle idle inherited [])
    as (_ & Hblank & _).
  assert (∀ env,
            Loop.exec (callApi (JStr padded) [JNum 1]) env Scenario.ready_world =
            Scenario.dispatch idle idle idle inherited "getTabs" [JNum 1] env
              Scenario.ready_world) as Hcall.
  { intros env.
    rewrite (Hdispatch padded [Js.fromCharCode 12288; " "]
               ["g"; "e"; "t"; "T"; "a"; "b"; "s"]
               [Js.fromCharCode 9; Js.fromCharCode 65279]).
    - reflexivity.
    - vm_compute. reflexivity.
    - repeat (constructor; [vm_compute; reflexivity|]). constructor.
    - repeat (constructor; [vm_compute; reflexivity|]). constructor.
    - exists "g". split; vm_compute; reflexivity.
    - exists "s". split; vm_compute; reflexivity. }
  split; [|split; [|split; [|split]]].
  - subst modern. rewrite Hcall. vm_compute. reflexivity.
  - subst legacy. rewrite Hcall. vm_compute. reflexivity.
  - vm_compute. reflexivity.
  - vm_compute. reflexivity.
  - apply Hblank.
    change (Js.units (Js.fromCharCode 8232 +:+ " " +:+ Js.fromCharCode 160))
      with [Js.fromCharCode 8232; " "; Js.fromCharCode 160].
    repeat (constructor; [vm_compute; reflexivity|]). constructor.
Defined.

(** ** Concurrent first calls *)

(** C3 does not hold of the element.  Two calls made in a row while the
    transport is unknown both find it unknown, because [_resolveTransport]
    sets the mode only after its probe has settled: two probes are posted,
    and the mode is still unknown while both calls wait. *)
Theorem concurrent_first_calls_probe_twice
    (getActiveTabIndex waitForTabCount waitForTabUrl : Legacy.Handler)
    (inherited : string → list JsVal → option JsError → Result JsVal) :
  let callApi := Legacy.callApi getActiveTabIndex waitForTabCount waitForTabUrl inherited in
  let M := Scenario.two_first_calls (callApi (JStr "getTabs") []) (callApi (JStr "getTabs") []) in
  _isReady Scenario.ready_world = true ∧
  _transportMode Scenario.ready_world = Unknown ∧
  filter (fun message => Loop.is_probe message = true) (posted (Loop.world M))
    = [Scenario.probe 1; Scenario.probe 2] ∧
  (Loop.waiting M).*1 = [0; 1] ∧
  _transportMode (Loop.world M) = Unknown.
Proof. vm_compute. repeat split; reflexivity. Qed.

(** ** Liveness *)

Section LivenessFacts.
Import Element Scenario.

(** The reload of attempt [k] is scheduled [min(2000 k, 8000)] ms ahead, and
    announced with that delay. *)
Lemma retry_backoff (w : World) :
  iframe_src w ≠ "" →
  let k := (_iframeRetryCount w + 1)%Z in
  let w' := _retryIframeLoad w in
  _iframeRetryCount w' = k ∧
  timers w' =
    timers (_stopInitPing w) ++
    [mkTimer (next_timer w) (Js.timer_delay (Z.min (2000 * k) 8000)) false
       (RetryLoad (iframe_src w))] ∧
  dispatched w' =
    dispatched w ++
    [("iframe-retry",
      JObj [("attempt", JNum k); ("maxAttempts", JNum (_iframeRetryMax w));
            ("delayMs", JNum (Z.min (2000 * k) 8000))])].
Proof.
  intros Hsrc k w'. subst w'. unfold _retryIframeLoad.
  assert (iframe_src (set_iframeRetryCount (_iframeRetryCount (_stopInitPing w) + 1)%Z
                        (_stopInitPing w)) = iframe_src w) as Hsame.
  { unfold _stopInitPing. by destruct (_initPingTimer w). }
  rewrite Hsame.
  destruct (String.eqb (iframe_src w) "") eqn:E.
  { by apply String.eqb_eq in E. }
  subst k. unfold _stopInitPing. by destruct (_initPingTimer w).
Qed.

End LivenessFacts.

(** C5.  Take an element as its constructor leaves it, with probe threshold
    10 and 5 attempts at most, connected with a frame source, and a peer that
    never signals readiness.  Then exactly 5 reloads are scheduled and
    announced, attempt [k] with a delay of [min(2000 k, 8000)] ms, before the
    terminal [connect-failed] notification, which carries [attempts = 5]; after
    it the prober is stopped and none of its timers is armed.  In any state
    [_retryIframeLoad] arms the reload of attempt [k] with the delay that
    [setTimeout] makes of [min(2000 k, 8000)], which is that number. *)
Theorem unresponsive_peer_retries_then_fails
    (src : string) (parent_origin : option string) (request_timeout_ms : option Z) (clock : Z) :
  src ≠ "" →
  let start :=
    Element.connectedCallback (Some src)
      (Element.constructor parent_origin request_timeout_ms clock) in
  let finish := Scenario.unresponsive 100 start [] in
  _iframeRetryPingThreshold start = 10%Z ∧
  _iframeRetryMax start = 5%Z ∧
  dispatched finish.1 =
    [Scenario.retry_event 1 2000; Scenario.retry_event 2 4000; Scenario.retry_event 3 6000;
     Scenario.retry_event 4 8000; Scenario.retry_event 5 8000;
     ("connect-failed",
      JObj [("reason", JStr "iframe-unresponsive"); ("attempts", JNum 5);
            ("maxAttempts", JNum 5)])] ∧
  Scenario.reload_delays finish.2 = (fun k => Z.min (2000 * k) 8000) <$> [1; 2; 3; 4; 5]%Z ∧
  _reconnectStopped finish.1 = true ∧
  Scenario.liveness_timer finish.1 = None ∧
  iframe_loading finish.1 = false ∧
  ∀ w : World,
    iframe_src w ≠ "" →
    let k := (_iframeRetryCount w + 1)%Z in
    _iframeRetryCount (Element._retryIframeLoad w) = k ∧
    timers (Element._retryIframeLoad w) =
      timers (Element._stopInitPing w) ++
      [mkTimer (next_timer w) (Js.timer_delay (Z.min (2000 * k) 8000)) false
         (RetryLoad (iframe_src w))] ∧
    ((0 ≤ k)%Z → Js.timer_delay (Z.min (2000 * k) 8000) = Z.min (2000 * k) 8000).
Proof.
  intros Hsrc start finish.
  destruct src as [|c src]; [done|].
  do 7 (split; [vm_compute; reflexivity|]).
  intros w Hw k. destruct (retry_backoff w Hw) as (? & ? & _).
  split; [done|]. split; [done|]. intros Hk. apply timer_delay_fits. lia.
Qed.

Lemma unresponsive_peer_retries_then_fails_witness :
  Scenario.reload_delays
    (Scenario.unresponsive 100
       (Element.connectedCallback (Some "https://bbx.example/login")
          (Element.constructor None None 1700)) []).2
  = [2000; 4000; 6000; 8000; 8000]%Z.
Proof.
  destruct (unresponsive_peer_retries_then_fails "https://bbx.example/login" None None 1700)
    as (_ & _ & _ & Hdelays & _).
  - discriminate.
  - rewrite Hdelays. vm_compute. reflexivity.
Defined.

(** ** The ledger *)

Section LedgerFacts.
Import Element Requests Loop Ledger.

(** *** Request ids *)

Lemma digits_no_dash (a b : string) : ¬ digits (a +:+ "-" +:+ b).
Proof.
  induction a as [|c a IH]; simpl; intros Hd.
  - by inversion Hd.
  - inversion Hd; subst. by apply IH.
Qed.


Lemma append_cons (c : ascii) (a s : string) : String c a +:+ s = String c (a +:+ s).
Proof. done. Qed.

Lemma dash_suffix_inj (a b s t : string) :
  digits s → digits t → a +:+ "-" +:+ s = b +:+ "-" +:+ t → s = t.
Proof.
  intros Hs Ht. revert b.
  induction a as [|c a IH]; intros [|c' b] Heq;
    repeat first [progress rewrite append_cons in Heq
                 |progress change ("" +:+ ?x) with x in Heq].
  - by injection Heq.
  - injection Heq as _ ->. by destruct (digits_no_dash b t).
  - injection Heq as _ <-. by destruct (digits_no_dash a s).
  - injection Heq as _ Heq. by apply (IH b).
Qed.

(** Two requests with the same id have the same number. *)
Lemma request_id_inj clock clock' seq seq' :
  request_id clock seq = request_id clock' seq' → seq = seq'.
Proof.
  unfold request_id. intros Heq.
  repeat first [progress rewrite append_cons in Heq
               |progress change ("" +:+ ?x) with x in Heq].
  injection Heq as Heq.
  apply dash_suffix_inj in Heq; auto using pretty_nat_digits.
  by apply (inj pretty).
Qed.

(** *** Settlements *)

Lemma settlements_app id log log' :
  settlements id (log ++ log') = settlements id log ++ settlements id log'.
Proof. apply filter_app. Qed.

Lemma settlements_other id s log :
  settles_request id s = false → settlements id (log ++ [s]) = settlements id log.
Proof.
  intros Hs. rewrite settlements_app. unfold settlements at 2.
  rewrite filter_cons_False by (by rewrite Hs). by rewrite filter_nil, app_nil_r.
Qed.

Lemma settlements_this id s log :
  settles_request id s = true → settlements id (log ++ [s]) = settlements id log ++ [s].
Proof.
  intros Hs. rewrite settlements_app. unfold settlements at 2.
  by rewrite filter_cons_True.
Qed.

(** *** Steps that leave the ledger alone *)

Lemma Inv_view issued w w' : view w' = view w → Inv issued w → Inv issued w'.
Proof.
  unfold view. intros [= Hseq Hpending Hping Htimers Hnext Hsettled] [].
  constructor; unfold in_flight, settled_once, abandoned in *;
    rewrite ?Hseq, ?Hpending, ?Hping, ?Htimers, ?Hnext, ?Hsettled; done.
Qed.

Lemma Inv_quiet issued (f : World → World) w :
  (∀ w, view (f w) = view w) → Inv issued w → Inv issued (f w).
Proof. intros Hf. by apply Inv_view. Qed.

Lemma in_flight_or_settled_mono id w w' :
  _pending w' = _pending w → settled w' = settled w →
  (∀ tm, tm ∈ timers w → is_request_timeout id tm = true → tm ∈ timers w') →
  in_flight id w ∨ settled_once id w ∨ abandoned id w →
  in_flight id w' ∨ settled_once id w' ∨ abandoned id w'.
Proof.
  intros Hp Hs Ht [[(t & Hin & tm & Htm & Hid & Htask) Hnone]|[[Hout Hone]|[Hout Hnone]]].
  - left. split; [|by rewrite Hs]. exists t. rewrite Hp. split; [done|].
    exists tm. split; [by apply Ht|done].
  - right. left. split; [by rewrite Hp|by rewrite Hs].
  - right. right. split; [by rewrite Hp|by rewrite Hs].
Qed.

(** Arming a timer that is not a request's timeout. *)
Lemma Inv_setTimer issued delay repeats task w :
  (∀ id type ms, task ≠ RequestTimeout id type ms) →
  Inv issued w → Inv issued (setTimer delay repeats task w).2.
Proof.
  intros Htask []. constructor; simpl; try done.
  - intros tm id type ms Hin Htm.
    apply elem_of_app in Hin as [Hin|Hin]; [eauto|].
    apply list_elem_of_singleton in Hin as ->. simpl in Htm. by destruct (Htask id type ms).
  - rewrite fmap_app. apply NoDup_app. split; [done|]. split; [|apply NoDup_singleton].
    intros x Hx Hx'. apply list_elem_of_singleton in Hx' as ->.
    apply list_elem_of_fmap in Hx as (tm & Hid & Hin).
    apply timers_fresh0 in Hin. simpl in *. lia.
  - intros tm Hin. apply elem_of_app in Hin as [Hin|Hin].
    + apply timers_fresh0 in Hin. lia.
    + apply list_elem_of_singleton in Hin as ->. simpl. lia.
  - intros t Ht. destruct (ping_timer0 t Ht) as [Hlt Hping]. split; [lia|].
    intros tm Hin Hid. apply elem_of_app in Hin as [Hin|Hin]; [eauto|].
    apply list_elem_of_singleton in Hin as ->. simpl in Hid. lia.
  - intros id Hid. eapply in_flight_or_settled_mono; [..|by apply once0]; try done.
    simpl. intros tm Hin _. apply elem_of_app. by left.
  - intros t error Hin. apply rejected_fired0 in Hin. lia.
  - intros tm id type ms Hin Htm.
    apply elem_of_app in Hin as [Hin|Hin]; [eauto|].
    apply list_elem_of_singleton in Hin as ->. simpl in Htm. by destruct (Htask id type ms).
Qed.
(** *** Lists with unique keys *)

Lemma NoDup_fst_unique {A B} (l : list (A * B)) k a b :
  NoDup l.*1 → (k, a) ∈ l → (k, b) ∈ l → a = b.
Proof.
  induction l as [|[k' v] l IH]; intros Hnd Ha Hb; [by apply elem_of_nil in Ha|].
  rewrite fmap_cons in Hnd. apply NoDup_cons in Hnd as [Hk' Hnd]. simpl in Hk'.
  apply elem_of_cons in Ha as [Ha|Ha], Hb as [Hb|Hb].
  - congruence.
  - injection Ha as -> ->. destruct Hk'. by apply (list_elem_of_fmap_2 fst _ (k', b)).
  - injection Hb as -> ->. destruct Hk'. by apply (list_elem_of_fmap_2 fst _ (k', a)).
  - by apply IH.
Qed.

Lemma NoDup_fmap_unique {A B} (f : A → B) (l : list A) x y :
  NoDup (f <$> l) → x ∈ l → y ∈ l → f x = f y → x = y.
Proof.
  induction l as [|z l IH]; intros Hnd Hx Hy Heq; [by apply elem_of_nil in Hx|].
  rewrite fmap_cons in Hnd. apply NoDup_cons in Hnd as [Hz Hnd].
  apply elem_of_cons in Hx as [->|Hx], Hy as [->|Hy]; try done.
  - destruct Hz. rewrite Heq. by apply list_elem_of_fmap_2.
  - destruct Hz. rewrite <- Heq. by apply list_elem_of_fmap_2.
  - by apply IH.
Qed.

Lemma NoDup_fmap_filter {A B} (f : A → B) (P : A → Prop) `{∀ x, Decision (P x)}
    (l : list A) :
  NoDup (f <$> l) → NoDup (f <$> filter P l).
Proof.
  induction l as [|z l IH]; intros Hnd; [done|].
  rewrite fmap_cons in Hnd. apply NoDup_cons in Hnd as [Hz Hnd].
  rewrite filter_cons. destruct (decide (P z)); [|by apply IH].
  rewrite fmap_cons. apply NoDup_cons. split; [|by apply IH].
  intros Hin. apply Hz. apply list_elem_of_fmap in Hin as (x & -> & Hx).
  apply list_elem_of_filter in Hx as [_ Hx]. by apply list_elem_of_fmap_2.
Qed.

(** *** Clearing a timer that is not a request's *)

Lemma request_timeout_task id tm :
  is_request_timeout id tm = true ↔ ∃ type ms, timer_task tm = RequestTimeout id type ms.
Proof.
  unfold is_request_timeout. destruct (timer_task tm) as [|id' type ms| |]; split;
    try done; try (by intros (? & ? & ?)).
  - intros ->%String.eqb_eq. eauto.
  - intros (? & ? & [= -> _ _]). apply String.eqb_refl.
Qed.

Lemma Inv_clearTimer issued t w :
  (∀ tm id type ms, tm ∈ timers w → timer_id tm = t →
                    timer_task tm ≠ RequestTimeout id type ms) →
  Inv issued w → Inv issued (clearTimer t w).
Proof.
  intros Htask []. constructor; simpl; try done.
  - intros tm id type ms [_ Hin]%list_elem_of_filter Htm. eauto.
  - by apply NoDup_fmap_filter.
  - intros tm [_ Hin]%list_elem_of_filter. auto.
  - intros t' Ht'. destruct (ping_timer0 t' Ht') as [Hlt Hping]. split; [done|].
    intros tm [_ Hin]%list_elem_of_filter. auto.
  - intros id Hid. eapply in_flight_or_settled_mono; [..|by apply once0]; try done.
    simpl. intros tm Hin Hreq. apply list_elem_of_filter. split; [|done].
    intros Heq. apply request_timeout_task in Hreq as (type & ms & Hreq).
    by destruct (Htask tm id type ms).
  - intros tm id type ms [_ Hin]%list_elem_of_filter Htm. eauto.
Qed.

Lemma Inv_stopInitPing issued w : Inv issued w → Inv issued (_stopInitPing w).
Proof.
  intros HI. unfold _stopInitPing.
  destruct (_initPingTimer w) as [t|] eqn:Hping; [|done].
  assert (Inv issued (clearTimer t w)) as [].
  { apply Inv_clearTimer; [|done]. intros tm id type ms Hin Hid Htask.
    destruct HI. destruct (ping_timer0 t Hping) as [_ Hp].
    by rewrite (Hp tm Hin Hid) in Htask. }
  constructor; try done.
Qed.

(** [_startInitPing] arms the interval and keeps its id. *)
Lemma Inv_arm_ping issued delay w :
  Inv issued w →
  Inv issued (set_initPingTimer (Some (next_timer w)) (setTimer delay true InitPing w).2).
Proof.
  intros HI. assert (Inv issued (setTimer delay true InitPing w).2) as [].
  { by apply Inv_setTimer. }
  constructor; try done.
  simpl. intros t [= <-]. split; [lia|].
  intros tm Hin Hid. apply elem_of_app in Hin as [Hin|Hin].
  - destruct HI. apply timers_fresh1 in Hin. lia.
  - by apply list_elem_of_singleton in Hin as ->.
Qed.

(** A settlement of a ready promise is none of a request. *)
Lemma Inv_settle_other issued s w :
  (∀ id, settles_request id s = false) →
  (∀ t error, s = RejectReady t error → t < next_timer w) →
  Inv issued w → Inv issued (settle s w).
Proof.
  intros Hs Hfired []. constructor; simpl; try done.
  - intros id. rewrite settlements_other by done. auto.
  - intros id Hid. destruct (once0 id Hid) as [[Hin Hnone]|[[Hout Hone]|[Hout Hnone]]].
    + left. split; [done|]. simpl. by rewrite settlements_other.
    + right. left. split; [done|]. simpl. by rewrite settlements_other.
    + right. right. split; [done|]. simpl. by rewrite settlements_other.
  - intros t error [Hin|Heq%list_elem_of_singleton]%elem_of_app; eauto.
Qed.

(** *** A response or a timeout settles its request *)

Lemma pending_key id t w : (id, t) ∈ _pending w → id ∈ (_pending w).*1.
Proof. intros Hin. by apply (list_elem_of_fmap_2 fst _ (id, t)). Qed.

(** The entry of a request leaves the ledger with its timer. *)
Lemma pending_in_flight_entry issued id t w :
  Inv issued w → (id, t) ∈ _pending w →
  ∃ tm, tm ∈ timers w ∧ timer_id tm = t ∧ is_request_timeout id tm = true ∧
        settlements id (settled w) = [].
Proof.
  intros [] Hin.
  destruct (once0 id) as [[(t0 & Hin0 & tm0 & Htm0 & Hid0 & Hreq0) Hnone0]|[[Hout _]|[Hout _]]];
    [eauto using pending_key| |destruct Hout; eauto using pending_key..].
  assert (t0 = t) as -> by eauto using NoDup_fst_unique. eauto.
Qed.

Lemma Inv_abandon issued id t w :
  (id, t) ∈ _pending w →
  Inv issued w →
  Inv issued (pending_delete id (clearTimer t w)).
Proof.
  intros Hin HI.
  destruct (pending_in_flight_entry issued id t w HI Hin) as (tm0 & Htm0 & Hid0 & Hreq0 & Hnone0).
  pose proof HI as [].
  constructor; simpl; try done.
  - by apply NoDup_fmap_filter.
  - intros tm id' type ms [Hne Hin']%list_elem_of_filter Htask.
    destruct (armed_pending0 tm id' type ms Hin' Htask) as [Hp Hrep]. split; [|done].
    apply list_elem_of_filter. split; [|done]. simpl. intros ->.
    apply Hne. eauto using NoDup_fst_unique.
  - by apply NoDup_fmap_filter.
  - intros tm [_ Hin']%list_elem_of_filter. auto.
  - intros t' Ht'. destruct (ping_timer0 t' Ht') as [Hlt Hping]. split; [done|].
    intros tm [_ Hin']%list_elem_of_filter. auto.
  - intros id' (p & -> & [_ Hp]%list_elem_of_filter)%list_elem_of_fmap.
    apply pending_issued0. by apply list_elem_of_fmap_2.
  - intros id' Hid'. destruct (decide (id' = id)) as [->|Hne].
    + right. right. split; simpl; [|done].
      intros (p & Hk & [Hp _]%list_elem_of_filter)%list_elem_of_fmap. by apply Hp.
    + destruct (once0 id' Hid')
        as [[(t' & Hin' & tm & Htm & Hid & Hreq) Hnone]|[[Hout Hone]|[Hout Hnone]]].
      * left. split; simpl; [|done].
        exists t'. split; [by apply list_elem_of_filter|].
        exists tm. split; [|done]. apply list_elem_of_filter. split; [|done].
        intros Heq. apply Hne.
        assert (tm = tm0) as -> by (eapply NoDup_fmap_unique; eauto; congruence).
        apply request_timeout_task in Hreq as (? & ? & Hreq).
        apply request_timeout_task in Hreq0 as (? & ? & Hreq0). congruence.
      * right. left. split; simpl; [|done].
        intros (p & Hk & [_ Hp]%list_elem_of_filter)%list_elem_of_fmap.
        apply Hout. rewrite Hk. by apply list_elem_of_fmap_2.
      * right. right. split; simpl; [|done].
        intros (p & Hk & [_ Hp]%list_elem_of_filter)%list_elem_of_fmap.
        apply Hout. rewrite Hk. by apply list_elem_of_fmap_2.
  - intros tm id' type ms [_ Hin']%list_elem_of_filter Htm. eauto.
Qed.

(** A call of [resolve] or [reject] on a request that has just left the
    ledger. *)
Lemma Inv_settle_left issued id s w :
  settles_request id s = true →
  (∀ id', id' ≠ id → settles_request id' s = false) →
  id ∈ issued → abandoned id w →
  Inv issued w → Inv issued (settle s w).
Proof.
  intros Hs Hothers Hissued [Hout Hnone] []. constructor; simpl; try done.
  - intros id'. destruct (decide (id' = id)) as [->|Hne]; [done|].
    rewrite settlements_other by auto. auto.
  - intros id' Hid'. destruct (decide (id' = id)) as [->|Hne].
    + right. left. split; [done|]. simpl. by rewrite settlements_this, Hnone.
    + destruct (once0 id' Hid') as [[Hin Hnone']|[[Hout' Hone]|[Hout' Hnone']]].
      * left. split; [done|]. simpl. by rewrite settlements_other by auto.
      * right. left. split; [done|]. simpl. by rewrite settlements_other by auto.
      * right. right. split; [done|]. simpl. by rewrite settlements_other by auto.
  - intros t' error [Hin'|Heq%list_elem_of_singleton]%elem_of_app.
    + by eapply rejected_fired0.
    + rewrite <- Heq in Hs. done.
Qed.

Lemma Inv_settle_request issued id t s w :
  (id, t) ∈ _pending w →
  settles_request id s = true →
  (∀ id', id' ≠ id → settles_request id' s = false) →
  Inv issued w →
  Inv issued (settle s (pending_delete id (clearTimer t w))).
Proof.
  intros Hin Hs Hothers HI.
  destruct (pending_in_flight_entry issued id t w HI Hin) as (tm0 & _ & _ & _ & Hnone0).
  apply (Inv_settle_left issued id); [done|done| | |by apply Inv_abandon].
  - destruct HI. eauto using pending_key.
  - split; simpl; [|done].
    intros (p & Hk & [Hp _]%list_elem_of_filter)%list_elem_of_fmap. by apply Hp.
Qed.

(** *** Bulk cancellation *)

Lemma filter_all {A} (P : A → Prop) `{∀ x, Decision (P x)} (l : list A) :
  (∀ x, P x) → filter P l = l.
Proof.
  intros HP. induction l as [|x l IH]; [done|].
  by rewrite filter_cons_True, IH.
Qed.

Lemma rejectPending_view error w :
  let w' := _rejectPending error w in
  _requestSeq w' = _requestSeq w ∧ _pending w' = [] ∧
  _initPingTimer w' = _initPingTimer w ∧
  timers w' = filter (fun tm => timer_id tm ∉ (_pending w).*2) (timers w) ∧
  next_timer w' = next_timer w ∧
  settled w' = settled w ++ rejections error (_pending w).
Proof.
  unfold _rejectPending. simpl.
  cut (∀ l w,
         let w' := fold_left (fun w p => settle (Reject p.1 error) (clearTimer p.2 w)) l w in
         _requestSeq w' = _requestSeq w ∧ _initPingTimer w' = _initPingTimer w ∧
         timers w' = filter (fun tm => timer_id tm ∉ l.*2) (timers w) ∧
         next_timer w' = next_timer w ∧ settled w' = settled w ++ rejections error l).
  { intros Hcut. destruct (Hcut (_pending w) w) as (-> & -> & -> & -> & ->). done. }
  induction l as [|p l IH]; intros w0; simpl.
  - repeat split; [|by rewrite app_nil_r].
    symmetry. apply filter_all. intros tm. apply not_elem_of_nil.
  - destruct (IH (settle (Reject p.1 error) (clearTimer p.2 w0))) as (-> & -> & -> & -> & ->).
    simpl. repeat split; [|by rewrite <- app_assoc].
    rewrite list_filter_filter. apply list_filter_iff. intros tm.
    rewrite not_elem_of_cons. tauto.
Qed.

Lemma settlements_rejections id error pending :
  NoDup pending.*1 →
  settlements id (rejections error pending) =
    if decide (id ∈ pending.*1) then [Reject id error] else [].
Proof.
  unfold settlements, rejections.
  induction pending as [|[k t] l IH]; intros Hnd; [done|].
  rewrite fmap_cons in Hnd. apply NoDup_cons in Hnd as [Hk Hnd]. simpl in Hk.
  rewrite !fmap_cons, filter_cons. simpl. rewrite IH by done.
  destruct (String.eqb k id) eqn:E;
    [apply String.eqb_eq in E as ->|apply String.eqb_neq in E];
    repeat case_decide; try done.
  all: rewrite ?elem_of_cons, ?not_elem_of_cons in *; intuition congruence.
Qed.

Lemma Inv_rejectPending issued error w :
  Inv issued w → Inv issued (_rejectPending error w).
Proof.
  intros HI. pose proof HI as [].
  destruct (rejectPending_view error w)
    as (Hseq & Hpending & Hping & Htimers & Hnext & Hsettled).
  constructor; unfold in_flight, settled_once, abandoned;
    rewrite ?Hseq, ?Hpending, ?Hping, ?Htimers, ?Hnext, ?Hsettled; try done.
  - apply NoDup_nil_2.
  - intros tm id type ms [Hout Hin]%list_elem_of_filter Htask.
    destruct (armed_pending0 tm id type ms Hin Htask) as [Hp _].
    destruct Hout. by apply (list_elem_of_fmap_2 snd _ (id, timer_id tm)).
  - by apply NoDup_fmap_filter.
  - intros tm [_ Hin]%list_elem_of_filter. auto.
  - intros t Ht. destruct (ping_timer0 t Ht) as [Hlt Hp]. split; [done|].
    intros tm [_ Hin]%list_elem_of_filter. auto.
  - intros id. rewrite settlements_app, settlements_rejections by done.
    case_decide; [auto|]. rewrite app_nil_r. auto.
  - intros id []%elem_of_nil.
  - intros id Hid. right.
    rewrite settlements_app, settlements_rejections, length_app by done.
    destruct (once0 id Hid) as [[(t & Hin & _) Hnone]|[[Hout Hone]|[Hout Hnone]]].
    + left. split; [apply not_elem_of_nil|].
      rewrite Hnone. rewrite decide_True by eauto using pending_key. done.
    + left. split; [apply not_elem_of_nil|]. rewrite Hone. by rewrite decide_False.
    + right. split; [apply not_elem_of_nil|]. rewrite Hnone. by rewrite decide_False.
  - intros t' error' [Hin|Hin]%elem_of_app; [by eapply rejected_fired0|].
    unfold rejections in Hin. by apply list_elem_of_fmap in Hin as (? & ? & _).
  - intros tm id type ms [_ Hin]%list_elem_of_filter Htm. eauto.
Qed.

(** *** Sending a request *)

Lemma requestTimeoutMs_min w : (100 ≤ requestTimeoutMs w)%Z.
Proof.
  unfold requestTimeoutMs. destruct (attr_request_timeout_ms w) as [parsed|]; [|lia].
  destruct (parsed <? 100)%Z eqn:E; [lia|]. by apply Z.ltb_ge in E.
Qed.

Lemma send_view type data options w :
  let id := request_id (now w) (S (_requestSeq w)) in
  let ms := match timeoutMs options with
            | Some ms => Z.max 100 ms
            | None => requestTimeoutMs w
            end in
  let w' := (send type data options w).2 in
  id ∉ (_pending w).*1 →
  (send type data options w).1 = id ∧
  _requestSeq w' = S (_requestSeq w) ∧
  _pending w' = _pending w ++ [(id, next_timer w)] ∧
  _initPingTimer w' = _initPingTimer w ∧
  timers w' =
    timers w ++
    [mkTimer (next_timer w) (Js.timer_delay ms) false (RequestTimeout id type ms)] ∧
  next_timer w' = S (next_timer w) ∧
  settled w' = settled w.
Proof.
  intros id ms w' Hfresh. subst w'. unfold send, pending_set, pending_has. simpl.
  fold id. rewrite bool_decide_false by done. done.
Qed.

Lemma Inv_fresh issued w clock :
  Inv issued w → request_id clock (S (_requestSeq w)) ∉ issued.
Proof.
  intros [] Hin. destruct (issued_seq0 _ Hin) as (clock' & seq & Heq & Hle).
  apply request_id_inj in Heq. lia.
Qed.

Lemma Inv_send issued type data options w :
  Inv issued w →
  Inv (issued ++ [(send type data options w).1]) (send type data options w).2.
Proof.
  intros HI. pose proof HI as [].
  pose proof (Inv_fresh issued w (now w) HI) as Hfresh.
  destruct (send_view type data options w)
    as (-> & Hseq & Hpending & Hping & Htimers & Hnext & Hsettled); [by auto|].
  set (id := request_id (now w) (S (_requestSeq w))) in *.
  constructor; unfold in_flight, settled_once, abandoned;
    rewrite ?Hseq, ?Hpending, ?Hping, ?Htimers, ?Hnext, ?Hsettled.
  - apply NoDup_app. split; [done|]. split; [|apply NoDup_singleton].
    intros x Hx ->%list_elem_of_singleton. done.
  - intros id' [Hin| ->%list_elem_of_singleton]%elem_of_app.
    + destruct (issued_seq0 id' Hin) as (c & s & ? & ?). exists c, s. split; [done|lia].
    + by exists (now w), (S (_requestSeq w)).
  - rewrite fmap_app. apply NoDup_app. split; [done|]. split; [|apply NoDup_singleton].
    intros x Hx ->%list_elem_of_singleton. auto.
  - intros tm id' type' ms' [Hin| ->%list_elem_of_singleton]%elem_of_app Htask.
    + destruct (armed_pending0 _ _ _ _ Hin Htask). split; [|done]. apply elem_of_app. by left.
    + simpl in *. injection Htask as <- _ _. split; [|done].
      apply elem_of_app. right. by apply list_elem_of_singleton.
  - rewrite fmap_app. apply NoDup_app. split; [done|]. split; [|apply NoDup_singleton].
    intros x (tm & -> & Hin)%list_elem_of_fmap Heq%list_elem_of_singleton.
    apply timers_fresh0 in Hin. simpl in *. lia.
  - intros tm [Hin| ->%list_elem_of_singleton]%elem_of_app.
    + apply timers_fresh0 in Hin. lia.
    + simpl. lia.
  - intros t Ht. destruct (ping_timer0 t Ht) as [Hlt Hp]. split; [lia|].
    intros tm [Hin| ->%list_elem_of_singleton]%elem_of_app Hid; [auto|].
    simpl in Hid. lia.
  - intros id' Hs. apply elem_of_app. left. auto.
  - intros id'. rewrite fmap_app. intros [Hin| ->%list_elem_of_singleton]%elem_of_app.
    + apply elem_of_app. left. auto.
    + apply elem_of_app. right. by apply list_elem_of_singleton.
  - intros id' [Hin| ->%list_elem_of_singleton]%elem_of_app.
    + assert (id' ≠ id) as Hne by congruence.
      destruct (once0 id' Hin)
        as [[(t & Hp & tm & Htm & Hid & Hreq) Hnone]|[[Hout Hone]|[Hout Hnone]]].
      * left. split; [|done]. exists t. split; [apply elem_of_app; by left|].
        exists tm. split; [apply elem_of_app; by left|done].
      * right. left. split; [|done]. rewrite fmap_app, not_elem_of_app. split; [done|].
        by intros ->%list_elem_of_singleton.
      * right. right. split; [|done]. rewrite fmap_app, not_elem_of_app. split; [done|].
        by intros ->%list_elem_of_singleton.
    + left. split.
      * exists (next_timer w). split; [apply elem_of_app; right; by apply list_elem_of_singleton|].
        eexists. split; [apply elem_of_app; right; by apply list_elem_of_singleton|].
        split; [done|]. unfold is_request_timeout. simpl. apply String.eqb_refl.
      * destruct (settlements id (settled w)) eqn:E; [done|].
        destruct Hfresh. apply settled_issued0. by rewrite E.
  - intros t error Hin. apply rejected_fired0 in Hin. lia.
  - intros tm id' type' ms' [Hin| ->%list_elem_of_singleton]%elem_of_app Htask; [eauto|].
    simpl in *. injection Htask as _ _ <-. split; [done|].
    destruct (timeoutMs options); [lia|apply requestTimeoutMs_min].
Qed.

(** *** The element's methods keep the invariant *)

Ltac quiet :=
  intros ?;
  unfold _postRaw, dispatchEvent, _resetReadyPromise, _assignIframeSrc,
    _updateIframeSrcFromAttribute;
  repeat case_match; reflexivity.

Ltac inv_step :=
  lazymatch goal with
  | H : Inv ?issued ?w |- Inv ?issued ?w => exact H
  | |- Inv _ (_stopInitPing _) => apply Inv_stopInitPing
  | |- Inv _ (_rejectPending _ _) => apply Inv_rejectPending
  | |- Inv _ (snd (setTimer _ _ _ _)) => apply Inv_setTimer; [by intros|]
  | |- Inv _ (settle _ _) => apply Inv_settle_other; [by intros|by intros|]
  | |- Inv _ (?f ?w) => apply (Inv_quiet _ f w); [quiet|]
  end.

Lemma Inv_setReady issued w : Inv issued w → Inv issued (_setReady w).
Proof.
  intros HI. unfold _setReady. destruct (_isReady w); [done|]. cbn [negb]. cbv zeta.
  by repeat inv_step.
Qed.

Lemma Inv_stopReconnectAttempts issued reason w :
  Inv issued w → Inv issued (stopReconnectAttempts reason w).
Proof. intros HI. unfold stopReconnectAttempts. cbv zeta. by repeat inv_step. Qed.

Lemma Inv_retryIframeLoad issued w : Inv issued w → Inv issued (_retryIframeLoad w).
Proof.
  intros HI. unfold _retryIframeLoad. cbv zeta.
  case_match; by repeat inv_step.
Qed.

Lemma Inv_initPing issued w : Inv issued w → Inv issued (initPing w).
Proof.
  intros HI. unfold initPing. cbv zeta.
  repeat case_match; try (by repeat inv_step).
  - apply Inv_retryIframeLoad. by repeat inv_step.
  - apply Inv_quiet; [quiet|]. apply Inv_stopReconnectAttempts. by repeat inv_step.
Qed.

Lemma Inv_startInitPing issued w : Inv issued w → Inv issued (_startInitPing w).
Proof.
  intros HI. unfold _startInitPing. destruct (_reconnectStopped w); [done|]. cbv zeta.
  apply (Inv_arm_ping issued 1000). by repeat inv_step.
Qed.

Lemma Inv_load issued w : Inv issued w → Inv issued (load w).
Proof.
  intros HI. unfold load, _handleLoad. cbv zeta. apply Inv_startInitPing.
  case_match; by repeat inv_step.
Qed.

Ltac inv_ready :=
  lazymatch goal with
  | |- Inv _ (_setReady _) => apply Inv_setReady
  | _ => inv_step
  end.

Lemma Inv_notify issued type payload w : Inv issued w → Inv issued (notify type payload w).
Proof.
  intros HI. unfold notify.
  repeat case_match; by repeat inv_ready.
Qed.

Lemma pending_get_Some id t w : pending_get id w = Some t → (id, t) ∈ _pending w.
Proof.
  unfold pending_get. destruct (list_find _ _) as [[i [id' t']]|] eqn:Hfind; [|done].
  intros [= <-]. apply list_find_Some in Hfind as (Hi & <- & _).
  by eapply list_elem_of_lookup_2.
Qed.

Lemma pending_get_None id w : pending_get id w = None → id ∉ (_pending w).*1.
Proof.
  unfold pending_get. destruct (list_find _ _) as [?|] eqn:Hfind; [done|]. intros _.
  apply list_find_None in Hfind. rewrite Forall_forall in Hfind.
  intros (p & -> & Hp)%list_elem_of_fmap. by apply (Hfind p).
Qed.

Lemma matching_request_Some payload w id t :
  matching_request payload w = Some (id, t) →
  payload.["requestId"] = JStr id ∧ (id, t) ∈ _pending w.
Proof.
  unfold matching_request. destruct payload.["requestId"]; try done.
  case_match; [|done]. destruct (pending_get s w) eqn:Hget; [|done].
  intros [= <- <-]. split; [done|]. by apply pending_get_Some.
Qed.

Lemma Inv_handleMessage issued fromPeer origin data w :
  Inv issued w → Inv issued (_handleMessage fromPeer origin data w).
Proof.
  intros HI. unfold _handleMessage.
  destruct fromPeer; [|done]. simpl.
  destruct (_validateIncomingOrigin origin w); [|done]. simpl.
  destruct (Js.or data (JObj [])).["type"]; try done.
  destruct (matching_request _ w) as [[id t]|] eqn:Hmatch; [|by apply Inv_notify].
  apply matching_request_Some in Hmatch as [_ Hin].
  destruct (Js.truthy _); [destruct (Js.toString _); [|by apply Inv_abandon]|];
    apply Inv_settle_request; try done; simpl.
  - apply String.eqb_refl.
  - intros id' Hne. apply String.eqb_neq. congruence.
  - apply String.eqb_refl.
  - intros id' Hne. apply String.eqb_neq. congruence.
Qed.

Lemma find_timer_Some t tm w : find_timer t w = Some tm → tm ∈ timers w ∧ timer_id tm = t.
Proof.
  unfold find_timer. destruct (list_find _ _) as [[i tm']|] eqn:Hfind; [|done].
  intros [= <-]. apply list_find_Some in Hfind as (Hi & Hid & _).
  split; [by eapply list_elem_of_lookup_2|done].
Qed.

Lemma Inv_fire issued t w : Inv issued w → Inv issued (fire t w).
Proof.
  intros HI. unfold fire.
  destruct (find_timer t w) as [tm|] eqn:Hfind; [|done].
  apply find_timer_Some in Hfind as [Hin Hid]. cbv zeta.
  destruct (timer_task tm) as [|id type ms|src|ms] eqn:Htask.
  - apply Inv_initPing. case_match; [done|].
    apply Inv_clearTimer; [|done]. intros tm' id type ms Hin' Hid' Htask'.
    destruct HI. assert (tm' = tm) as -> by (eapply NoDup_fmap_unique; eauto; congruence).
    congruence.
  - pose proof HI as []. destruct (armed_pending0 tm id type ms Hin Htask) as [Hp ->].
    rewrite Hid in Hp. apply Inv_settle_request; try done; simpl.
    + apply String.eqb_refl.
    + intros id' Hne. apply String.eqb_neq. congruence.
  - assert (Inv issued (if timer_repeats tm then w else clearTimer t w)) as HI'.
    { case_match; [done|].
      apply Inv_clearTimer; [|done]. intros tm' id type ms Hin' Hid' Htask'.
      destruct HI. assert (tm' = tm) as -> by (eapply NoDup_fmap_unique; eauto; congruence).
      congruence. }
    set (w' := if timer_repeats tm then w else clearTimer t w) in *.
    destruct (_isReady w' || _reconnectStopped w'); [done|]. by repeat inv_step.
  - apply Inv_settle_other; [by intros| |].
    { intros t' error [= <- _]. destruct HI. apply timers_fresh0 in Hin.
      rewrite Hid in Hin. by case_match. }
    case_match; [done|].
    apply Inv_clearTimer; [|done]. intros tm' id type ms' Hin' Hid' Htask'.
    destruct HI. assert (tm' = tm) as -> by (eapply NoDup_fmap_unique; eauto; congruence).
    congruence.
Qed.

Lemma Inv_deliver issued e w : Inv issued w → Inv issued (deliver e w).
Proof.
  intros HI. destruct e; simpl.
  - by apply Inv_handleMessage.
  - by apply Inv_fire.
  - by apply Inv_load.
  - by apply Inv_stopReconnectAttempts.
  - unfold refresh. case_match; [|done]. cbv zeta. by repeat inv_step.
  - unfold loginLinkChanged, _updateIframeSrcFromAttribute. cbv zeta.
    case_match; by repeat inv_step.
  - unfold connectedCallback, _updateIframeSrcFromAttribute. case_match; by repeat inv_step.
  - unfold disconnectedCallback. cbv zeta. by repeat inv_step.
  - by repeat inv_step.
Qed.

Lemma Inv_apply issued op w :
  Inv issued w → Inv (issued ++ option_list (issues op w)) (apply op w).
Proof.
  intros HI. destruct op; cbn [apply issues option_list]; rewrite ?app_nil_r.
  - by apply Inv_deliver.
  - destruct (iframe_contentWindow w); cbn [option_list]; [|by rewrite app_nil_r].
    by apply Inv_send.
  - by repeat inv_step.
  - by apply Inv_setReady.
  - by repeat inv_step.
  - by repeat inv_step.
  - by repeat inv_step.
  - by repeat inv_step.
  - by repeat inv_step.
  - by apply (Inv_view _ w).
  - by repeat inv_step.
Qed.

Lemma Inv_constructor parent_origin request_timeout_ms clock :
  Inv [] (constructor parent_origin request_timeout_ms clock).
Proof.
  constructor; simpl; try done; try apply NoDup_nil_2;
    intros; by repeat match goal with H : _ ∈ [] |- _ => apply elem_of_nil in H end.
Qed.

Lemma Inv_run ops issued w :
  Inv issued w →
  let state :=
    fold_left (fun state op => (apply op state.1, state.2 ++ option_list (issues op state.1)))
      ops (w, issued) in
  Inv state.2 state.1.
Proof.
  revert issued w. induction ops as [|op ops IH]; intros issued w HI; simpl; [done|].
  apply IH. by apply Inv_apply.
Qed.

(** *** Messages that match no request *)

Lemma setReady_ledger w :
  _pending (_setReady w) = _pending w ∧
  ∀ id, settlements id (settled (_setReady w)) = settlements id (settled w).
Proof.
  unfold _setReady, _stopInitPing. repeat case_match; simpl; split; try done;
    intros id; by rewrite settlements_other.
Qed.

Lemma notify_ledger type payload w :
  _pending (notify type payload w) = _pending w ∧
  ∀ id, settlements id (settled (notify type payload w)) = settlements id (settled w).
Proof.
  unfold notify.
  repeat case_match; simpl;
    repeat match goal with
           | |- context [_setReady ?w] =>
               let H1 := fresh in let H2 := fresh in
               destruct (setReady_ledger w) as [H1 H2]; rewrite ?H1;
               try setoid_rewrite H2; clear H1 H2
           end; done.
Qed.

Lemma matching_request_None payload w :
  (∀ id, payload.["requestId"] = JStr id → id ∉ (_pending w).*1) →
  matching_request payload w = None.
Proof.
  intros Habsent. unfold matching_request.
  destruct payload.["requestId"] as [| | | | |id| |] eqn:Hid; try done.
  case_match; [|done]. destruct (pending_get id w) as [t|] eqn:Hget; [|done].
  destruct (Habsent id eq_refl). eauto using pending_get_Some, pending_key.
Qed.

(** *** Requests out of the ledger *)

Lemma bypasses_refl id w : bypasses id w w.
Proof. by intros ?. Qed.

Lemma bypasses_trans id w w1 w2 : bypasses id w w1 → bypasses id w1 w2 → bypasses id w w2.
Proof.
  intros H1 H2 Hout. destruct (H1 Hout) as [Hout1 Heq1].
  destruct (H2 Hout1) as [Hout2 Heq2]. split; [done|congruence].
Qed.

Lemma bypasses_same id w w' :
  _pending w' = _pending w → settled w' = settled w → bypasses id w w'.
Proof. intros Hp Hs Hout. by rewrite Hp, Hs. Qed.

Lemma bypasses_quiet id (f : World → World) w :
  (∀ w, view (f w) = view w) → bypasses id w (f w).
Proof.
  intros Hf. specialize (Hf w). unfold view in Hf.
  injection Hf as _ Hp _ _ _ Hs. by apply bypasses_same.
Qed.

Lemma bypasses_setTimer id delay repeats task w :
  bypasses id w (setTimer delay repeats task w).2.
Proof. by apply bypasses_same. Qed.

Lemma bypasses_clearTimer id t w : bypasses id w (clearTimer t w).
Proof. by apply bypasses_same. Qed.

Lemma bypasses_stopInitPing id w : bypasses id w (_stopInitPing w).
Proof. unfold _stopInitPing. destruct (_initPingTimer w); by apply bypasses_same. Qed.

Lemma bypasses_settle id s w : settles_request id s = false → bypasses id w (settle s w).
Proof. intros Hs Hout. split; [done|]. simpl. by rewrite settlements_other. Qed.

Lemma bypasses_pending_delete id id' w : bypasses id w (pending_delete id' w).
Proof.
  intros Hout. split; [|done]. simpl.
  intros (p & -> & [_ Hp]%list_elem_of_filter)%list_elem_of_fmap.
  apply Hout. by apply list_elem_of_fmap_2.
Qed.

Lemma settlements_rejections_absent id error pending :
  id ∉ pending.*1 → settlements id (rejections error pending) = [].
Proof.
  unfold settlements, rejections.
  induction pending as [|[k t] l IH]; intros Hout; [done|].
  rewrite fmap_cons, not_elem_of_cons in Hout. destruct Hout as [Hne Hout]. simpl in Hne.
  rewrite fmap_cons, filter_cons_False; [by apply IH|].
  simpl. apply String.eqb_neq in Hne. rewrite String.eqb_sym. by rewrite Hne.
Qed.

Lemma bypasses_rejectPending id error w : bypasses id w (_rejectPending error w).
Proof.
  intros Hout.
  destruct (rejectPending_view error w) as (_ & Hpending & _ & _ & _ & Hsettled).
  rewrite Hpending, Hsettled. split; [apply not_elem_of_nil|].
  by rewrite settlements_app, settlements_rejections_absent, app_nil_r.
Qed.

Lemma bypasses_setReady id w : bypasses id w (_setReady w).
Proof.
  intros Hout. destruct (setReady_ledger w) as [Hp Hs]. by rewrite Hp, Hs.
Qed.

Lemma bypasses_notify id type payload w : bypasses id w (notify type payload w).
Proof.
  intros Hout. destruct (notify_ledger type payload w) as [Hp Hs]. by rewrite Hp, Hs.
Qed.

Ltac bypass :=
  lazymatch goal with
  | |- bypasses _ ?w ?w => apply bypasses_refl
  | |- bypasses ?id ?w (_stopInitPing ?w') =>
      apply (bypasses_trans id w w'); [|apply bypasses_stopInitPing]
  | |- bypasses ?id ?w (_rejectPending ?e ?w') =>
      apply (bypasses_trans id w w'); [|apply bypasses_rejectPending]
  | |- bypasses ?id ?w (_setReady ?w') =>
      apply (bypasses_trans id w w'); [|apply bypasses_setReady]
  | |- bypasses ?id ?w (settle ?s ?w') =>
      apply (bypasses_trans id w w');
      [|apply bypasses_settle; first [done|simpl; apply String.eqb_neq; congruence]]
  | |- bypasses ?id ?w (snd (setTimer ?d ?r ?t ?w')) =>
      apply (bypasses_trans id w w'); [|apply bypasses_setTimer]
  | |- bypasses ?id ?w (clearTimer ?t ?w') =>
      apply (bypasses_trans id w w'); [|apply bypasses_clearTimer]
  | |- bypasses ?id ?w (pending_delete ?id' ?w') =>
      apply (bypasses_trans id w w'); [|apply bypasses_pending_delete]
  | |- bypasses ?id ?w (?f ?w') =>
      apply (bypasses_trans id w w'); [|apply (bypasses_quiet id f w'); quiet]
  end.

Lemma bypasses_stopReconnectAttempts id reason w :
  bypasses id w (stopReconnectAttempts reason w).
Proof. unfold stopReconnectAttempts. cbv zeta. by repeat bypass. Qed.

Lemma bypasses_retryIframeLoad id w : bypasses id w (_retryIframeLoad w).
Proof. unfold _retryIframeLoad. cbv zeta. case_match; by repeat bypass. Qed.

Lemma bypasses_initPing id w : bypasses id w (initPing w).
Proof.
  unfold initPing. cbv zeta. repeat case_match; try (by repeat bypass).
  - eapply bypasses_trans; [|apply bypasses_retryIframeLoad]. by repeat bypass.
  - eapply bypasses_trans; [|apply (bypasses_quiet id); quiet].
    eapply bypasses_trans; [|apply bypasses_stopReconnectAttempts]. by repeat bypass.
Qed.

Lemma bypasses_startInitPing id w : bypasses id w (_startInitPing w).
Proof.
  unfold _startInitPing. destruct (_reconnectStopped w); [apply bypasses_refl|]. cbv zeta.
  eapply bypasses_trans; [apply (bypasses_stopInitPing id w)|].
  apply bypasses_same; unfold _postRaw;
    destruct (negb (iframe_contentWindow _)); reflexivity.
Qed.

Lemma bypasses_load id w : bypasses id w (load w).
Proof.
  unfold load, _handleLoad. cbv zeta.
  eapply bypasses_trans; [|apply bypasses_startInitPing].
  case_match; by repeat bypass.
Qed.

Lemma bypasses_handleMessage id fromPeer origin data w :
  bypasses id w (_handleMessage fromPeer origin data w).
Proof.
  unfold _handleMessage.
  destruct (negb fromPeer); [apply bypasses_refl|].
  destruct (negb (_validateIncomingOrigin origin w)); [apply bypasses_refl|]. cbv zeta.
  destruct ((Js.or data (JObj [])).["type"]) as [| | | | |type| |]; try apply bypasses_refl.
  destruct (matching_request _ w) as [[id' t]|] eqn:Hmatch; [|apply bypasses_notify].
  apply matching_request_Some in Hmatch as [_ Hin].
  destruct (decide (id = id')) as [->|Hne].
  { intros Hout. destruct Hout. by apply (list_elem_of_fmap_2 fst _ (id', t)). }
  repeat case_match; by repeat bypass.
Qed.

Lemma bypasses_fire issued id t w : Inv issued w → bypasses id w (fire t w).
Proof.
  intros HI. unfold fire.
  destruct (find_timer t w) as [tm|] eqn:Hfind; [|apply bypasses_refl].
  apply find_timer_Some in Hfind as [Hin Hid]. cbv zeta.
  destruct (timer_task tm) as [|id' type ms|src|ms] eqn:Htask.
  - eapply bypasses_trans; [|apply bypasses_initPing]. case_match; by repeat bypass.
  - destruct (armed_pending _ _ HI tm id' type ms Hin Htask) as [Hp _].
    destruct (decide (id = id')) as [->|Hne].
    { intros Hout. destruct Hout. eauto using pending_key. }
    case_match; by repeat bypass.
  - set (w' := if timer_repeats tm then w else clearTimer t w).
    assert (bypasses id w w') as Hw' by (subst w'; case_match; by repeat bypass).
    destruct (_isReady w' || _reconnectStopped w'); [done|]. by repeat bypass.
  - case_match; by repeat bypass.
Qed.

Lemma bypasses_deliver issued id e w : Inv issued w → bypasses id w (deliver e w).
Proof.
  intros HI. destruct e; simpl.
  - apply bypasses_handleMessage.
  - by apply (bypasses_fire issued).
  - apply bypasses_load.
  - apply bypasses_stopReconnectAttempts.
  - unfold refresh. case_match; [|apply bypasses_refl]. cbv zeta. by repeat bypass.
  - unfold loginLinkChanged, _updateIframeSrcFromAttribute. cbv zeta.
    case_match; by repeat bypass.
  - unfold connectedCallback, _updateIframeSrcFromAttribute. case_match; by repeat bypass.
  - unfold disconnectedCallback. cbv zeta. by repeat bypass.
  - by repeat bypass.
Qed.

Lemma bypasses_apply issued id op w :
  Inv issued w → id ∈ issued → bypasses id w (apply op w).
Proof.
  intros HI Hissued. destruct op; cbn [apply].
  - by apply (bypasses_deliver issued).
  - destruct (iframe_contentWindow w); [|apply bypasses_refl].
    pose proof (Inv_fresh issued w (now w) HI) as Hfresh.
    destruct (send_view type data options w)
      as (_ & _ & Hpending & _ & _ & _ & Hsettled).
    { intros Hin. apply Hfresh. by apply (pending_issued _ _ HI). }
    intros Hout. rewrite Hpending, Hsettled. split; [|done].
    rewrite fmap_app, not_elem_of_app. split; [done|].
    intros ->%list_elem_of_singleton. done.
  - by repeat bypass.
  - apply bypasses_setReady.
  - by repeat bypass.
  - by repeat bypass.
  - by repeat bypass.
  - by repeat bypass.
  - by repeat bypass.
  - by apply bypasses_same.
  - by repeat bypass.
Qed.

(** A request that is lost stays lost, whatever happens next. *)
Lemma abandoned_run ops issued id w :
  Inv issued w → id ∈ issued → abandoned id w →
  let state :=
    fold_left (fun state op => (apply op state.1, state.2 ++ option_list (issues op state.1)))
      ops (w, issued) in
  id ∈ state.2 ∧ abandoned id state.1 ∧ Inv state.2 state.1.
Proof.
  revert issued w. induction ops as [|op ops IH]; intros issued w HI Hissued Hlost; simpl;
    [done|].
  apply IH.
  - by apply Inv_apply.
  - apply elem_of_app. by left.
  - destruct Hlost as [Hout Hnone].
    destruct (bypasses_apply issued id op w HI Hissued Hout) as [Hout' Heq].
    split; [done|congruence].
Qed.


End LedgerFacts.

(** C1, where the code departs from it.  A request is sent and the peer
    answers it with an [error] that is an object with a key [toString] of its
    own.  The handler clears the request's timeout and deletes its ledger
    entry, and then [new Error(payload.error)] throws before [reject] is
    called: the request is out of the ledger, its timeout is gone and it has
    no settlement.  Nothing that happens later settles it: whatever events
    and method steps follow, it stays out of the ledger, with no timeout
    armed and no call of [resolve] or [reject].  (The same answer with the
    error ['boom'] rejects the request once.) *)
Theorem unprintable_error_leaves_request_unsettled (later : list Ledger.Op) :
  let sending :=
    [Ledger.Deliver (Loop.Connected (Some "https://bbx.example/login"));
     Ledger.Deliver Loop.Loaded;
     Ledger.Send "getTabs" (JObj []) Requests.no_options] in
  let answer (error : JsVal) :=
    Ledger.Deliver
      (Loop.Message true "https://bbx.example"
         (JObj [("type", JStr "response"); ("requestId", JStr "bbx-1700-1");
                ("error", error)])) in
  let start := Element.constructor None None 1700 in
  let sent := Ledger.run sending start in
  let refused := Ledger.run (sending ++ [answer (JStr "boom")]) start in
  let lost := Ledger.run (sending ++ [answer (JObj [("toString", JNum 1)])]) start in
  let final := Ledger.run (sending ++ [answer (JObj [("toString", JNum 1)])] ++ later) start in
  sent.2 = ["bbx-1700-1"] ∧
  _pending sent.1 = [("bbx-1700-1", 2)] ∧
  timers sent.1 =
    [mkTimer 1 1000 true InitPing;
     mkTimer 2 30000 false (RequestTimeout "bbx-1700-1" "getTabs" 30000)] ∧
  (_pending refused.1 = [] ∧
   settled refused.1 = [Reject "bbx-1700-1" (Error "boom")]) ∧
  (_pending lost.1 = [] ∧
   timers lost.1 = [mkTimer 1 1000 true InitPing] ∧
   settled lost.1 = []) ∧
  ("bbx-1700-1" ∈ final.2 ∧
   ("bbx-1700-1" ∉ (_pending final.1).*1) ∧
   Forall (fun tm => Ledger.is_request_timeout "bbx-1700-1" tm = false) (timers final.1) ∧
   Ledger.settlements "bbx-1700-1" (settled final.1) = []).
Proof.
  intros sending answer start sent refused lost final.
  do 3 (split; [vm_compute; reflexivity|]).
  split; [vm_compute; by split|]. split; [vm_compute; by split|].
  pose proof (Inv_run (sending ++ [answer (JObj [("toString", JNum 1)])]) [] start
                (Inv_constructor None None 1700)) as HI.
  fold (Ledger.run (sending ++ [answer (JObj [("toString", JNum 1)])]) start) in HI.
  fold lost in HI. cbv zeta in HI.
  assert (lost.2 = ["bbx-1700-1"]) as Hissued by (vm_compute; reflexivity).
  assert (Ledger.abandoned "bbx-1700-1" lost.1) as Hlost.
  { split; [|vm_compute; reflexivity].
    replace (_pending lost.1) with (@nil (string * nat)) by (vm_compute; reflexivity).
    apply not_elem_of_nil. }
  assert (final =
          fold_left
            (fun state op =>
               (Ledger.apply op state.1,
                state.2 ++ option_list (Ledger.issues op state.1)))
            later (lost.1, lost.2)) as Hfinal.
  { subst final lost. unfold Ledger.run. rewrite app_assoc, fold_left_app.
    by destruct (fold_left _ (sending ++ _) _). }
  clearbody lost final. subst final.
  destruct (abandoned_run later lost.2 "bbx-1700-1" lost.1 HI)
    as (Hsent & [Hout Hnone] & HI').
  { rewrite Hissued. apply elem_of_cons. by left. }
  { done. }
  cbv zeta in Hsent, Hout, Hnone, HI'.
  split; [done|]. split; [done|]. split; [|done].
  apply Forall_forall. intros tm Hin.
    destruct (Ledger.is_request_timeout "bbx-1700-1" tm) eqn:Hreq; [|done].
    apply request_timeout_task in Hreq as (type & ms & Htask).
    destruct (Ledger.armed_pending _ _ HI' tm _ type ms Hin Htask) as [Hp _].
    destruct Hout. by apply (list_elem_of_fmap_2 fst _ ("bbx-1700-1", timer_id tm)).
Qed.

(** X1.  Whatever has happened to an element since its construction, a
    request it has sent is in exactly one of three states: in flight (in the
    ledger, its timeout armed, no settlement yet), over (out of the ledger,
    settled by exactly one call of [resolve] or [reject]), or lost (out of the
    ledger with no settlement at all, which is what an answer leaves behind
    whose [error] makes [new Error] throw). *)
Theorem sent_request_in_flight_or_settled_once
    (parent_origin : option string) (request_timeout_ms : option Z) (clock : Z)
    (ops : list Ledger.Op) (requestId : string) :
  let state := Ledger.run ops (Element.constructor parent_origin request_timeout_ms clock) in
  requestId ∈ state.2 →
  (Ledger.in_flight requestId state.1 ∧
   ¬ Ledger.settled_once requestId state.1 ∧ ¬ Ledger.abandoned requestId state.1) ∨
  (Ledger.settled_once requestId state.1 ∧
   ¬ Ledger.in_flight requestId state.1 ∧ ¬ Ledger.abandoned requestId state.1) ∨
  (Ledger.abandoned requestId state.1 ∧
   ¬ Ledger.in_flight requestId state.1 ∧ ¬ Ledger.settled_once requestId state.1).
Proof.
  intros state Hsent.
  pose proof (Inv_run ops [] _ (Inv_constructor parent_origin request_timeout_ms clock))
    as HI.
  fold (Ledger.run ops (Element.constructor parent_origin request_timeout_ms clock)) in HI.
  fold state in HI. simpl in HI.
  destruct (Ledger.once _ _ HI requestId Hsent) as [Hfly|[Hover|Hlost]];
    [left|right; left|right; right]; (split; [done|]); split.
  - intros [_ Hone]. destruct Hfly as [_ Hnone]. by rewrite Hnone in Hone.
  - intros [Hout _]. destruct Hfly as [(t & Hin & _) _].
    destruct Hout. by apply (list_elem_of_fmap_2 fst _ (requestId, t)).
  - intros [_ Hnone]. destruct Hover as [_ Hone]. by rewrite Hnone in Hone.
  - intros [_ Hnone]. destruct Hover as [_ Hone]. by rewrite Hnone in Hone.
  - intros [(t & Hin & _) _]. destruct Hlost as [Hout _].
    destruct Hout. by apply (list_elem_of_fmap_2 fst _ (requestId, t)).
  - intros [_ Hone]. destruct Hlost as [_ Hnone]. by rewrite Hnone in Hone.
Qed.

Lemma sent_request_in_flight_or_settled_once_witness :
  let ops :=
    [Ledger.Deliver (Loop.Connected (Some "https://bbx.example/login"));
     Ledger.Deliver Loop.Loaded;
     Ledger.Send "getTabs" (JObj []) Requests.no_options;
     Ledger.Send "getActiveTab" (JObj []) Requests.no_options;
     Ledger.Send "getFavicons" (JObj []) Requests.no_options;
     Ledger.Deliver (Scenario.reply "bbx-1700-1" (JArr []));
     Ledger.Deliver
       (Loop.Message true "https://bbx.example"
          (JObj [("type", JStr "reply"); ("requestId", JStr "bbx-1700-3");
                 ("error", JObj [("toString", JNum 1)])]));
     Ledger.Deliver (Loop.TimerFires 2)] in
  let state := Ledger.run ops (Element.constructor None None 1700) in
  state.2 = ["bbx-1700-1"; "bbx-1700-2"; "bbx-1700-3"] ∧
  Ledger.settled_once "bbx-1700-1" state.1 ∧
  Ledger.in_flight "bbx-1700-2" state.1 ∧
  Ledger.abandoned "bbx-1700-3" state.1.
Proof.
  intros ops state.
  assert (state.2 = ["bbx-1700-1"; "bbx-1700-2"; "bbx-1700-3"]) as Hsent
    by (vm_compute; reflexivity).
  assert (Ledger.settlements "bbx-1700-1" (settled state.1) ≠ []) as Hfirst
    by (vm_compute; discriminate).
  assert ("bbx-1700-2" ∈ (_pending state.1).*1) as Hsecond
    by (vm_compute; apply elem_of_cons; by left).
  assert (("bbx-1700-3" ∉ (_pending state.1).*1) ∧
          Ledger.settlements "bbx-1700-3" (settled state.1) = []) as [Hthird Hnone].
  { split; [|vm_compute; reflexivity]. vm_compute.
    intros [Heq|Hin%elem_of_nil]%elem_of_cons; [discriminate Heq|done]. }
  split; [exact Hsent|]. split; [|split].
  - destruct (sent_request_in_flight_or_settled_once None None 1700 ops "bbx-1700-1")
      as [[[_ Hnone'] _]|[[Hover _]|[[_ Hnone'] _]]].
    + fold state. rewrite Hsent. apply elem_of_cons. by left.
    + by destruct Hfirst.
    + exact Hover.
    + by destruct Hfirst.
  - destruct (sent_request_in_flight_or_settled_once None None 1700 ops "bbx-1700-2")
      as [[Hfly _]|[[[Hout _] _]|[[Hout _] _]]].
    + fold state. rewrite Hsent. apply elem_of_cons. right. apply elem_of_cons. by left.
    + exact Hfly.
    + by destruct Hout.
    + by destruct Hout.
  - by split.
Defined.

(** X2.  Whatever has happened to an element since its construction, no
    request has had more than one call of [resolve] or [reject]. *)
Theorem request_never_settled_twice
    (parent_origin : option string) (request_timeout_ms : option Z) (clock : Z)
    (ops : list Ledger.Op) (requestId : string) :
  let state := Ledger.run ops (Element.constructor parent_origin request_timeout_ms clock) in
  length (Ledger.settlements requestId (settled state.1)) ≤ 1.
Proof.
  intros state.
  pose proof (Inv_run ops [] _ (Inv_constructor parent_origin request_timeout_ms clock))
    as HI.
  fold (Ledger.run ops (Element.constructor parent_origin request_timeout_ms clock)) in HI.
  fold state in HI. simpl in HI.
  destruct (Ledger.settlements requestId (settled state.1)) as [|s log] eqn:Hlog;
    [simpl; lia|].
  assert (requestId ∈ state.2) as Hsent
    by (apply (Ledger.settled_issued _ _ HI); by rewrite Hlog).
  destruct (Ledger.once _ _ HI requestId Hsent) as [[_ Hnone]|[[_ Hone]|[_ Hnone]]].
  - by rewrite Hnone in Hlog.
  - rewrite Hlog in Hone. lia.
  - by rewrite Hnone in Hlog.
Qed.

(** X3.  The requests that an element sends all have different ids,
    whatever the clock reads when each is sent. *)
Theorem request_ids_never_reused
    (parent_origin : option string) (request_timeout_ms : option Z) (clock : Z)
    (ops : list Ledger.Op) :
  NoDup (Ledger.run ops (Element.constructor parent_origin request_timeout_ms clock)).2.
Proof.
  pose proof (Inv_run ops [] _ (Inv_constructor parent_origin request_timeout_ms clock))
    as HI.
  simpl in HI. exact (Ledger.issued_nodup _ _ HI).
Qed.

(** X29.  No request reports a timeout below 100 ms, and its timer runs
    for what [setTimeout] makes of the reported time: after any sequence of
    events and method steps since construction, every armed request timeout
    will report a time of at least 100 ms and is armed with the 32-bit delay
    of that time, which is the time itself up to 2147483647 ms and less
    beyond.  With [request-timeout-ms] set to 3000000000 a request is armed
    with delay 0 while its error will say 3000000000ms. *)
Theorem request_timeouts_last_100ms_at_least
    (parent_origin : option string) (request_timeout_ms : option Z) (clock : Z)
    (ops : list Ledger.Op) :
  let w := (Ledger.run ops (Element.constructor parent_origin request_timeout_ms clock)).1 in
  let long :=
    (Ledger.run
       [Ledger.Deliver (Loop.Connected None);
        Ledger.Send "getTabs" (JObj []) Requests.no_options]
       (Element.constructor None (Some 3000000000%Z) 1700)).1 in
  Forall (fun tm =>
            match timer_task tm with
            | RequestTimeout _ _ timeoutMs =>
                (100 ≤ timeoutMs)%Z ∧
                timer_delay tm = Z.max 0 ((timeoutMs + 2 ^ 31) `mod` 2 ^ 32 - 2 ^ 31) ∧
                ((timeoutMs ≤ 2147483647)%Z → timer_delay tm = timeoutMs)
            | _ => True
            end) (timers w) ∧
  timers long = [mkTimer 1 0 false (RequestTimeout "bbx-1700-1" "getTabs" 3000000000)] ∧
  Element.request_timeout_message "getTabs" 3000000000
    = "browserbox-webview request timed out (getTabs) after 3000000000ms".
Proof.
  intros w long.
  pose proof (Inv_run ops [] _ (Inv_constructor parent_origin request_timeout_ms clock))
    as HI.
  fold (Ledger.run ops (Element.constructor parent_origin request_timeout_ms clock)) in HI.
  simpl in HI. fold w in HI.
  split; [|split; vm_compute; reflexivity].
  apply Forall_forall. intros tm Hin.
  destruct (timer_task tm) as [|id type ms| |] eqn:Htask; try done.
  destruct (Ledger.armed_delay _ _ HI tm id type ms Hin Htask) as [Hdelay Hmin].
  split; [done|]. split; [done|].
  intros Hfits. rewrite Hdelay. apply timer_delay_fits. lia.
Qed.

(** ** Inbound messages *)

Section MessageFacts.
Import Element Requests Loop Ledger.

Lemma validate_origin_configured origin allowed w :
  attr_parent_origin w = Some allowed → allowed ≠ "" → allowed ≠ "*" →
  _validateIncomingOrigin origin w = bool_decide (origin = allowed).
Proof.
  intros Hattr Hne Hstar.
  unfold _validateIncomingOrigin, _allowedOrigin, parentOrigin. rewrite Hattr.
  apply String.eqb_neq in Hne as Hne', Hstar as Hstar'. rewrite Hne'. simpl.
  rewrite Hne', Hstar'. simpl. rewrite Hstar'. simpl.
  case_bool_decide as Ho.
  - by apply String.eqb_eq.
  - by apply String.eqb_neq.
Qed.

Lemma filter_all_elem {A} (P : A → Prop) `{∀ x, Decision (P x)} (l : list A) :
  (∀ x, x ∈ l → P x) → filter P l = l.
Proof.
  induction l as [|y l IH]; intros Hall; [done|].
  rewrite filter_cons_True by (apply Hall; apply elem_of_cons; by left).
  f_equal. apply IH. intros x Hx. apply Hall. apply elem_of_cons. by right.
Qed.

Lemma handleMessage_unmatched fromPeer origin data w :
  (∀ id, (Js.or data (JObj [])).["requestId"] = JStr id → id ∉ (_pending w).*1) →
  _pending (_handleMessage fromPeer origin data w) = _pending w ∧
  ∀ id, settlements id (settled (_handleMessage fromPeer origin data w)) =
        settlements id (settled w).
Proof.
  intros Habsent. unfold _handleMessage.
  destruct (negb fromPeer); [done|].
  destruct (negb (_validateIncomingOrigin origin w)); [done|].
  cbv zeta. destruct ((Js.or data (JObj [])).["type"]) as [| | | | |type| |]; try done.
  rewrite (matching_request_None _ _ Habsent).
  apply notify_ledger.
Qed.

Lemma find_timer_elem tm w :
  NoDup (timer_id <$> timers w) → tm ∈ timers w → find_timer (timer_id tm) w = Some tm.
Proof.
  intros Hnd Hin. unfold find_timer.
  destruct (list_find (fun t => timer_id t = timer_id tm) (timers w)) as [[i tm']|] eqn:Hfind.
  - apply list_find_Some in Hfind as (Hi & Hid & _). simpl. f_equal.
    apply (NoDup_fmap_unique timer_id (timers w)); [done| |done|done].
    by eapply list_elem_of_lookup_2.
  - apply list_find_None in Hfind. rewrite Forall_forall in Hfind.
    by destruct (Hfind tm Hin).
Qed.

Lemma pending_in_flight issued id t w :
  Inv issued w → (id, t) ∈ _pending w →
  settlements id (settled w) = [] ∧
  ∃ tm type ms, tm ∈ timers w ∧ timer_id tm = t ∧ timer_repeats tm = false ∧
                timer_task tm = RequestTimeout id type ms.
Proof.
  intros HI Hin.
  pose proof (pending_key _ _ _ Hin) as Hkey.
  destruct (once _ _ HI id (pending_issued _ _ HI id Hkey))
    as [[(t' & Hin' & tm & Htm & Hid & Htask) Hnone]|[[Hout _]|[Hout _]]]; [|done..].
  split; [done|].
  assert (t' = t) as -> by (eapply NoDup_fst_unique; [apply (pending_nodup _ _ HI)|done..]).
  apply request_timeout_task in Htask as (type & ms & Htask).
  exists tm, type, ms. repeat split; try done.
  by destruct (armed_pending _ _ HI tm id type ms Htm Htask).
Qed.

Lemma pending_delete_keys id w : id ∉ (_pending (pending_delete id w)).*1.
Proof.
  unfold pending_delete. simpl. rewrite list_elem_of_fmap.
  intros ([id' t] & -> & Hin). apply list_elem_of_filter in Hin as [Hne _]. by simpl in Hne.
Qed.

Lemma send_frame type data options w :
  attr_parent_origin (send type data options w).2 = attr_parent_origin w ∧
  iframe_contentWindow (send type data options w).2 = iframe_contentWindow w.
Proof. unfold send, setTimer, pending_set. simpl. by repeat case_match. Qed.

Lemma request_id_truthy clock seq : Js.truthy (JStr (request_id clock seq)) = true.
Proof. done. Qed.

Lemma pending_get_last id t pending w :
  id ∉ pending.*1 → _pending w = pending ++ [(id, t)] → pending_get id w = Some t.
Proof.
  intros Hfresh Hpending. unfold pending_get. rewrite Hpending.
  destruct (list_find _ _) as [[i [id' t']]|] eqn:Hfind; simpl.
  - apply list_find_Some in Hfind as (Hi & Hid & _). simpl in Hid. subst id'.
    apply lookup_app_Some in Hi as [Hi|[_ Hi]].
    + destruct Hfresh. apply list_elem_of_fmap. exists (id, t').
      split; [done|]. by eapply list_elem_of_lookup_2.
    + apply list_lookup_singleton_Some in Hi as [_ Hi]. by injection Hi as ->.
  - apply list_find_None in Hfind. rewrite Forall_forall in Hfind.
    destruct (Hfind (id, t)); [|done]. apply elem_of_app. right. by apply list_elem_of_singleton.
Qed.

Lemma filter_fresh_last {A} (P : A → Prop) `{∀ x, Decision (P x)} (l : list A) x :
  (∀ y, y ∈ l → P y) → ¬ P x → filter P (l ++ [x]) = l.
Proof.
  intros Hall Hx. rewrite filter_app, filter_all_elem by done.
  rewrite filter_cons_False, filter_nil by done. apply app_nil_r.
Qed.

End MessageFacts.

(** X4.  [_rejectPending] empties the ledger, disarms the timeouts of the
    requests that were pending and of no other timer, and calls [reject]
    with the given error exactly once for each request that was pending and
    for no other request. *)
Theorem rejectPending_rejects_each_pending_once
    (error : JsError) (w : World) (requestId : string) :
  NoDup (_pending w).*1 →
  let w' := Element._rejectPending error w in
  _pending w' = [] ∧
  (∀ tm, tm ∈ timers w' ↔ tm ∈ timers w ∧ timer_id tm ∉ (_pending w).*2) ∧
  Ledger.settlements requestId (settled w') =
    Ledger.settlements requestId (settled w) ++
    (if decide (requestId ∈ (_pending w).*1) then [Reject requestId error] else []).
Proof.
  intros Hnd w'.
  destruct (rejectPending_view error w) as (_ & Hpending & _ & Htimers & _ & Hsettled).
  fold w' in Hpending, Htimers, Hsettled.
  split; [done|]. split.
  - intros tm. rewrite Htimers, list_elem_of_filter. tauto.
  - by rewrite Hsettled, settlements_app, settlements_rejections.
Qed.

Lemma rejectPending_rejects_each_pending_once_witness :
  let w :=
    (Ledger.run
       [Ledger.Deliver (Loop.Connected (Some "https://bbx.example/login"));
        Ledger.Send "getTabs" (JObj []) Requests.no_options;
        Ledger.Send "getActiveTab" (JObj []) Requests.no_options]
       (Element.constructor None None 1700)).1 in
  let w' := Element._rejectPending (Error "browserbox-webview disconnected") w in
  _pending w' = [] ∧
  Ledger.settlements "bbx-1700-2" (settled w') =
    [Reject "bbx-1700-2" (Error "browserbox-webview disconnected")].
Proof.
  intros w w'.
  assert ((_pending w).*1 = ["bbx-1700-1"; "bbx-1700-2"]) as Hkeys
    by (vm_compute; reflexivity).
  destruct (rejectPending_rejects_each_pending_once
              (Error "browserbox-webview disconnected") w "bbx-1700-2")
    as (Hempty & _ & Hsettled).
  - rewrite Hkeys. apply (bool_decide_unpack _). vm_compute. reflexivity.
  - split; [exact Hempty|]. fold w' in Hsettled. rewrite Hsettled.
    vm_compute. reflexivity.
Defined.

(** X5.  A message from the peer that names no request of the ledger (a
    late answer to a request that has timed out, an answer to an unknown id)
    settles no request and leaves the ledger as it is. *)
Theorem unmatched_message_settles_nothing
    (fromPeer : bool) (origin : string) (data : JsVal) (w : World) :
  (∀ id, (Js.or data (JObj [])).["requestId"] = JStr id → id ∉ (_pending w).*1) →
  let w' := Element._handleMessage fromPeer origin data w in
  _pending w' = _pending w ∧
  ∀ id, Ledger.settlements id (settled w') = Ledger.settlements id (settled w).
Proof.
  intros Habsent w'. by apply handleMessage_unmatched.
Qed.

Lemma unmatched_message_settles_nothing_witness :
  let w :=
    (Ledger.run
       [Ledger.Deliver (Loop.Connected (Some "https://bbx.example/login"));
        Ledger.Send "getTabs" (JObj []) Requests.no_options;
        Ledger.Deliver (Loop.TimerFires 1)]
       (Element.constructor None None 1700)).1 in
  let late := Ledger.response "bbx-1700-1" [("data", JArr [])] in
  Ledger.settlements "bbx-1700-1"
    (settled (Element._handleMessage true "https://bbx.example" late w)) =
  Ledger.settlements "bbx-1700-1" (settled w).
Proof.
  intros w late.
  assert ((_pending w).*1 = []) as Hkeys by (vm_compute; reflexivity).
  destruct (unmatched_message_settles_nothing true "https://bbx.example" late w)
    as [_ Hsame].
  - intros id _. rewrite Hkeys. apply not_elem_of_nil.
  - apply Hsame.
Defined.

(** X6.  A message is ignored altogether, the element staying exactly as it
    was, when it does not come from the frame's window, when the
    [parent-origin] attribute names an origin other than the sender's, or when
    its [type] is not a string. *)
Theorem untrusted_message_ignored
    (fromPeer : bool) (origin : string) (data : JsVal) (w : World) :
  fromPeer = false ∨
  (∃ allowed, attr_parent_origin w = Some allowed ∧
              allowed ≠ "" ∧ allowed ≠ "*" ∧ origin ≠ allowed) ∨
  (∀ type, (Js.or data (JObj [])).["type"] ≠ JStr type) →
  Element._handleMessage fromPeer origin data w = w.
Proof.
  intros [->|[(allowed & Hattr & Hne & Hstar & Horigin)|Htype]];
    unfold Element._handleMessage; [done|..].
  - rewrite (validate_origin_configured origin allowed) by done.
    rewrite bool_decide_eq_false_2 by done. by destruct fromPeer.
  - destruct (negb fromPeer); [done|].
    destruct (negb (Element._validateIncomingOrigin origin w)); [done|].
    cbv zeta. destruct ((Js.or data (JObj [])).["type"]) as [| | | | |type| |]; try done.
    by destruct (Htype type).
Qed.

Lemma untrusted_message_ignored_witness :
  let w := Element.load
             (Element.connectedCallback (Some "https://bbx.example/login")
                (Element.constructor (Some "https://bbx.example") None 1700)) in
  Element._handleMessage true "https://evil.example"
    (JObj [("type", JStr "tab-api-ready")]) w = w.
Proof.
  intros w. apply untrusted_message_ignored. right. left.
  exists "https://bbx.example".
  split; [vm_compute; reflexivity|]. split; [done|]. split; done.
Defined.

(** X7.  In any state the element can reach, when the timeout of a pending
    request fires, the request leaves the ledger and is rejected with the
    timeout error; an answer that names it and arrives afterwards changes
    nothing of that: the request stays settled by that one rejection. *)
Theorem timed_out_request_stays_rejected
    (parent_origin : option string) (request_timeout_ms : option Z) (clock : Z)
    (ops : list Ledger.Op) (requestId : string) (timer : nat) (origin : string)
    (fields : list (string * JsVal)) :
  let w := (Ledger.run ops (Element.constructor parent_origin request_timeout_ms clock)).1 in
  (requestId, timer) ∈ _pending w →
  let w1 := Element.fire timer w in
  let w2 := Element._handleMessage true origin (Ledger.response requestId fields) w1 in
  (requestId ∉ (_pending w1).*1) ∧
  (∃ type ms,
     Ledger.settlements requestId (settled w1) =
       [Reject requestId (Error (Element.request_timeout_message type ms))]) ∧
  _pending w2 = _pending w1 ∧
  Ledger.settlements requestId (settled w2) = Ledger.settlements requestId (settled w1).
Proof.
  intros w Hin w1 w2.
  pose proof (Inv_run ops [] _ (Inv_constructor parent_origin request_timeout_ms clock))
    as HI.
  fold (Ledger.run ops (Element.constructor parent_origin request_timeout_ms clock)) in HI.
  simpl in HI. fold w in HI. clearbody w.
  destruct (pending_in_flight _ _ _ _ HI Hin)
    as (Hnone & tm & type & ms & Htm & Hid & Hrep & Htask).
  assert (w1 = Element.settle
                 (Reject requestId (Error (Element.request_timeout_message type ms)))
                 (Element.pending_delete requestId (Element.clearTimer timer w))) as Hw1.
  { subst w1. unfold Element.fire. subst timer.
    rewrite (find_timer_elem tm w (Ledger.timers_nodup _ _ HI) Htm).
    by rewrite Hrep, Htask. }
  assert (requestId ∉ (_pending w1).*1) as Hout.
  { rewrite Hw1. apply (pending_delete_keys requestId (Element.clearTimer timer w)). }
  split; [done|]. split.
  - exists type, ms. rewrite Hw1. simpl.
    rewrite settlements_this by (simpl; apply String.eqb_refl).
    by rewrite Hnone.
  - destruct (handleMessage_unmatched true origin (Ledger.response requestId fields) w1)
      as [Hpending Hsettled]; [|by split].
    intros id. unfold Ledger.response, Js.or. simpl. by intros [= <-].
Qed.

Lemma timed_out_request_stays_rejected_witness :
  let w :=
    (Ledger.run
       [Ledger.Deliver (Loop.Connected (Some "https://bbx.example/login"));
        Ledger.Send "getTabs" (JObj []) Requests.no_options]
       (Element.constructor None None 1700)).1 in
  let w1 := Element.fire 1 w in
  let w2 := Element._handleMessage true "https://bbx.example"
              (Ledger.response "bbx-1700-1" [("data", JArr [])]) w1 in
  Ledger.settlements "bbx-1700-1" (settled w2) =
    [Reject "bbx-1700-1"
       (Error "browserbox-webview request timed out (getTabs) after 30000ms")].
Proof.
  intros w w1 w2.
  destruct (timed_out_request_stays_rejected None None 1700
              [Ledger.Deliver (Loop.Connected (Some "https://bbx.example/login"));
               Ledger.Send "getTabs" (JObj []) Requests.no_options]
              "bbx-1700-1" 1 "https://bbx.example" [("data", JArr [])])
    as (_ & _ & _ & Hsame).
  - fold w. assert (_pending w = [("bbx-1700-1", 1)]) as -> by (vm_compute; reflexivity).
    apply list_elem_of_singleton. reflexivity.
  - fold w w1 w2 in Hsame. rewrite Hsame. vm_compute. reflexivity.
Defined.

(** X8.  In any state the element can reach, a request followed by the
    peer's answer to it comes full circle: the promise of the request is
    resolved with the answer's [data], and the ledger and the timers are again
    what they were before the request. *)
Theorem request_answered_round_trip
    (parent_origin : option string) (request_timeout_ms : option Z) (clock : Z)
    (ops : list Ledger.Op) (type : string) (data : JsVal)
    (options : Requests.RequestOptions) (origin : string) (value : JsVal) :
  let w := (Ledger.run ops (Element.constructor parent_origin request_timeout_ms clock)).1 in
  Element._validateIncomingOrigin origin w = true →
  let sent := Requests.send type data options w in
  let w' := Element._handleMessage true origin
              (Ledger.response sent.1 [("data", value)]) sent.2 in
  _pending w' = _pending w ∧
  timers w' = timers w ∧
  settled w' = settled w ++ [Resolve sent.1 value].
Proof.
  intros w Horigin sent w'.
  pose proof (Inv_run ops [] _ (Inv_constructor parent_origin request_timeout_ms clock))
    as HI.
  fold (Ledger.run ops (Element.constructor parent_origin request_timeout_ms clock)) in HI.
  simpl in HI. fold w in HI. clearbody w.
  set (issued := (Ledger.run ops _).2) in HI. clearbody issued.
  assert (Requests.request_id (now w) (S (_requestSeq w)) ∉ (_pending w).*1) as Hfresh.
  { intros Hin. apply (Ledger.pending_issued _ _ HI) in Hin. by apply Inv_fresh in Hin. }
  destruct (send_view type data options w Hfresh)
    as (Hid & _ & Hpending & _ & Htimers & _ & Hsettled).
  destruct (send_frame type data options w) as [Hattr _].
  fold sent in Hid, Hpending, Htimers, Hsettled, Hattr.
  assert (Element._validateIncomingOrigin origin sent.2 = true) as Horigin'.
  { revert Horigin.
    unfold Element._validateIncomingOrigin, Element._allowedOrigin, Element.parentOrigin.
    by rewrite Hattr. }
  subst w'. clearbody sent. destruct sent as [id w1]. simpl in *. subst id.
  unfold Element._handleMessage, Ledger.response, Js.or.
  rewrite Horigin'. simpl. unfold Element.matching_request. simpl.
  rewrite (pending_get_last _ (next_timer w) (_pending w)) by done.
  simpl. rewrite Hpending, Htimers, Hsettled. repeat split.
  - apply filter_fresh_last; [|simpl; by intros []].
    intros [id t] Hin. simpl. intros ->. destruct Hfresh.
    apply list_elem_of_fmap. by exists (Requests.request_id (now w) (S (_requestSeq w)), t).
  - apply filter_fresh_last; [|simpl; by intros []].
    intros tm Hin. apply (Ledger.timers_fresh _ _ HI) in Hin. lia.
Qed.

Lemma request_answered_round_trip_witness :
  let w :=
    (Ledger.run [Ledger.Deliver (Loop.Connected (Some "https://bbx.example/login"))]
       (Element.constructor None None 1700)).1 in
  let sent := Requests.send "getTabs" (JObj []) Requests.no_options w in
  settled (Element._handleMessage true "https://bbx.example"
             (Ledger.response sent.1 [("data", JArr [])]) sent.2) =
    [Resolve "bbx-1700-1" (JArr [])].
Proof.
  intros w sent.
  destruct (request_answered_round_trip None None 1700
              [Ledger.Deliver (Loop.Connected (Some "https://bbx.example/login"))]
              "getTabs" (JObj []) Requests.no_options
              "https://bbx.example" (JArr [])) as (_ & _ & Hsettled).
  - vm_compute. reflexivity.
  - fold w sent in Hsettled. rewrite Hsettled. vm_compute. reflexivity.
Defined.

(** ** The tab cache and tab identities *)

Section CacheViewFacts.
Import TabCache CacheView.

Lemma set_prop_keys k v ps :
  (Js.set_prop k v ps).*1 = if decide (k ∈ ps.*1) then ps.*1 else ps.*1 ++ [k].
Proof.
  induction ps as [|[k' v'] ps IH]; csimpl; [done|].
  destruct (String.eqb k' k) eqn:E.
  - apply String.eqb_eq in E. subst k'. rewrite decide_True by (apply elem_of_cons; by left).
    done.
  - apply String.eqb_neq in E. csimpl. rewrite IH.
    destruct (decide (k ∈ ps.*1)) as [Hin|Hout].
    + rewrite decide_True by (apply elem_of_cons; by right). done.
    + rewrite decide_False; [done|]. rewrite elem_of_cons. intros [->|?]; done.
Qed.

Lemma set_prop_NoDup k v ps : NoDup ps.*1 → NoDup (Js.set_prop k v ps).*1.
Proof.
  intros Hnd. rewrite set_prop_keys. case_decide; [done|].
  apply NoDup_app. split; [done|]. split; [|apply NoDup_singleton].
  intros x Hx Hk. apply list_elem_of_singleton in Hk. by subst.
Qed.

Lemma assign_NoDup target source : NoDup target.*1 → NoDup (Js.assign target source).*1.
Proof.
  unfold Js.assign. revert target.
  induction source as [|[k v] source IH]; intros target Hnd; simpl; [done|].
  by apply IH, set_prop_NoDup.
Qed.

Lemma set_prop_fresh k v ps : k ∉ ps.*1 → Js.set_prop k v ps = ps ++ [(k, v)].
Proof.
  induction ps as [|[k' v'] ps IH]; simpl; [done|].
  rewrite not_elem_of_cons. intros [Hne Hout].
  apply not_eq_sym, String.eqb_neq in Hne. rewrite Hne. by rewrite IH.
Qed.

Lemma assign_fresh target source :
  NoDup (target ++ source).*1 → Js.assign target source = target ++ source.
Proof.
  unfold Js.assign. revert target.
  induction source as [|[k v] source IH]; intros target Hnd; simpl.
  - by rewrite app_nil_r.
  - rewrite set_prop_fresh.
    + rewrite IH; [by rewrite <- app_assoc|]. by rewrite <- app_assoc.
    + rewrite fmap_app in Hnd. apply NoDup_app in Hnd as (_ & Hdisj & _).
      intros Hin. apply (Hdisj k Hin). simpl. apply elem_of_cons. by left.
Qed.

Lemma assign_nil ps : NoDup ps.*1 → Js.assign [] ps = ps.
Proof. intros. by apply (assign_fresh []). Qed.

Lemma set_prop_twice k v v' ps : Js.set_prop k v (Js.set_prop k v' ps) = Js.set_prop k v ps.
Proof.
  induction ps as [|[k' v0] ps IH]; simpl.
  - by rewrite String.eqb_refl.
  - destruct (String.eqb k' k) eqn:E; simpl.
    + by rewrite String.eqb_refl.
    + by rewrite E, IH.
Qed.

Lemma set_prop_same k v ps : Js.lookup_prop k ps = Some v → Js.set_prop k v ps = ps.
Proof.
  induction ps as [|[k' v'] ps IH]; simpl; [done|].
  destruct (String.eqb k' k) eqn:E.
  - apply String.eqb_eq in E. by intros [= ->]; subst.
  - intros Hl. by rewrite IH.
Qed.

(** The keys of a spread: each once. *)
Lemma spread_NoDup tab : Js.unique_keys tab → NoDup (Js.spread tab).*1.
Proof.
  destruct tab as [| | | | |s|items|ps]; simpl; try (intros; apply NoDup_nil_2).
  - intros _.
    by destruct (numeric_keys JStr (Js.units s)).
  - intros _. by destruct (numeric_keys (fun x => x) items).
  - done.
Qed.

Lemma stamp_entry_object i tab : entry_object (stamp i tab).
Proof.
  eexists. split; [reflexivity|]. apply set_prop_NoDup, assign_NoDup, NoDup_nil_2.
Qed.

Lemma entry_object_unique_keys tab : entry_object tab → Js.unique_keys tab.
Proof. by intros (ps & -> & Hnd). Qed.

(** A key made of digits only is none of the property names that identify
    a tab. *)
Lemma lookup_numeric_key {A} (f : A → JsVal) (l : list A) k :
  ¬ digits k → Js.lookup_prop k (imap (fun i x => (pretty i, f x)) l) = None.
Proof.
  intros Hk. apply lookup_prop_None. rewrite fmap_imap.
  intros Hin. apply elem_of_lookup_imap_1 in Hin as (j & c & Hj & _).
  simpl in Hj. destruct Hk. rewrite Hj. apply pretty_nat_digits.
Qed.

Lemma normalizeTabId_ext ps ps' :
  Js.lookup_prop "id" ps = Js.lookup_prop "id" ps' →
  Js.lookup_prop "tabId" ps = Js.lookup_prop "tabId" ps' →
  Js.lookup_prop "targetId" ps = Js.lookup_prop "targetId" ps' →
  _normalizeTabId (JObj ps) = _normalizeTabId (JObj ps').
Proof.
  intros Hid HtabId HtargetId. unfold _normalizeTabId. simpl.
  by rewrite Hid, HtabId, HtargetId.
Qed.

Lemma lookup_stamp i ps k :
  NoDup ps.*1 → k ≠ "index" →
  Js.lookup_prop k (Js.set_prop "index" (JNum (Z.of_nat i)) (Js.assign [] ps)) =
    Js.lookup_prop k ps.
Proof.
  intros Hnd Hk. rewrite lookup_set_prop_ne by done. by rewrite assign_nil.
Qed.

(** The spread of an array or of a string has no property that identifies
    a tab. *)
Lemma normalizeTabId_numeric {A} (f : A → JsVal) (l : list A) i :
  _normalizeTabId
    (JObj (Js.set_prop "index" (JNum (Z.of_nat i))
             (Js.assign [] (imap (fun i x => (pretty i, f x)) l)))) = None.
Proof.
  destruct (numeric_keys f l) as [Hnd _].
  etransitivity; [apply (normalizeTabId_ext _ [])|done];
    (rewrite lookup_stamp by done; apply lookup_numeric_key; by inversion 1).
Qed.

(** Stamping an entry with a position does not change the tab that it
    identifies. *)
Lemma normalizeTabId_stamp i tab :
  Js.unique_keys tab → _normalizeTabId (stamp i tab) = _normalizeTabId tab.
Proof.
  intros Hkeys. unfold stamp.
  destruct tab as [| | | | |s|items|ps];
    try (unfold _normalizeTabId; simpl; by rewrite ?orb_true_r).
  - etransitivity;
      [apply (normalizeTabId_numeric JStr (Js.units s))|].
    unfold _normalizeTabId. simpl. by rewrite orb_true_r.
  - etransitivity; [apply (normalizeTabId_numeric (fun x => x))|done].
  - apply normalizeTabId_ext; by apply lookup_stamp.
Qed.

Lemma tab_ids_reindex cache :
  Forall Js.unique_keys cache → tab_ids (reindex cache) = tab_ids cache.
Proof.
  intros Hkeys. unfold tab_ids, reindex. apply list_eq. intros i.
  rewrite !list_lookup_fmap, list_lookup_imap.
  destruct (cache !! i) as [tab|] eqn:Hi; simpl; [|done].
  f_equal. apply normalizeTabId_stamp.
  rewrite Forall_forall in Hkeys. apply Hkeys. by eapply list_elem_of_lookup_2.
Qed.

Lemma tab_ids_filter tabId cache :
  tab_ids (filter (fun tab => _normalizeTabId tab ≠ Some tabId) cache) =
    filter (fun id => id ≠ Some tabId) (tab_ids cache).
Proof.
  unfold tab_ids. induction cache as [|tab cache IH]; [done|].
  rewrite fmap_cons. destruct (decide (_normalizeTabId tab ≠ Some tabId)).
  - rewrite !filter_cons_True by done. by rewrite fmap_cons, IH.
  - by rewrite !filter_cons_False.
Qed.

Lemma Forall_filter_keep {A} (P Q : A → Prop) `{∀ x, Decision (Q x)} (l : list A) :
  Forall P l → Forall P (filter Q l).
Proof.
  rewrite !Forall_forall. intros Hall x Hx. apply list_elem_of_filter in Hx as [_ Hx]. auto.
Qed.

Lemma Forall_entry_object_unique_keys cache :
  Forall entry_object cache → Forall Js.unique_keys cache.
Proof. intros Hall. eapply Forall_impl; [exact Hall|apply entry_object_unique_keys]. Qed.

Lemma reindex_entry_objects cache : Forall entry_object (reindex cache).
Proof.
  apply Forall_forall. intros tab Hin. unfold reindex in Hin.
  apply elem_of_lookup_imap_1 in Hin as (i & x & -> & _). apply stamp_entry_object.
Qed.

Lemma update_entry_objects detail cache :
  Forall entry_object cache → Forall entry_object (_updateLegacyTabCache detail cache).
Proof.
  intros Hall. unfold _updateLegacyTabCache.
  destruct (_normalizeTabId detail) as [tabId|]; [|done].
  destruct (findIndex tabId cache) as [[index existing]|]; [|done].
  apply Forall_insert; [done|].
  eexists. split; [reflexivity|].
  apply set_prop_NoDup, assign_NoDup, assign_NoDup, NoDup_nil_2.
Qed.

Lemma apply_canonical cache op : canonical cache → canonical (apply cache op).
Proof.
  intros [Hix Hall]. split; [by apply apply_indexed|].
  destruct op as [detail|detail|detail]; simpl.
  - unfold _addLegacyTabCache.
    destruct (_normalizeTabId detail) as [tabId|]; [|done].
    destruct (findIndex tabId cache); [by apply update_entry_objects|].
    apply reindex_entry_objects.
  - by apply update_entry_objects.
  - unfold _removeLegacyTabCache.
    destruct (_normalizeTabId detail); [|done]. apply reindex_entry_objects.
Qed.

Lemma run_canonical ops : canonical (run ops).
Proof.
  unfold run. assert (canonical []) as Hnil.
  { split; [|constructor]. intros i tab Hi. by rewrite lookup_nil in Hi. }
  revert Hnil. generalize (@nil JsVal).
  induction ops as [|op ops IH]; intros cache Hc; simpl; [done|].
  by apply IH, apply_canonical.
Qed.

Lemma splice_in_split start entry l :
  ∃ p, p ≤ length l ∧ splice_in start entry l = take p l ++ entry :: drop p l.
Proof.
  unfold splice_in. eexists. split; [|reflexivity]. case_match; lia.
Qed.

Lemma findIndex_None tabId cache tab :
  findIndex tabId cache = None → tab ∈ cache → _normalizeTabId tab ≠ Some tabId.
Proof.
  unfold findIndex. intros Hnone Hin. apply list_find_None in Hnone.
  rewrite Forall_forall in Hnone. by apply Hnone.
Qed.

(** Stamping twice is stamping once, and an entry that carries its position
    is its own stamp. *)
Lemma stamp_stamp i j tab :
  entry_object tab → tab.["index"] = JNum (Z.of_nat i) → stamp i (stamp j tab) = tab.
Proof.
  intros (ps & -> & Hnd) Hix. unfold stamp. simpl Js.spread.
  rewrite (assign_nil ps) by done.
  rewrite assign_nil by by apply set_prop_NoDup.
  rewrite set_prop_twice. f_equal. apply set_prop_same.
  simpl in Hix. destruct (Js.lookup_prop "index" ps) as [v|]; simpl in Hix; [by subst|done].
Qed.

(** The entry that [_addLegacyTabCache] builds identifies the tab of the
    notification. *)
Lemma normalizeTabId_entry detail index :
  Js.unique_keys detail →
  _normalizeTabId (JObj (Js.set_prop "index" index (Js.assign [] (Js.spread detail)))) =
    _normalizeTabId detail ∨ _normalizeTabId detail = None.
Proof.
  intros Hkeys. destruct (_normalizeTabId detail) as [tabId|] eqn:Hid; [left|by right].
  destruct (normalizeTabId_object _ _ Hid) as [ps ->]. simpl in *. rewrite <- Hid.
  apply normalizeTabId_ext; (rewrite lookup_set_prop_ne by done; by rewrite assign_nil).
Qed.

Lemma add_then_remove detail tabId cache :
  canonical cache → Js.unique_keys detail →
  _normalizeTabId detail = Some tabId → findIndex tabId cache = None →
  _removeLegacyTabCache detail (_addLegacyTabCache detail cache) = cache.
Proof.
  intros [Hix Hall] Hkeys Hid Hfresh.
  unfold _addLegacyTabCache, _removeLegacyTabCache. rewrite Hid, Hfresh.
  set (entry := JObj (Js.set_prop "index" _ _)).
  destruct (splice_in_split
              (Z.of_nat (length cache) `min`
               match detail.["index"] with JNum z => z | _ => Z.of_nat (length cache) end)
              entry cache) as (p & Hp & Hsplice).
  rewrite Z.min_comm in Hsplice. rewrite Hsplice. clear Hsplice.
  assert (_normalizeTabId entry = Some tabId) as Hentry.
  { destruct (normalizeTabId_entry detail
                (JNum match detail.["index"] with
                      | JNum z => z
                      | _ => Z.of_nat (length cache)
                      end) Hkeys) as [Heq|Hnone]; [|congruence].
    subst entry. by rewrite Heq. }
  assert (∀ tab, tab ∈ cache → Js.unique_keys tab) as Hcache_keys.
  { intros tab Hin. rewrite Forall_forall in Hall. by apply entry_object_unique_keys, Hall. }
  assert (∀ (f : nat → nat) l, (∀ tab, tab ∈ l → tab ∈ cache) →
            filter (fun tab => _normalizeTabId tab ≠ Some tabId)
              (imap (fun n => stamp (f n)) l) = imap (fun n => stamp (f n)) l) as Hkeep.
  { intros f l Hl. apply filter_all_elem. intros tab Hin.
    apply elem_of_lookup_imap_1 in Hin as (n & x & -> & Hx).
    apply list_elem_of_lookup_2 in Hx.
    rewrite normalizeTabId_stamp by auto. eapply findIndex_None; eauto. }
  unfold reindex at 2. rewrite imap_app, imap_cons, filter_app.
  rewrite filter_cons_False
    by (intros Hne; apply Hne; rewrite normalizeTabId_stamp; [done|];
        subst entry; apply entry_object_unique_keys;
        eexists; split; [reflexivity|];
        apply set_prop_NoDup, assign_NoDup, NoDup_nil_2).
  rewrite (Hkeep (fun n => n)) by (intros tab Hin; by apply (subseteq_take p cache)).
  fold (compose (fun n => stamp (length (take p cache) + n)) S).
  unfold compose.
  rewrite (Hkeep (fun n => length (take p cache) + S n))
    by (intros tab Hin; by apply (subseteq_drop p cache)).
  apply list_eq. intros i. unfold reindex. rewrite list_lookup_imap.
  rewrite <- (take_drop p cache) at 3.
  destruct (decide (i < p)) as [Hlt|Hge].
  - rewrite !lookup_app_l by (rewrite ?length_imap, length_take; lia).
    rewrite list_lookup_imap.
    destruct (take p cache !! i) as [tab|] eqn:Hi; simpl; [|done].
    f_equal. rewrite lookup_take_lt in Hi by done.
    apply stamp_stamp; [|by apply Hix].
    rewrite Forall_forall in Hall. apply Hall. by eapply list_elem_of_lookup_2.
  - rewrite !lookup_app_r by (rewrite ?length_imap, length_take; lia).
    rewrite length_imap, list_lookup_imap.
    destruct (drop p cache !! (i - length (take p cache))) as [tab|] eqn:Hi; simpl; [|done].
    f_equal. rewrite lookup_drop, length_take in Hi.
    replace (p + (i - p `min` length cache)) with i in Hi by lia.
    apply stamp_stamp; [|by apply Hix].
    rewrite Forall_forall in Hall. apply Hall. by eapply list_elem_of_lookup_2.
Qed.

Lemma normalizeTabId_id ps tabId :
  nonempty_string (JObj ps).["id"] = Some tabId → _normalizeTabId (JObj ps) = Some tabId.
Proof. intros Hid. unfold _normalizeTabId. simpl. simpl in Hid. by rewrite Hid. Qed.

Lemma identified_by_id_object detail :
  identified_by_id detail →
  ∃ ps tabId, detail = JObj ps ∧ NoDup ps.*1 ∧ Js.lookup_prop "id" ps = Some (JStr tabId) ∧
              tabId ≠ "" ∧ _normalizeTabId detail = Some tabId.
Proof.
  intros [Hkeys [tabId Hid]].
  destruct detail as [| | | | |s|items|ps]; try (by simpl in Hid).
  exists ps, tabId. split; [done|]. split; [done|].
  pose proof (normalizeTabId_id ps tabId Hid) as Hnorm. simpl in Hid.
  destruct (Js.lookup_prop "id" ps) as [[| | | | |s| |]|]; try done.
  simpl in Hid. destruct (String.eqb s "") eqn:E; [done|].
  injection Hid as ->. by apply String.eqb_neq in E.
Qed.

(** An update by a notification that carries its tab's [id] leaves every
    entry identifying the tab that it identified. *)
Lemma tab_ids_update detail cache :
  Forall entry_object cache → identified_by_id detail →
  tab_ids (_updateLegacyTabCache detail cache) = tab_ids cache.
Proof.
  intros Hall Hdetail.
  destruct (identified_by_id_object _ Hdetail) as (ps & tabId & -> & Hnd & Hid & Hne & Hnorm).
  unfold _updateLegacyTabCache. rewrite Hnorm.
  destruct (findIndex tabId cache) as [[index existing]|] eqn:Hfind; [|done].
  apply findIndex_Some in Hfind as [Hexisting Hsame].
  unfold tab_ids. rewrite list_fmap_insert.
  apply list_insert_id. rewrite list_lookup_fmap, Hexisting. simpl. f_equal.
  rewrite Hsame. symmetry. apply normalizeTabId_id. simpl.
  rewrite lookup_set_prop_ne by done. simpl Js.spread.
  rewrite lookup_assign, Hid by done. simpl.
  apply String.eqb_neq in Hne. by rewrite Hne.
Qed.

Lemma tab_ids_add_fresh detail tabId cache :
  Forall entry_object cache → Js.unique_keys detail →
  _normalizeTabId detail = Some tabId → findIndex tabId cache = None →
  ∃ p, tab_ids (_addLegacyTabCache detail cache) =
         take p (tab_ids cache) ++ Some tabId :: drop p (tab_ids cache).
Proof.
  intros Hall Hkeys Hid Hfresh. unfold _addLegacyTabCache. rewrite Hid, Hfresh.
  set (entry := JObj (Js.set_prop "index" _ _)).
  destruct (splice_in_split
              (Z.of_nat (length cache) `min`
               match detail.["index"] with JNum z => z | _ => Z.of_nat (length cache) end)
              entry cache) as (p & Hp & Hsplice).
  rewrite Z.min_comm in Hsplice. rewrite Hsplice. clear Hsplice.
  assert (entry_object entry) as Hentry_object.
  { eexists. split; [reflexivity|]. apply set_prop_NoDup, assign_NoDup, NoDup_nil_2. }
  assert (_normalizeTabId entry = Some tabId) as Hentry.
  { destruct (normalizeTabId_entry detail
                (JNum match detail.["index"] with
                      | JNum z => z
                      | _ => Z.of_nat (length cache)
                      end) Hkeys) as [Heq|Hnone]; [|congruence].
    subst entry. by rewrite Heq. }
  exists p. rewrite tab_ids_reindex.
  - unfold tab_ids. by rewrite fmap_app, fmap_cons, fmap_take, fmap_drop, Hentry.
  - apply Forall_entry_object_unique_keys. apply Forall_app. split.
    + by apply Forall_take.
    + constructor; [done|]. by apply Forall_drop.
Qed.

Lemma NoDup_splice {A} (x : A) p l : NoDup l → x ∉ l → NoDup (take p l ++ x :: drop p l).
Proof.
  intros Hnd Hx. rewrite <- (take_drop p l) in Hnd, Hx.
  apply NoDup_app in Hnd as (Htake & Hdisj & Hdrop).
  rewrite not_elem_of_app in Hx. destruct Hx as [Hx1 Hx2].
  apply NoDup_app. split; [done|]. split.
  - intros y Hy. rewrite not_elem_of_cons. split; [by intros ->|by apply Hdisj].
  - by apply NoDup_cons.
Qed.

Lemma apply_no_duplicates cache op :
  names_its_tab op → canonical cache → NoDup (tab_ids cache) →
  NoDup (tab_ids (apply cache op)).
Proof.
  intros Hop [Hix Hall] Hnd.
  destruct op as [detail|detail|detail]; simpl in *.
  - destruct (identified_by_id_object _ Hop) as (ps & tabId & -> & Hps & _ & _ & Hnorm).
    destruct (findIndex tabId cache) as [found|] eqn:Hfind.
    + unfold _addLegacyTabCache. rewrite Hnorm, Hfind. by rewrite tab_ids_update.
    + destruct (tab_ids_add_fresh (JObj ps) tabId cache) as [p ->]; try done.
      apply NoDup_splice; [done|].
      unfold tab_ids. rewrite list_elem_of_fmap. intros (tab & Heq & Hin).
      by eapply findIndex_None.
  - by rewrite tab_ids_update.
  - unfold _removeLegacyTabCache.
    destruct (_normalizeTabId detail) as [tabId|]; [|done].
    rewrite tab_ids_reindex
      by by apply Forall_filter_keep, Forall_entry_object_unique_keys.
    rewrite tab_ids_filter. by apply NoDup_filter.
Qed.

End CacheViewFacts.

(** X9.  [_removeLegacyTabCache] removes the entries that identify the tab
    named by the notification, all of them and no other: what is left
    identifies, in the same order, the tabs that the cache identified before,
    without that one. *)
Theorem tab_closed_removes_that_tab (detail : JsVal) (tabId : string) (cache : list JsVal) :
  Forall Js.unique_keys cache →
  TabCache._normalizeTabId detail = Some tabId →
  CacheView.tab_ids (TabCache._removeLegacyTabCache detail cache) =
    filter (fun id => id ≠ Some tabId) (CacheView.tab_ids cache).
Proof.
  intros Hkeys Hid. unfold TabCache._removeLegacyTabCache. rewrite Hid.
  rewrite tab_ids_reindex by by apply Forall_filter_keep.
  apply tab_ids_filter.
Qed.

Lemma tab_closed_removes_that_tab_witness :
  CacheView.tab_ids
    (TabCache._removeLegacyTabCache (JObj [("tabId", JStr "b")])
       [JObj [("id", JStr "a"); ("index", JNum 0)];
        JObj [("targetId", JStr "b"); ("index", JNum 1)];
        JObj [("id", JStr "c"); ("index", JNum 2)]]) =
  [Some "a"; Some "c"].
Proof.
  rewrite (tab_closed_removes_that_tab _ "b").
  - vm_compute. reflexivity.
  - repeat constructor; simpl; apply (bool_decide_unpack _); vm_compute; reflexivity.
  - vm_compute. reflexivity.
Defined.

(** X10.  A tab created and then closed leaves no trace: when the cache
    built by any sequence of notifications does not know a tab, the
    [tab-created] notification for it followed by its [tab-closed]
    notification gives back the cache as it was, entry for entry. *)
Theorem tab_created_then_closed_restores_cache
    (ops : list TabCache.Op) (detail : JsVal) (tabId : string) :
  Js.unique_keys detail →
  TabCache._normalizeTabId detail = Some tabId →
  TabCache.findIndex tabId (TabCache.run ops) = None →
  TabCache.run (ops ++ [TabCache.Insert detail; TabCache.Remove detail]) = TabCache.run ops.
Proof.
  intros Hkeys Hid Hfresh. unfold TabCache.run. rewrite fold_left_app. simpl.
  apply (add_then_remove detail tabId); [apply run_canonical|done..].
Qed.

Lemma tab_created_then_closed_restores_cache_witness :
  let ops := [TabCache.Insert (JObj [("id", JStr "a"); ("url", JStr "u")]);
              TabCache.Insert (JObj [("id", JStr "b")])] in
  let detail := JObj [("targetId", JStr "c"); ("index", JNum 1)] in
  TabCache.run (ops ++ [TabCache.Insert detail; TabCache.Remove detail]) = TabCache.run ops.
Proof.
  intros ops detail. apply (tab_created_then_closed_restores_cache ops detail "c").
  - simpl. apply (bool_decide_unpack _). vm_compute. reflexivity.
  - vm_compute. reflexivity.
  - vm_compute. reflexivity.
Defined.

(** X11.  As long as the notifications that create and update tabs carry
    their tab's [id], the cache never lists a tab twice: no two entries
    identify the same tab. *)
Theorem tab_cache_lists_each_tab_once (ops : list TabCache.Op) :
  Forall CacheView.names_its_tab ops →
  NoDup (CacheView.tab_ids (TabCache.run ops)).
Proof.
  intros Hops. unfold TabCache.run.
  assert (CacheView.canonical [] ∧ NoDup (CacheView.tab_ids [])) as Hnil.
  { split; [apply (run_canonical [])|apply NoDup_nil_2]. }
  revert Hnil. generalize (@nil JsVal).
  induction Hops as [|op ops Hop Hops IH]; intros cache [Hc Hnd]; simpl; [done|].
  apply IH. split; [by apply apply_canonical|by apply apply_no_duplicates].
Qed.

Lemma tab_cache_lists_each_tab_once_witness :
  NoDup (CacheView.tab_ids
           (TabCache.run
              [TabCache.Insert (JObj [("id", JStr "a"); ("url", JStr "u")]);
               TabCache.Insert (JObj [("id", JStr "a"); ("targetId", JStr "b")]);
               TabCache.Insert (JObj [("id", JStr "b")]);
               TabCache.Update (JObj [("id", JStr "b"); ("tabId", JStr "a")]);
               TabCache.Remove (JObj [("tabId", JStr "c")])])).
Proof.
  apply tab_cache_lists_each_tab_once.
  repeat constructor; simpl; try (by eexists);
    apply (bool_decide_unpack _); vm_compute; reflexivity.
Defined.

(** ** Readiness and the ready promises *)

Section ReadinessFacts.
Import Element Requests Loop Readiness.

Lemma ready_resolutions_view promise log :
  ready_resolutions promise log =
    ready_resolutions promise (filter (fun s => is_ready_resolution s = true) log).
Proof.
  unfold ready_resolutions. induction log as [|s log IH]; [done|].
  destruct s as [id data|id error|p|t error].
  - rewrite !filter_cons_False by done. done.
  - rewrite !filter_cons_False by done. done.
  - rewrite (filter_cons_True (fun s => is_ready_resolution s = true)) by done.
    destruct (resolves_ready promise (ResolveReady p)) eqn:E.
    + rewrite !filter_cons_True by done. by rewrite IH.
    + rewrite !filter_cons_False by (by rewrite E). done.
  - rewrite !filter_cons_False by done. done.
Qed.

Lemma ready_view w w' : view w' = view w → Inv w → Inv w'.
Proof.
  unfold view. intros [= Hready Hpromise Hlog] [Hnow Hunready Hpast Hfuture].
  split; rewrite ?Hready, ?Hpromise;
    setoid_rewrite (ready_resolutions_view _ (settled w')); rewrite Hlog;
    setoid_rewrite <- (ready_resolutions_view _ (settled w)); done.
Qed.

Lemma ready_view_settle s w :
  is_ready_resolution s = false → view (settle s w) = view w.
Proof.
  intros Hs. unfold view, settle. simpl. rewrite filter_app.
  rewrite filter_cons_False by (by rewrite Hs). by rewrite filter_nil, app_nil_r.
Qed.

Lemma ready_view_rejectPending error w : view (_rejectPending error w) = view w.
Proof.
  unfold _rejectPending.
  change (view (set_pending [] ?w)) with (view w).
  generalize (_pending w) as pending. intros pending. revert w.
  induction pending as [|p pending IH]; intros w; simpl; [done|].
  rewrite IH. by rewrite ready_view_settle.
Qed.

Lemma ready_view_stopInitPing w : view (_stopInitPing w) = view w.
Proof. unfold _stopInitPing. by case_match. Qed.

Lemma ready_view_send type data options w : view (send type data options w).2 = view w.
Proof. unfold send, setTimer, pending_set. simpl. by repeat case_match. Qed.

Lemma ready_view_stopReconnectAttempts reason w :
  view (stopReconnectAttempts reason w) = view w.
Proof.
  unfold stopReconnectAttempts. cbv zeta.
  by rewrite ready_view_rejectPending, ready_view_stopInitPing.
Qed.

Lemma ready_view_retryIframeLoad w : view (_retryIframeLoad w) = view w.
Proof.
  unfold _retryIframeLoad. cbv zeta.
  case_match; [apply ready_view_stopInitPing|].
  etransitivity; [|apply ready_view_stopInitPing]. reflexivity.
Qed.

Lemma ready_view_postRaw message w : view (_postRaw message w) = view w.
Proof. unfold _postRaw. by case_match. Qed.

Lemma ready_view_initPing w : view (initPing w) = view w.
Proof.
  unfold initPing. repeat case_match;
    rewrite ?ready_view_stopInitPing, ?ready_view_retryIframeLoad, ?ready_view_postRaw;
    try done.
  change (view (dispatchEvent ?type ?detail ?x)) with (view x).
  by rewrite ready_view_stopReconnectAttempts.
Qed.

Lemma ready_view_startInitPing w : view (_startInitPing w) = view w.
Proof.
  unfold _startInitPing. case_match; [done|]. cbv zeta.
  change (view (let '(t, w) := setTimer ?delay ?repeats ?task ?x in
                set_initPingTimer (Some t) w)) with (view x).
  rewrite ready_view_postRaw.
  change (view (set_initPingCount ?count ?x)) with (view x).
  apply ready_view_stopInitPing.
Qed.

Lemma ready_view_fire id w : view (fire id w) = view w.
Proof.
  unfold fire. destruct (find_timer id w) as [tm|]; [|done].
  assert (view (if timer_repeats tm then w else clearTimer id w) = view w) as Hclear
    by by case_match.
  revert Hclear. generalize (if timer_repeats tm then w else clearTimer id w). intros w1 Hw1.
  destruct (timer_task tm).
  - by rewrite ready_view_initPing.
  - by rewrite ready_view_settle.
  - by case_match.
  - by rewrite ready_view_settle.
Qed.

Lemma ready_view_disconnectedCallback w : view (disconnectedCallback w) = view w.
Proof.
  unfold disconnectedCallback. cbv zeta.
  etransitivity; [|apply ready_view_stopInitPing].
  etransitivity; [|apply (ready_view_rejectPending (Error "browserbox-webview disconnected"))].
  reflexivity.
Qed.

Lemma ready_view_connectedCallback link w : view (connectedCallback link w) = view w.
Proof. unfold connectedCallback, _updateIframeSrcFromAttribute. by case_match. Qed.

(** The element becomes ready: the current ready promise is resolved. *)
Lemma ready_becomes w w' :
  _isReady w = false →
  view w' = (true, _readyPromise w, (view w).2 ++ [ResolveReady (_readyPromise w)]) →
  Inv w → Inv w'.
Proof.
  intros Hunready Hview [_ Hnone Hpast Hfuture]. specialize (Hnone Hunready).
  injection Hview as Hready Hpromise Hlog.
  split; rewrite ?Hpromise;
    setoid_rewrite (ready_resolutions_view _ (settled w')); rewrite Hlog;
    unfold ready_resolutions; setoid_rewrite filter_app;
    fold (ready_resolutions (_readyPromise w));
    setoid_rewrite <- ready_resolutions_view.
  - intros _. fold (ready_resolutions (_readyPromise w) (settled w)). rewrite Hnone.
    rewrite filter_cons_True by (simpl; apply Nat.eqb_refl). done.
  - by rewrite Hready.
  - intros promise Hlt. rewrite filter_cons_False, filter_nil, app_nil_r.
    + by apply Hpast.
    + simpl. rewrite not_true_iff_false. apply Nat.eqb_neq. lia.
  - intros promise Hlt. rewrite filter_cons_False, filter_nil, app_nil_r.
    + by apply Hfuture.
    + simpl. rewrite not_true_iff_false. apply Nat.eqb_neq. lia.
Qed.

(** The ready promise is replaced by a fresh one. *)
Lemma ready_resets w w' :
  view w' = (false, S (_readyPromise w), (view w).2) → Inv w → Inv w'.
Proof.
  intros Hview [Hnow Hnone Hpast Hfuture].
  injection Hview as Hready Hpromise Hlog.
  split; rewrite ?Hpromise;
    setoid_rewrite (ready_resolutions_view _ (settled w')); rewrite Hlog;
    setoid_rewrite <- ready_resolutions_view.
  - by rewrite Hready.
  - intros _. apply Hfuture. lia.
  - intros promise Hlt. destruct (decide (promise = _readyPromise w)) as [->|Hne].
    + destruct (_isReady w); [rewrite Hnow by done; lia|rewrite Hnone by done; simpl; lia].
    + apply Hpast. lia.
  - intros promise Hlt. apply Hfuture. lia.
Qed.

Lemma ready_setReady w : Inv w → Inv (_setReady w).
Proof.
  intros HI. unfold _setReady. destruct (_isReady w) eqn:Hready; [done|]. simpl.
  apply (ready_becomes w); [done| |done].
  unfold _stopInitPing. by case_match; unfold view, settle; simpl; rewrite filter_app.
Qed.

Lemma ready_handleLoad w : Inv w → Inv (_handleLoad w).
Proof.
  intros HI. unfold _handleLoad. cbv zeta.
  destruct (_isReady w) eqn:Hready.
  - apply (ready_resets w); [|done]. by rewrite ready_view_startInitPing.
  - apply (ready_view w); [|done]. rewrite ready_view_startInitPing.
    unfold view. simpl. by rewrite Hready.
Qed.

Lemma ready_view_updateIframeSrc link w :
  view (_updateIframeSrcFromAttribute link w) = view w.
Proof. unfold _updateIframeSrcFromAttribute. by case_match. Qed.

Lemma ready_loginLinkChanged link w : Inv w → Inv (loginLinkChanged link w).
Proof.
  intros HI. apply (ready_resets w); [|done].
  unfold loginLinkChanged. cbv zeta.
  rewrite ready_view_updateIframeSrc, ready_view_rejectPending.
  unfold view, _resetReadyPromise. simpl. reflexivity.
Qed.

Lemma ready_view_assignIframeSrc src w : view (_assignIframeSrc src w) = view w.
Proof. done. Qed.

Lemma ready_refresh w : Inv w → Inv (refresh w).
Proof.
  intros HI. unfold refresh. case_match; [|done].
  apply (ready_resets w); [|done]. cbv zeta.
  rewrite ready_view_assignIframeSrc, ready_view_rejectPending.
  unfold view, _resetReadyPromise. simpl. reflexivity.
Qed.

Lemma ready_view_dispatchEvent type detail w : view (dispatchEvent type detail w) = view w.
Proof. done. Qed.

Lemma ready_notify type payload w : Inv w → Inv (notify type payload w).
Proof.
  intros HI. unfold notify. destruct (String.eqb type "tab-api-ready").
  { apply (ready_view (_setReady w)); [apply ready_view_dispatchEvent|].
    by apply ready_setReady. }
  destruct (String.eqb type "bbx-api-ready").
  - cbv zeta.
    set (w1 := match payload.["data"].["methods"] with
               | JArr methods => set_transportMode Modern (set_apiMethods methods w)
               | _ => w
               end).
    assert (Inv w1) as HI1.
    { subst w1. destruct (payload.["data"].["methods"]); try done.
      by apply (ready_view w). }
    apply (ready_view (_setReady w1)); [apply ready_view_dispatchEvent|].
    by apply ready_setReady.
  - apply (ready_view w); [|done]. rewrite ready_view_dispatchEvent.
    by repeat case_match.
Qed.

Lemma ready_handleMessage fromPeer origin data w :
  Inv w → Inv (_handleMessage fromPeer origin data w).
Proof.
  intros HI. unfold _handleMessage. repeat case_match; try done.
  - apply (ready_view w); [|done]. by rewrite ready_view_settle.
  - by apply (ready_view w).
  - apply (ready_view w); [|done]. by rewrite ready_view_settle.
  - by apply ready_notify.
Qed.

Lemma ready_deliver e w : Inv w → Inv (deliver e w).
Proof.
  intros HI. destruct e; simpl.
  - by apply ready_handleMessage.
  - apply (ready_view w); [apply ready_view_fire|done].
  - apply ready_handleLoad. by apply (ready_view w).
  - apply (ready_view w); [apply ready_view_stopReconnectAttempts|done].
  - by apply ready_refresh.
  - by apply ready_loginLinkChanged.
  - apply (ready_view w); [apply ready_view_connectedCallback|done].
  - apply (ready_view w); [apply ready_view_disconnectedCallback|done].
  - by apply (ready_view w).
Qed.

Lemma ready_apply op w : Inv w → Inv (Ledger.apply op w).
Proof.
  intros HI. destruct op; simpl.
  - by apply ready_deliver.
  - case_match; [|done]. apply (ready_view w); [apply ready_view_send|done].
  - by apply (ready_view w).
  - by apply ready_setReady.
  - by apply (ready_view w).
  - by apply (ready_view w).
  - by apply (ready_view w).
  - apply (ready_view w); [apply ready_view_postRaw|done].
  - by apply (ready_view w).
  - by apply (ready_view w).
  - apply (ready_view w); [apply ready_view_updateIframeSrc|done].
Qed.

Lemma ready_constructor parent_origin request_timeout_ms clock :
  Inv (constructor parent_origin request_timeout_ms clock).
Proof. split; simpl; intros; try done. lia. Qed.

Lemma ready_run ops w : Inv w → Inv (Ledger.run ops w).1.
Proof.
  unfold Ledger.run. generalize (@nil string). revert w.
  induction ops as [|op ops IH]; intros w issued HI; simpl; [done|].
  by apply IH, ready_apply.
Qed.

End ReadinessFacts.


(** ** Waiting for readiness *)

Section WhenReadyFacts.
Import Element Requests Loop Readiness.

Lemma outcome_of_app p log log' :
  outcome_of p (log ++ log') =
    match outcome_of p log with
    | Some o => Some o
    | None => outcome_of p log'
    end.
Proof.
  induction log as [|s log IH]; simpl; [done|]. by destruct (settles p s).
Qed.

(** The ready promise and its timeout are both still open. *)
Lemma outcome_of_ready_open promise timer log :
  ready_resolutions promise log = [] →
  (∀ error, RejectReady timer error ∉ log) →
  outcome_of (WReady promise timer) log = None.
Proof.
  induction log as [|s log IH]; intros Hres Hrej; cbn [outcome_of]; [done|].
  assert (settles (WReady promise timer) s = None) as ->.
  { destruct s as [id data|id error|promise'|timer' error]; simpl; try done.
    - destruct (Nat.eqb promise promise') eqn:E; [|done].
      apply Nat.eqb_eq in E. subst promise'. unfold ready_resolutions in Hres.
      rewrite filter_cons_True in Hres by (simpl; apply Nat.eqb_refl). done.
    - destruct (Nat.eqb timer timer') eqn:E; [|done].
      apply Nat.eqb_eq in E. subst timer'. destruct (Hrej error).
      apply elem_of_cons. by left. }
  apply IH.
  - unfold ready_resolutions in *. rewrite filter_cons in Hres.
    by destruct (decide (resolves_ready promise s = true)).
  - intros error Hin. apply (Hrej error). apply elem_of_cons. by right.
Qed.

Lemma exec_whenReady_unready timeoutMs events env w :
  _isReady w = false →
  exec (whenReady timeoutMs) (events :: env) w =
    let armed := setTimer timeoutMs false (ReadyTimeout timeoutMs) w in
    let w' := deliver_all events armed.2 in
    match outcome_of (WReady (_readyPromise w) armed.1) (settled w') with
    | Some (Resolved _) => (w', env, Some (Returned (JBool true)))
    | Some (Rejected e) => (w', env, Some (Threw e))
    | None => (w', env, None)
    end.
Proof.
  intros Hunready. unfold whenReady. rewrite exec_Get, Hunready.
  cbn [setTimer exec fst snd]. cbv zeta.
  change (_readyPromise (set_next_timer ?n (set_timers ?l w))) with (_readyPromise w).
  by destruct (outcome_of _ _) as [[]|].
Qed.

Lemma setReady_unready w :
  _isReady w = false →
  _isReady (_setReady w) = true ∧
  settled (_setReady w) = settled w ++ [ResolveReady (_readyPromise w)].
Proof.
  intros Hunready. unfold _setReady, _stopInitPing. rewrite Hunready. simpl.
  by case_match.
Qed.

Lemma find_timer_armed delay repeats task w :
  (∀ tm, tm ∈ timers w → timer_id tm < next_timer w) →
  find_timer (next_timer w) (setTimer delay repeats task w).2 =
    Some (mkTimer (next_timer w) (Js.timer_delay delay) repeats task).
Proof.
  intros Hfresh. unfold find_timer, setTimer. simpl.
  destruct (list_find _ _) as [[i tm]|] eqn:Hfind; simpl.
  - apply list_find_Some in Hfind as (Hi & Hid & _).
    apply lookup_app_Some in Hi as [Hi|[_ Hi]].
    + apply list_elem_of_lookup_2, Hfresh in Hi. lia.
    + apply list_lookup_singleton_Some in Hi as [_ Hi]. by f_equal.
  - apply list_find_None in Hfind. rewrite Forall_forall in Hfind.
    destruct (Hfind (mkTimer (next_timer w) (Js.timer_delay delay) repeats task)); [|done].
    apply elem_of_app. right. by apply list_elem_of_singleton.
Qed.


(** In a state that the element can reach, the promise that [whenReady]
    is about to wait for is open: neither resolved nor timed out. *)
Lemma reachable_ready_open issued w :
  Ledger.Inv issued w → Inv w → _isReady w = false →
  outcome_of (WReady (_readyPromise w) (next_timer w)) (settled w) = None.
Proof.
  intros HL HR Hunready. apply outcome_of_ready_open.
  - by apply (unready_now _ HR).
  - intros error Hin. apply (Ledger.rejected_fired _ _ HL) in Hin. lia.
Qed.

Lemma reachable_invariants parent_origin request_timeout_ms clock ops :
  let state := Ledger.run ops (constructor parent_origin request_timeout_ms clock) in
  Ledger.Inv state.2 state.1 ∧ Inv state.1.
Proof.
  split.
  - apply (Inv_run ops [] _ (Inv_constructor parent_origin request_timeout_ms clock)).
  - apply ready_run, ready_constructor.
Qed.

End WhenReadyFacts.

(** X12.  After any sequence of events and method steps since
    construction, the element is ready exactly when its current ready
    promise, the one that [whenReady] waits for, has been resolved. *)
Theorem ready_iff_ready_promise_resolved
    (parent_origin : option string) (request_timeout_ms : option Z) (clock : Z)
    (ops : list Ledger.Op) :
  let w := (Ledger.run ops (Element.constructor parent_origin request_timeout_ms clock)).1 in
  _isReady w = true ↔ ResolveReady (_readyPromise w) ∈ settled w.
Proof.
  intros w.
  destruct (ready_run ops _ (ready_constructor parent_origin request_timeout_ms clock))
    as [Hnow Hunready _ _].
  fold w in Hnow, Hunready. split.
  - intros Hready. specialize (Hnow Hready).
    destruct (Readiness.ready_resolutions (_readyPromise w) (settled w)) as [|s log] eqn:Hlog;
      [done|].
    assert (s ∈ Readiness.ready_resolutions (_readyPromise w) (settled w)) as Hs
      by (rewrite Hlog; apply elem_of_cons; by left).
    apply list_elem_of_filter in Hs as [Hres Hin].
    destruct s as [| |promise|]; try done. simpl in Hres.
    apply Nat.eqb_eq in Hres. by subst.
  - intros Hin. destruct (_isReady w); [done|].
    assert (ResolveReady (_readyPromise w) ∈
              Readiness.ready_resolutions (_readyPromise w) (settled w)) as Hs.
    { apply list_elem_of_filter. split; [|done]. simpl. apply Nat.eqb_refl. }
    rewrite Hunready in Hs by done. by apply elem_of_nil in Hs.
Qed.

(** X13.  After any sequence of events and method steps since
    construction, no ready promise has been resolved more than once. *)
Theorem ready_promise_resolved_at_most_once
    (parent_origin : option string) (request_timeout_ms : option Z) (clock : Z)
    (ops : list Ledger.Op) (promise : nat) :
  let w := (Ledger.run ops (Element.constructor parent_origin request_timeout_ms clock)).1 in
  length (Readiness.ready_resolutions promise (settled w)) ≤ 1.
Proof.
  intros w.
  destruct (ready_run ops _ (ready_constructor parent_origin request_timeout_ms clock))
    as [Hnow Hunready Hpast Hfuture].
  fold w in Hnow, Hunready, Hpast, Hfuture.
  destruct (lt_eq_lt_dec promise (_readyPromise w)) as [[Hlt| ->]|Hgt].
  - by apply Hpast.
  - destruct (_isReady w); [rewrite Hnow by done; lia|rewrite Hunready by done; simpl; lia].
  - rewrite Hfuture by done. simpl. lia.
Qed.



(** X15.  In any state the element can reach in which it is not ready,
    [_ensureReadyForApi] waits at most [min(requestTimeoutMs, 8000)] ms: when
    that timeout fires first, the call does not fail but declares the element
    ready, dispatches [ready-timeout] with the timeout and its error message,
    and returns [false]. *)
Theorem ensureReady_gives_up_softly
    (parent_origin : option string) (request_timeout_ms : option Z) (clock : Z)
    (ops : list Ledger.Op) (env : list (list Loop.Event)) :
  let w := (Ledger.run ops (Element.constructor parent_origin request_timeout_ms clock)).1 in
  let softTimeoutMs := Z.min (Element.requestTimeoutMs w) 8000 in
  _isReady w = false →
  ∃ w',
    Loop.exec Requests._ensureReadyForApi ([Loop.TimerFires (next_timer w)] :: env) w =
      (w', env, Some (Returned (JBool false))) ∧
    _isReady w' = true ∧
    dispatched w' =
      dispatched w ++
      [("ready-timeout",
        JObj [("timeoutMs", JNum softTimeoutMs);
              ("error", JStr (Element.ready_timeout_message softTimeoutMs))])].
Proof.
  intros w soft Hunready.
  destruct (reachable_invariants parent_origin request_timeout_ms clock ops) as [HL HR].
  fold w in HL, HR.
  pose proof (reachable_ready_open _ w HL HR Hunready) as Hopen.
  unfold Requests._ensureReadyForApi. rewrite exec_Get, Hunready. cbv zeta. fold soft.
  rewrite exec_try_catch, exec_bind, exec_await, exec_whenReady_unready by done.
  cbv zeta.
  set (w1 := (Element.setTimer soft false (ReadyTimeout soft) w).2).
  change (Element.setTimer soft false (ReadyTimeout soft) w).1 with (next_timer w).
  cbn [Loop.deliver_all fold_left Loop.deliver]. unfold Element.fire.
  subst w1. rewrite find_timer_armed by apply (Ledger.timers_fresh _ _ HL).
  cbn [timer_repeats timer_task].
  set (w2 := Element.clearTimer (next_timer w) _).
  change (settled (Element.settle ?s w2)) with (settled w ++ [s]).
  rewrite outcome_of_app, Hopen. cbn [outcome_of settles]. rewrite Nat.eqb_refl.
  rewrite exec_bind, exec_modify. cbn [Loop.exec].
  set (w3 := Element.settle _ w2).
  destruct (setReady_unready w3 Hunready) as [Hready _].
  eexists. split; [reflexivity|]. split; [exact Hready|].
  unfold Element._setReady, Element._stopInitPing.
  change (_isReady w3) with (_isReady w). rewrite Hunready. cbn [negb].
  by destruct (_initPingTimer _).
Qed.

Lemma ensureReady_gives_up_softly_witness :
  let w :=
    (Ledger.run
       [Ledger.Deliver (Loop.Connected (Some "https://bbx.example/login"));
        Ledger.Deliver Loop.Loaded]
       (Element.constructor None None 1700)).1 in
  ∃ w',
    Loop.exec Requests._ensureReadyForApi ([Loop.TimerFires 2] :: []) w =
      (w', [], Some (Returned (JBool false))) ∧
    _isReady w' = true ∧
    dispatched w' =
      [("ready-timeout",
        JObj [("timeoutMs", JNum 8000);
              ("error", JStr "browserbox-webview ready timeout after 8000ms")])].
Proof.
  intros w.
  destruct (ensureReady_gives_up_softly None None 1700
              [Ledger.Deliver (Loop.Connected (Some "https://bbx.example/login"));
               Ledger.Deliver Loop.Loaded] [])
    as (w' & Hexec & Hready & Hevent).
  - vm_compute. reflexivity.
  - exists w'. split; [exact Hexec|]. split; [exact Hready|].
    rewrite Hevent. vm_compute. reflexivity.
Defined.

(** X16.  [_ensureReadyForApi] never ends by throwing, whatever state the
    element is in and however the wait for readiness ends. *)
Theorem ensureReadyForApi_never_throws : NeverThrows Requests._ensureReadyForApi.
Proof.
  constructor. intros w. destruct (_isReady w); [constructor|].
  apply NeverThrows_try_catch. intros error.
  apply NeverThrows_bind; [apply NeverThrows_modify|]. intros _. constructor.
Qed.

(** ** The liveness prober *)

Section ProberFacts.
Import Element Requests Loop.

Lemma prober_view w w' : Prober.view w' = Prober.view w → Prober.Inv w → Prober.Inv w'.
Proof.
  unfold Prober.view. intros [= Hready Hstopped Hping Hpings] [Harmed Hidle].
  split; by rewrite ?Hready, ?Hstopped, ?Hping, ?Hpings.
Qed.

(** [_rejectPending] touches the ledger, the timers and the settlements,
    and nothing else. *)
Lemma rejectPending_shape error w :
  _rejectPending error w =
    set_pending []
      (set_settled (settled w ++ Ledger.rejections error (_pending w))
         (set_timers (filter (fun tm => timer_id tm ∉ (_pending w).*2) (timers w)) w)).
Proof.
  unfold _rejectPending.
  cut (∀ l w,
         fold_left (fun w p => settle (Reject p.1 error) (clearTimer p.2 w)) l w =
           set_settled (settled w ++ Ledger.rejections error l)
             (set_timers (filter (fun tm => timer_id tm ∉ l.*2) (timers w)) w)).
  { intros Hcut. by rewrite Hcut. }
  induction l as [|p l IH]; intros w0.
  - simpl. rewrite app_nil_r, filter_all by (intros; apply not_elem_of_nil).
    by destruct w0.
  - cbn [fold_left]. rewrite IH.
    set (w1 := settle (Reject p.1 error) (clearTimer p.2 w0)).
    assert (settled w1 = settled w0 ++ [Reject p.1 error]) as -> by reflexivity.
    assert (timers w1 = filter (fun tm => timer_id tm ≠ p.2) (timers w0)) as ->
      by reflexivity.
    transitivity
      (set_settled ((settled w0 ++ [Reject p.1 error]) ++ Ledger.rejections error l)
         (set_timers
            (filter (fun tm => timer_id tm ∉ l.*2)
               (filter (fun tm => timer_id tm ≠ p.2) (timers w0))) w0));
      [reflexivity|].
    f_equal; [by rewrite <- app_assoc|]. f_equal.
    rewrite list_filter_filter. apply list_filter_iff. intros tm.
    rewrite fmap_cons, not_elem_of_cons. tauto.
Qed.

(** An armed liveness interval is the timeout of no pending request. *)
Lemma ping_not_pending issued w tm :
  Ledger.Inv issued w → tm ∈ Prober.pings w → timer_id tm ∉ (_pending w).*2.
Proof.
  intros HL [Hping Hin]%list_elem_of_filter Hpending.
  apply list_elem_of_fmap in Hpending as ([id t] & Hid & Hp). simpl in Hid. subst t.
  destruct (pending_in_flight _ _ _ _ HL Hp) as (_ & tm' & type & ms & Hin' & Hid' & _ & Htask).
  assert (tm' = tm) as ->
    by (eapply NoDup_fmap_unique; [apply (Ledger.timers_nodup _ _ HL)|done..]).
  unfold Prober.is_init_ping in Hping. by rewrite Htask in Hping.
Qed.

Lemma filter_comm {A} (P Q : A → Prop) `{∀ x, Decision (P x)} `{∀ x, Decision (Q x)}
    (l : list A) :
  filter P (filter Q l) = filter Q (filter P l).
Proof. rewrite !list_filter_filter. apply list_filter_iff. intros x. tauto. Qed.

Lemma pings_clearTimer t w :
  Prober.pings (clearTimer t w) = filter (fun tm => timer_id tm ≠ t) (Prober.pings w).
Proof.
  unfold Prober.pings, clearTimer. simpl. rewrite !list_filter_filter.
  apply list_filter_iff. intros tm. tauto.
Qed.

Lemma prober_view_clearTimer t w :
  (∀ tm, tm ∈ Prober.pings w → timer_id tm ≠ t) →
  Prober.view (clearTimer t w) = Prober.view w.
Proof.
  intros Hother. unfold Prober.view. rewrite pings_clearTimer.
  by rewrite filter_all_elem.
Qed.

Lemma prober_view_setTimer delay repeats task w :
  task ≠ InitPing → Prober.view (setTimer delay repeats task w).2 = Prober.view w.
Proof.
  intros Htask. unfold Prober.view, Prober.pings, setTimer. simpl.
  rewrite filter_app, filter_cons_False, filter_nil, app_nil_r; [done|].
  unfold Prober.is_init_ping. simpl. by destruct task.
Qed.

Lemma prober_view_rejectPending issued error w :
  Ledger.Inv issued w → Prober.view (_rejectPending error w) = Prober.view w.
Proof.
  intros HL. rewrite rejectPending_shape. unfold Prober.view, Prober.pings. simpl.
  f_equal. rewrite filter_comm.
  apply filter_all_elem. intros tm Hin. by eapply ping_not_pending.
Qed.

Lemma pings_rejectPending issued error w :
  Ledger.Inv issued w → Prober.pings (_rejectPending error w) = Prober.pings w.
Proof.
  intros HL. apply (f_equal snd (prober_view_rejectPending issued error w HL)).
Qed.

Lemma prober_view_send type data options w :
  Prober.view (send type data options w).2 = Prober.view w.
Proof.
  unfold send, pending_set. cbv zeta.
  set (w1 := set_requestSeq _ w).
  destruct (setTimer _ false _ w1) as [t w2] eqn:Harm.
  assert (Prober.view w2 = Prober.view w) as <-.
  { replace w2 with (setTimer
        match timeoutMs options with Some ms => 100 `max` ms | None => requestTimeoutMs w end
        false
        (RequestTimeout (request_id (now w1) (_requestSeq w1)) type
           match timeoutMs options with Some ms => 100 `max` ms | None => requestTimeoutMs w end)
        w1).2 by by rewrite Harm.
    by rewrite prober_view_setTimer. }
  by case_match.
Qed.

(** Stopping the prober disarms its interval. *)
Lemma prober_stopInitPing w :
  Prober.pings w =
    match _initPingTimer w with
    | Some t => [mkTimer t 1000 true InitPing]
    | None => []
    end →
  Prober.view (_stopInitPing w) = (_isReady w, _reconnectStopped w, None, []).
Proof.
  intros Harmed. unfold _stopInitPing, Prober.view.
  destruct (_initPingTimer w) as [t|] eqn:Hping; [|by rewrite Hping, Harmed].
  cbn [_isReady _reconnectStopped _initPingTimer set_initPingTimer].
  change (Prober.pings (set_initPingTimer None ?x)) with (Prober.pings x).
  rewrite pings_clearTimer, Harmed.
  rewrite filter_cons_False by (simpl; by intros []). done.
Qed.

Lemma prober_idle w :
  Prober.view w = (_isReady w, _reconnectStopped w, None, []) → Prober.Inv w.
Proof. intros [= Hping Hpings]. split; by rewrite ?Hping, ?Hpings. Qed.

Lemma prober_view_settle s w : Prober.view (settle s w) = Prober.view w.
Proof. done. Qed.

Lemma prober_view_dispatchEvent type detail w :
  Prober.view (dispatchEvent type detail w) = Prober.view w.
Proof. done. Qed.

Lemma prober_view_postRaw message w : Prober.view (_postRaw message w) = Prober.view w.
Proof. unfold _postRaw. by case_match. Qed.

Lemma prober_view_pending_delete id w : Prober.view (pending_delete id w) = Prober.view w.
Proof. done. Qed.

Lemma prober_setReady w : Prober.Inv w → Prober.Inv (_setReady w).
Proof.
  intros HP. unfold _setReady. destruct (_isReady w) eqn:Hready; [done|].
  cbn [negb]. cbv zeta.
  apply prober_idle. rewrite prober_view_settle.
  set (w1 := set_reconnectStopped false _).
  rewrite (prober_stopInitPing w1) by apply (Prober.ping_armed _ HP).
  unfold _stopInitPing. by destruct (_initPingTimer w1).
Qed.

Lemma prober_stopReconnectAttempts issued reason w :
  Ledger.Inv issued w → Prober.Inv w → Prober.Inv (stopReconnectAttempts reason w).
Proof.
  intros HL HP. unfold stopReconnectAttempts. cbv zeta.
  set (w1 := set_reconnectStopped true w).
  assert (Ledger.Inv issued (_stopInitPing w1)) as HL2
    by (apply Inv_stopInitPing; by apply (Inv_view _ w)).
  apply prober_idle. rewrite (prober_view_rejectPending issued) by done.
  rewrite (prober_stopInitPing w1) by apply (Prober.ping_armed _ HP).
  rewrite rejectPending_shape. unfold _stopInitPing. by destruct (_initPingTimer w1).
Qed.

Lemma prober_retryIframeLoad w : Prober.Inv w → Prober.Inv (_retryIframeLoad w).
Proof.
  intros HP. unfold _retryIframeLoad. cbv zeta.
  pose proof (prober_stopInitPing w (Prober.ping_armed _ HP)) as Hstop.
  set (w1 := _stopInitPing w) in *.
  set (w2 := set_iframeRetryCount _ w1).
  assert (Prober.view w2 = (_isReady w2, _reconnectStopped w2, None, [])) as Hw2.
  { change (Prober.view w2) with (Prober.view w1). rewrite Hstop.
    subst w2 w1. unfold _stopInitPing. by destruct (_initPingTimer w). }
  destruct (String.eqb (iframe_src w2) ""); [by apply prober_idle|].
  apply prober_idle. rewrite prober_view_setTimer by done.
  rewrite prober_view_dispatchEvent. by rewrite Hw2.
Qed.

Lemma prober_initPing issued w :
  Ledger.Inv issued w → Prober.Inv w → Prober.Inv (initPing w).
Proof.
  intros HL HP. unfold initPing.
  assert (Prober.Inv (_stopInitPing w)) as Hstop.
  { apply prober_idle. rewrite (prober_stopInitPing w) by apply (Prober.ping_armed _ HP).
    unfold _stopInitPing. by destruct (_initPingTimer w). }
  destruct (_reconnectStopped w); [done|]. destruct (_isReady w); [done|]. cbv zeta.
  set (w1 := set_initPingCount _ w).
  assert (Prober.Inv w1) as HP1 by by apply (prober_view w).
  assert (Ledger.Inv issued w1) as HL1 by by apply (Inv_view _ w).
  destruct (_iframeRetryPingThreshold w1 <=? _initPingCount w1)%Z.
  - destruct (_iframeRetryCount w1 <? _iframeRetryMax w1)%Z.
    + by apply prober_retryIframeLoad.
    + apply (prober_view (stopReconnectAttempts "iframe-unresponsive" w1));
        [apply prober_view_dispatchEvent|].
      by apply (prober_stopReconnectAttempts issued).
  - apply (prober_view w1); [apply prober_view_postRaw|done].
Qed.

Lemma prober_startInitPing w :
  _isReady w = false → Prober.Inv w → Prober.Inv (_startInitPing w).
Proof.
  intros Hunready HP. unfold _startInitPing.
  destruct (_reconnectStopped w) eqn:Hstopped; [done|]. cbv zeta.
  pose proof (prober_stopInitPing w (Prober.ping_armed _ HP)) as Hstop.
  set (w1 := _postRaw init_message (set_initPingCount 0 (_stopInitPing w))).
  assert (Prober.view w1 = (false, false, None, [])) as Hw1.
  { subst w1. rewrite prober_view_postRaw.
    change (Prober.view (set_initPingCount 0 ?x)) with (Prober.view x).
    by rewrite Hstop, Hunready, Hstopped. }
  injection Hw1 as Hready1 Hstopped1 _ Hpings1.
  unfold setTimer. split.
  - cbn [_initPingTimer set_initPingTimer].
    unfold Prober.pings in *. cbn [timers set_initPingTimer set_next_timer set_timers].
    rewrite filter_app, Hpings1. by rewrite filter_cons_True.
  - cbn [_isReady _reconnectStopped set_initPingTimer set_next_timer set_timers].
    rewrite Hready1, Hstopped1. by intros [|].
Qed.

Lemma prober_handleLoad w : Prober.Inv w → Prober.Inv (_handleLoad w).
Proof.
  intros [Harmed Hidle]. unfold _handleLoad. cbv zeta.
  apply prober_startInitPing; [by destruct (_isReady w)|].
  destruct (_isReady w); split; try done; simpl; intros [|]; try done; auto.
Qed.

Lemma prober_notify type payload w : Prober.Inv w → Prober.Inv (notify type payload w).
Proof.
  intros HP. unfold notify. destruct (String.eqb type "tab-api-ready").
  { apply (prober_view (_setReady w)); [apply prober_view_dispatchEvent|].
    by apply prober_setReady. }
  destruct (String.eqb type "bbx-api-ready").
  - cbv zeta.
    set (w1 := match payload.["data"].["methods"] with
               | JArr methods => set_transportMode Modern (set_apiMethods methods w)
               | _ => w
               end).
    assert (Prober.Inv w1) as HP1.
    { subst w1. destruct (payload.["data"].["methods"]); try done.
      by apply (prober_view w). }
    apply (prober_view (_setReady w1)); [apply prober_view_dispatchEvent|].
    by apply prober_setReady.
  - apply (prober_view w); [|done]. rewrite prober_view_dispatchEvent.
    by repeat case_match.
Qed.

Lemma prober_handleMessage issued fromPeer origin data w :
  Ledger.Inv issued w → Prober.Inv w → Prober.Inv (_handleMessage fromPeer origin data w).
Proof.
  intros HL HP. unfold _handleMessage.
  destruct (negb fromPeer); [done|].
  destruct (negb (_validateIncomingOrigin origin w)); [done|]. cbv zeta.
  destruct ((Js.or data (JObj [])).["type"]) as [| | | | |type| |]; try done.
  destruct (matching_request _ w) as [[id t]|] eqn:Hmatch; [|by apply prober_notify].
  apply matching_request_Some in Hmatch as [_ Hin].
  apply (prober_view w); [|done].
  assert (Prober.view (clearTimer t w) = Prober.view w) as Hclear.
  { apply prober_view_clearTimer. intros tm Htm Heq.
    apply (ping_not_pending issued w tm HL Htm). rewrite Heq.
    by apply (list_elem_of_fmap_2 snd _ (id, t)). }
  by repeat case_match.
Qed.

Lemma prober_fire issued id w :
  Ledger.Inv issued w → Prober.Inv w → Prober.Inv (fire id w).
Proof.
  intros HL HP. unfold fire.
  destruct (find_timer id w) as [tm|] eqn:Hfind; [|done].
  apply find_timer_Some in Hfind as [Hin Hid]. cbv zeta.
  set (w1 := if timer_repeats tm then w else clearTimer id w).
  assert (Prober.view w1 = Prober.view w) as Hw1.
  { subst w1. destruct (timer_repeats tm) eqn:Hrep; [done|].
    apply prober_view_clearTimer. intros tm' Htm' Heq.
    pose proof Htm' as [_ Hin']%list_elem_of_filter.
    assert (tm' = tm) as ->
      by (eapply NoDup_fmap_unique; [apply (Ledger.timers_nodup _ _ HL)|done..|congruence]).
    rewrite (Prober.ping_armed _ HP) in Htm'.
    destruct (_initPingTimer w); [|by apply elem_of_nil in Htm'].
    apply list_elem_of_singleton in Htm'. by rewrite Htm' in Hrep. }
  assert (Prober.Inv w1) as HP1 by by apply (prober_view w).
  destruct (timer_task tm) as [|requestId type ms|src|ms] eqn:Htask.
  - apply (prober_initPing issued); [|done].
    subst w1. case_match; [done|].
    apply Inv_clearTimer; [|done]. intros tm' id' type ms Hin' Hid' Htask'.
    assert (tm' = tm) as ->
      by (eapply NoDup_fmap_unique; [apply (Ledger.timers_nodup _ _ HL)|done..|congruence]).
    congruence.
  - by apply (prober_view w1).
  - destruct (_isReady w1 || _reconnectStopped w1); [done|]. by apply (prober_view w1).
  - by apply (prober_view w1).
Qed.

Lemma prober_deliver issued e w :
  Ledger.Inv issued w → Prober.Inv w → Prober.Inv (deliver e w).
Proof.
  intros HL HP. destruct e; simpl.
  - by apply (prober_handleMessage issued).
  - by apply (prober_fire issued).
  - apply prober_handleLoad. by apply (prober_view w).
  - by apply (prober_stopReconnectAttempts issued).
  - unfold refresh. case_match; [|done]. cbv zeta.
    set (w1 := _resetReadyPromise _).
    assert (Ledger.Inv issued w1) as HL1 by by apply (Inv_view _ w).
    destruct HP as [Harmed _].
    pose proof (pings_rejectPending issued (Error "browserbox-webview refreshed") w1 HL1)
      as Hpings.
    split.
    + change (Prober.pings (_assignIframeSrc ?src ?x)) with (Prober.pings x).
      rewrite Hpings, rejectPending_shape. exact Harmed.
    + rewrite rejectPending_shape. simpl. by intros [|].
  - unfold loginLinkChanged. cbv zeta.
    set (w1 := _resetReadyPromise _).
    assert (Ledger.Inv issued w1) as HL1 by by apply (Inv_view _ w).
    destruct HP as [Harmed _].
    pose proof (pings_rejectPending issued (Error "browserbox-webview source changed")
                  w1 HL1) as Hpings.
    unfold _updateIframeSrcFromAttribute.
    split.
    + destruct loginLink.
      * change (Prober.pings (_assignIframeSrc ?src ?x)) with (Prober.pings x).
        rewrite Hpings, rejectPending_shape. exact Harmed.
      * rewrite Hpings, rejectPending_shape. exact Harmed.
    + rewrite rejectPending_shape. destruct loginLink; simpl; by intros [|].
  - apply (prober_view w); [|done].
    unfold connectedCallback, _updateIframeSrcFromAttribute. by case_match.
  - unfold disconnectedCallback. cbv zeta.
    assert (Ledger.Inv issued (_stopInitPing w)) as HL1 by by apply Inv_stopInitPing.
    pose proof (prober_view_rejectPending issued
                  (Error "browserbox-webview disconnected") _ HL1) as Hview.
    rewrite (prober_stopInitPing w) in Hview by apply (Prober.ping_armed _ HP).
    apply prober_idle.
    change (Prober.view (set_iframe_contentWindow false ?x)) with (Prober.view x).
    rewrite Hview. rewrite rejectPending_shape. unfold _stopInitPing.
    by destruct (_initPingTimer w).
  - by apply (prober_view w).
Qed.

Lemma prober_apply issued op w :
  Ledger.Inv issued w → Prober.Inv w → Prober.Inv (Ledger.apply op w).
Proof.
  intros HL HP. destruct op; simpl.
  - by apply (prober_deliver issued).
  - case_match; [|done]. apply (prober_view w); [apply prober_view_send|done].
  - apply (prober_view w); [by apply prober_view_setTimer|done].
  - by apply prober_setReady.
  - by apply (prober_view w).
  - by apply (prober_view w).
  - by apply (prober_view w).
  - apply (prober_view w); [apply prober_view_postRaw|done].
  - by apply (prober_view w).
  - by apply (prober_view w).
  - apply (prober_view w); [|done].
    unfold _updateIframeSrcFromAttribute. by case_match.
Qed.

Lemma prober_constructor parent_origin request_timeout_ms clock :
  Prober.Inv (constructor parent_origin request_timeout_ms clock).
Proof. by split. Qed.

Lemma prober_run ops issued w :
  Ledger.Inv issued w → Prober.Inv w →
  Prober.Inv
    (fold_left
       (fun state op =>
          (Ledger.apply op state.1, state.2 ++ option_list (Ledger.issues op state.1)))
       ops (w, issued)).1.
Proof.
  revert issued w. induction ops as [|op ops IH]; intros issued w HL HP; simpl; [done|].
  apply IH; [by apply Inv_apply|by apply (prober_apply issued)].
Qed.

End ProberFacts.

(** X17.  After any sequence of events and method steps since
    construction, at most one liveness interval is armed, and it is the one
    that [_initPingTimer] records: the prober never runs twice at once and
    never loses track of its interval. *)
Theorem at_most_one_liveness_prober
    (parent_origin : option string) (request_timeout_ms : option Z) (clock : Z)
    (ops : list Ledger.Op) :
  let w := (Ledger.run ops (Element.constructor parent_origin request_timeout_ms clock)).1 in
  Prober.pings w =
    match _initPingTimer w with
    | Some t => [mkTimer t 1000 true InitPing]
    | None => []
    end.
Proof.
  intros w. apply Prober.ping_armed.
  apply (prober_run ops [] _ (Inv_constructor parent_origin request_timeout_ms clock)
           (prober_constructor parent_origin request_timeout_ms clock)).
Qed.

(** X18.  After any sequence of events and method steps since
    construction, no liveness interval is armed while the element is ready or
    while reconnecting is stopped. *)
Theorem no_probing_when_ready_or_stopped
    (parent_origin : option string) (request_timeout_ms : option Z) (clock : Z)
    (ops : list Ledger.Op) :
  let w := (Ledger.run ops (Element.constructor parent_origin request_timeout_ms clock)).1 in
  _isReady w = true ∨ _reconnectStopped w = true →
  Prober.pings w = [] ∧ _initPingTimer w = None.
Proof.
  intros w Hidle.
  destruct (prober_run ops [] _ (Inv_constructor parent_origin request_timeout_ms clock)
              (prober_constructor parent_origin request_timeout_ms clock))
    as [Harmed Hnone].
  fold (Ledger.run ops (Element.constructor parent_origin request_timeout_ms clock))
    in Harmed, Hnone.
  fold w in Harmed, Hnone. specialize (Hnone Hidle).
  split; [|done]. by rewrite Harmed, Hnone.
Qed.

Lemma no_probing_when_ready_or_stopped_witness :
  let w :=
    (Ledger.run
       [Ledger.Deliver (Loop.Connected (Some "https://bbx.example/login"));
        Ledger.Deliver Loop.Loaded;
        Ledger.Deliver (Loop.TimerFires 1);
        Ledger.Deliver (Loop.Stopped "manual-stop");
        Ledger.Deliver Loop.Loaded]
       (Element.constructor None None 1700)).1 in
  Prober.pings w = [] ∧ _initPingTimer w = None.
Proof.
  intros w.
  apply (no_probing_when_ready_or_stopped None None 1700
           [Ledger.Deliver (Loop.Connected (Some "https://bbx.example/login"));
            Ledger.Deliver Loop.Loaded;
            Ledger.Deliver (Loop.TimerFires 1);
            Ledger.Deliver (Loop.Stopped "manual-stop");
            Ledger.Deliver Loop.Loaded]).
  right. vm_compute. reflexivity.
Defined.

(** What the handler of [load] and the callback of a timer do once
    reconnecting is stopped. *)
Lemma stopped_handler_quiet
    (parent_origin : option string) (request_timeout_ms : option Z) (clock : Z)
    (ops : list Ledger.Op) (e : Loop.Event) :
  let w := (Ledger.run ops (Element.constructor parent_origin request_timeout_ms clock)).1 in
  _reconnectStopped w = true →
  (e = Loop.Loaded ∨ ∃ timer, e = Loop.TimerFires timer) →
  let w' := Loop.deliver e w in
  posted w' = posted w ∧
  iframe_src w' = iframe_src w ∧
  (iframe_loading w' = true → iframe_loading w = true) ∧
  _reconnectStopped w' = true.
Proof.
  intros w Hstopped He w'.
  pose proof (prober_run ops [] _ (Inv_constructor parent_origin request_timeout_ms clock)
                (prober_constructor parent_origin request_timeout_ms clock)) as HP.
  fold (Ledger.run ops (Element.constructor parent_origin request_timeout_ms clock)) in HP.
  fold w in HP. subst w'. clearbody w. destruct HP as [Harmed Hidle].
  rewrite (Hidle (or_intror Hstopped)) in Harmed. destruct He as [->|[timer ->]]; simpl.
  - unfold Element.load, Element._handleLoad. cbv zeta.
    set (w0 := if _isReady (set_iframe_loading false w) then _ else _).
    assert (_reconnectStopped w0 = true ∧ posted w0 = posted w ∧
            iframe_src w0 = iframe_src w ∧ iframe_loading w0 = false)
      as (Hstopped0 & Hposted0 & Hsrc0 & Hloading0).
    { subst w0. by destruct (_isReady (set_iframe_loading false w)). }
    unfold Element._startInitPing. rewrite Hstopped0, Hloading0. done.
  - unfold Element.fire.
    destruct (Element.find_timer timer w) as [tm|] eqn:Hfind; [|done].
    apply find_timer_Some in Hfind as [Hin Hid]. cbv zeta.
    destruct (timer_task tm) as [|requestId type ms|src|ms] eqn:Htask.
    + assert (tm ∈ Prober.pings w) as Hping.
      { apply list_elem_of_filter. split; [|done]. unfold Prober.is_init_ping.
        by rewrite Htask. }
      rewrite Harmed in Hping. by apply elem_of_nil in Hping.
    + by destruct (timer_repeats tm).
    + destruct (timer_repeats tm); simpl; rewrite Hstopped, orb_true_r; done.
    + by destruct (timer_repeats tm).
Qed.

Lemma run_snoc ops op w :
  Ledger.run (ops ++ [op]) w =
    (Ledger.apply op (Ledger.run ops w).1,
     (Ledger.run ops w).2 ++ option_list (Ledger.issues op (Ledger.run ops w).1)).
Proof. unfold Ledger.run. by rewrite fold_left_app. Qed.

(** A turn of the loop in which only events arrive, with no call in
    flight. *)
Lemma turn_of_events fuel events w :
  Loop.turn fuel (Loop.Env <$> events) (Loop.boot w) = Loop.boot (Loop.deliver_all events w).
Proof.
  unfold Loop.turn.
  assert (fold_left (fun M a => Loop.step a M) (Loop.Env <$> events) (Loop.boot w)
          = Loop.boot (Loop.deliver_all events w)) as ->.
  { revert w. induction events as [|e events IH]; intros w; [done|]. simpl.
    rewrite <- IH. done. }
  by destruct fuel.
Qed.

(** X30.  Once reconnecting is stopped the element's own handlers keep
    quiet: with no call of its async methods in flight, in any state it can
    reach with [_reconnectStopped] set, a turn of the loop in which the frame
    loads and timers fire posts no message, leaves the frame where it points,
    starts no navigation of it and leaves reconnecting stopped.  A call in
    flight is another matter: when the ready timeout of a [callApi] that is
    waiting fires, [_ensureReadyForApi] forces readiness, which clears
    [_reconnectStopped], and the call goes on to post its probe. *)
Theorem stopped_element_stays_quiet
    (getActiveTabIndex waitForTabCount waitForTabUrl : Legacy.Handler)
    (inherited : string → list JsVal → option JsError → Result JsVal)
    (parent_origin : option string) (request_timeout_ms : option Z) (clock : Z)
    (ops : list Ledger.Op) (events : list Loop.Event) (fuel : nat) :
  let w := (Ledger.run ops (Element.constructor parent_origin request_timeout_ms clock)).1 in
  let callApi := Legacy.callApi getActiveTabIndex waitForTabCount waitForTabUrl inherited in
  let waiting :=
    Loop.run 16
      [[Loop.Env (Loop.Connected (Some "https://bbx.example/login")); Loop.Env Loop.Loaded;
        Loop.Call (callApi (JStr "getTabs") [])];
       [Loop.Env (Loop.Stopped "manual-stop")]]
      (Loop.boot (Element.constructor None None 1700)) in
  let resumed := Loop.turn 16 [Loop.Env (Loop.TimerFires 2)] waiting in
  (_reconnectStopped w = true →
   Forall (fun e => e = Loop.Loaded ∨ ∃ timer, e = Loop.TimerFires timer) events →
   let M := Loop.turn fuel (Loop.Env <$> events) (Loop.boot w) in
   posted (Loop.world M) = posted w ∧
   iframe_src (Loop.world M) = iframe_src w ∧
   (iframe_loading (Loop.world M) = true → iframe_loading w = true) ∧
   _reconnectStopped (Loop.world M) = true ∧
   Loop.microtasks M = [] ∧ Loop.waiting M = []) ∧
  (_reconnectStopped (Loop.world waiting) = true ∧
   (Loop.waiting waiting).*1 = [0] ∧
   posted (Loop.world waiting) = [(JObj [("type", JStr "init")], "*")] ∧
   _reconnectStopped (Loop.world resumed) = false ∧
   posted (Loop.world resumed) =
     [(JObj [("type", JStr "init")], "*");
      (JObj [("type", JStr "bbx-api-call"); ("requestId", JStr "bbx-1700-1");
             ("data", JObj [("method", JStr "getTabCount"); ("args", JArr [])])], "*")]).
Proof.
  intros w callApi waiting resumed. split; [|vm_compute; repeat split; reflexivity].
  intros Hstopped Hevents M. subst M. rewrite turn_of_events. simpl.
  cut (posted (Loop.deliver_all events w) = posted w ∧
       iframe_src (Loop.deliver_all events w) = iframe_src w ∧
       (iframe_loading (Loop.deliver_all events w) = true → iframe_loading w = true) ∧
       _reconnectStopped (Loop.deliver_all events w) = true).
  { intros (? & ? & ? & ?). done. }
  subst w. revert ops Hstopped.
  induction Hevents as [|e events He _ IH]; intros ops Hstopped; [done|].
  destruct (stopped_handler_quiet parent_origin request_timeout_ms clock ops e Hstopped He)
    as (Hposted & Hsrc & Hloading & Hstopped').
  specialize (IH (ops ++ [Ledger.Deliver e])). rewrite run_snoc in IH.
  cbn [fst Ledger.apply] in IH.
  change (Loop.deliver_all (e :: events) ?w0)
    with (Loop.deliver_all events (Loop.deliver e w0)).
  destruct (IH Hstopped') as (-> & -> & Hloading' & ->).
  split; [done|]. split; [done|]. split; [auto|done].
Qed.

Lemma stopped_element_stays_quiet_witness :
  let idle : Legacy.Handler := fun _ _ => Ret JUndefined in
  let inherited : string → list JsVal → option JsError → Result JsVal :=
    fun _ args _ => Returned (JArr args) in
  let w :=
    (Ledger.run
       [Ledger.Deliver (Loop.Connected (Some "https://bbx.example/login"));
        Ledger.Deliver Loop.Loaded;
        Ledger.ArmReadyTimeout 8000;
        Ledger.Deliver (Loop.Stopped "manual-stop")]
       (Element.constructor None None 1700)).1 in
  let M :=
    Loop.turn 16 (Loop.Env <$> [Loop.Loaded; Loop.TimerFires 1; Loop.TimerFires 2])
      (Loop.boot w) in
  posted (Loop.world M) = [(JObj [("type", JStr "init")], "*")] ∧
  _reconnectStopped (Loop.world M) = true.
Proof.
  intros idle inherited w M.
  destruct (stopped_element_stays_quiet idle idle idle inherited None None 1700
              [Ledger.Deliver (Loop.Connected (Some "https://bbx.example/login"));
               Ledger.Deliver Loop.Loaded;
               Ledger.ArmReadyTimeout 8000;
               Ledger.Deliver (Loop.Stopped "manual-stop")]
              [Loop.Loaded; Loop.TimerFires 1; Loop.TimerFires 2] 16) as [Hquiet _].
  destruct Hquiet as (Hposted & _ & _ & Hstopped & _).
  - vm_compute. reflexivity.
  - constructor; [by left|]. constructor; [right; by exists 1|].
    constructor; [right; by exists 2|]. constructor.
  - fold w in Hposted, Hstopped. fold M in Hposted, Hstopped.
    split; [|exact Hstopped]. rewrite Hposted. vm_compute. reflexivity.
Defined.

(** ** How the legacy handlers end *)

Section HandlerFacts.
Import Element Requests Legacy Loop.

Lemma Ends_weaken {A} (R R' : A → Prop) (E E' : JsError → Prop) (m : Async A) :
  (∀ a, R a → R' a) → (∀ e, E e → E' e) → Ends R E m → Ends R' E' m.
Proof. intros HR HE Hm. induction Hm; constructor; auto. Qed.

Lemma Ends_bind {A B} (R : A → Prop) (R' : B → Prop) (E : JsError → Prop)
    (m : Async A) (f : A → Async B) :
  Ends R E m → (∀ a, R a → Ends R' E (f a)) → Ends R' E (m ≫= f).
Proof.
  intros Hm Hf. unfold mbind, Async_bind.
  induction Hm; simpl; try (constructor; auto); auto.
Qed.

Lemma Ends_try_catch {A} (R : A → Prop) (E E' : JsError → Prop)
    (m : Async A) (h : JsError → Async A) :
  Ends R E m → (∀ e, E e → Ends R E' (h e)) → Ends R E' (try_catch m h).
Proof.
  intros Hm Hh. induction Hm; simpl; try (constructor; auto); auto.
Qed.

Lemma Ends_await {A} (R : A → Prop) (E : JsError → Prop) (m : Async A) :
  Ends R E m → Ends R E (await m).
Proof.
  intros Hm. unfold await. eapply Ends_bind; [exact Hm|].
  intros a Ha. by repeat constructor.
Qed.

Lemma Ends_modify (E : JsError → Prop) f : Ends (fun _ => True) E (modify f).
Proof. by repeat constructor. Qed.

(** A request can end in any way. *)
Lemma Ends_request type data options :
  Ends (fun _ => True) (fun _ => True) (_request type data options).
Proof.
  unfold _request. constructor. intros w.
  destruct (negb (iframe_contentWindow w)); [by repeat constructor|].
  destruct (send type data options w) as [requestId w']. constructor. constructor.
  intros [v|e]; by constructor.
Qed.

(** What an [exec] returns or throws is among the ends of the body. *)
Lemma Ends_exec {A} (R : A → Prop) (E : JsError → Prop) (m : Async A) env w :
  Ends R E m →
  match (exec m env w).2 with
  | Some (Returned a) => R a
  | Some (Threw e) => E e
  | None => True
  end.
Proof.
  intros Hm. revert env w.
  induction Hm as [a Ha|e He|k Hk IH|w' k Hk IH|p k Hk IH|k Hk IH]; intros env w;
    cbn [exec]; try done; try apply IH.
  destruct env as [|events env]; [done|]. cbv zeta.
  destruct (outcome_of p (settled (deliver_all events w))); [apply IH|done].
Qed.

Lemma Ends_getTabs args originalError :
  Ends (fun v => Js.isArray v = true) (fun _ => False) (getTabs args originalError).
Proof.
  unfold getTabs.
  apply (Ends_bind (fun _ => True)).
  - apply (Ends_try_catch _ (fun _ => True)); [apply Ends_request|].
    intros e _. by repeat constructor.
  - intros [| | | | | |tabs|] _; by repeat constructor.
Qed.

Lemma Ends_await_getTabs :
  Ends (fun v => Js.isArray v = true) (fun _ => False) (await (getTabs [] None)).
Proof. apply Ends_await, Ends_getTabs. Qed.

Lemma Ends_resolveTabId indexArg :
  Ends (fun v => Js.truthy v = true ∨ v = JNull) (fun _ => False) (resolveTabId indexArg).
Proof.
  assert (∀ v, Js.truthy (Js.or v JNull) = true ∨ Js.or v JNull = JNull) as Hor.
  { intros v. unfold Js.or. destruct (Js.truthy v) eqn:E; auto. }
  unfold resolveTabId. destruct (given_tab_id indexArg) as [tabId|] eqn:Hgiven.
  { constructor. left. unfold given_tab_id in Hgiven.
    destruct indexArg as [| | | | |s| |]; try done.
    destruct (negb (String.eqb (Js.trim s) "")) eqn:E; [|done].
    injection Hgiven as <-. done. }
  apply (Ends_bind (fun _ => True)).
  { eapply Ends_weaken; [| |apply Ends_await_getTabs]; done. }
  intros tabs _.
  assert (Ends (fun v => Js.truthy v = true ∨ v = JNull) (fun _ => False)
            (activeTab ← try_catch (_request "getActiveTab" (JObj []) no_options)
                           (fun _ => Ret JNull);
             Ret (Js.or (tab_identifier activeTab) JNull))) as Hactive.
  { apply (Ends_bind (fun _ => True)).
    - apply (Ends_try_catch _ (fun _ => True)); [apply Ends_request|].
      intros e _. by constructor.
    - intros activeTab _. constructor. apply Hor. }
  destruct tabs as [| | | | | |[|tab0 rest]|]; try exact Hactive.
  constructor. apply Hor.
Qed.

Lemma Ends_on_tab indexArg failure messages originalError :
  Ends (fun v => v = JBool true) (fun e => e = no_tab_error failure originalError)
    (on_tab indexArg failure messages originalError).
Proof.
  unfold on_tab.
  apply (Ends_bind (fun _ => True)).
  { apply Ends_await. eapply Ends_weaken; [| |apply Ends_resolveTabId]; done. }
  intros tabId _. destruct (negb (Js.truthy tabId)).
  - by constructor.
  - apply (Ends_bind (fun _ => True)); [apply Ends_modify|].
    intros _ _. by constructor.
Qed.

Lemma iter_postRaw count message w :
  iframe_contentWindow w = true →
  Nat.iter count (_postRaw message) w =
    set_posted (posted w ++ replicate count (message, _allowedOrigin w)) w.
Proof.
  intros Hwin. induction count as [|count IH]; simpl.
  - by rewrite app_nil_r, set_posted_same.
  - rewrite IH. unfold _postRaw. cbn [iframe_contentWindow set_posted]. rewrite Hwin.
    cbn [negb].
    change ((message, _allowedOrigin w) :: replicate count (message, _allowedOrigin w))
      with (replicate (S count) (message, _allowedOrigin w)).
    rewrite replicate_S_end, app_assoc. reflexivity.
Qed.

End HandlerFacts.

(** X19.  The legacy handlers that only read or create never fail:
    [getTabs] always returns an array (the peer's list, or the cache when the
    query fails or answers something else), [getTabCount] and [closeAllTabs]
    a count, [createTab] and [createTabs] [true]. *)
Theorem legacy_queries_never_fail (args : list JsVal) (originalError : option JsError) :
  Ends (fun v => Js.isArray v = true) (fun _ => False) (Legacy.getTabs args originalError) ∧
  Ends is_count (fun _ => False) (Legacy.getTabCount args originalError) ∧
  Ends is_count (fun _ => False) (Legacy.closeAllTabs args originalError) ∧
  Ends (fun v => v = JBool true) (fun _ => False) (Legacy.createTab args originalError) ∧
  Ends (fun v => v = JBool true) (fun _ => False) (Legacy.createTabs args originalError).
Proof.
  assert (∀ n : nat, is_count (JNum (Z.of_nat n))) as Hcount
    by (intros n; exists (Z.of_nat n); split; [done|lia]).
  split; [apply Ends_getTabs|]. split; [|split; [|split]].
  - unfold Legacy.getTabCount.
    apply (Ends_bind (fun v => Js.isArray v = true)); [apply Ends_await_getTabs|].
    intros tabs Harray. destruct tabs; try done. constructor. apply Hcount.
  - unfold Legacy.closeAllTabs.
    apply (Ends_bind (fun v => Js.isArray v = true)); [apply Ends_await_getTabs|].
    set (keep := match _ with JNum k => Z.max 0 k | _ => 0%Z end).
    intros tabs Harray. destruct tabs as [| | | | | |tabs|]; try done.
    destruct (Z.of_nat (length tabs) <=? keep)%Z.
    + constructor. unfold Js.or. destruct (Js.truthy _); [apply Hcount|by exists 0%Z].
    + apply (Ends_bind (fun _ => True)); [apply Ends_modify|].
      intros _ _. constructor. exists (Z.max keep 0). split; [done|lia].
  - unfold Legacy.createTab.
    apply (Ends_bind (fun _ => True)); [apply Ends_modify|]. intros _ _. by constructor.
  - unfold Legacy.createTabs.
    apply (Ends_bind (fun _ => True)); [apply Ends_modify|]. intros _ _. by constructor.
Qed.

(** X20.  Each legacy handler that acts on one tab ends in one of two ways
    only: it returns [true], or it fails with its own "no tab" error, which
    carries the message of the original error when there is one.
    [submitOmnibox] fails with the error of [navigateTo]. *)
Theorem tab_handlers_fail_only_without_tab
    (handler : Legacy.Handler) (failure : string)
    (args : list JsVal) (originalError : option JsError) :
  (handler, failure) ∈ tab_handlers →
  Ends (fun v => v = JBool true) (fun e => e = no_tab_error failure originalError)
    (handler args originalError).
Proof.
  intros Hin. unfold tab_handlers in Hin.
  repeat (apply elem_of_cons in Hin as [[= -> ->]|Hin]; [apply Ends_on_tab|]).
  by apply elem_of_nil in Hin.
Qed.

Lemma tab_handlers_fail_only_without_tab_witness :
  Ends (fun v => v = JBool true)
    (fun e => e = Error "Legacy navigateTo failed: no active tab (timed out)")
    (Legacy.submitOmnibox [JStr "rocq prover"] (Some (Error "timed out"))).
Proof.
  apply (tab_handlers_fail_only_without_tab Legacy.submitOmnibox
           "Legacy navigateTo failed: no active tab" [JStr "rocq prover"]
           (Some (Error "timed out"))).
  unfold tab_handlers. repeat (apply elem_of_cons; first [by left|right]).
Defined.

(** X21.  The legacy [evaluate] runs three expressions and no other: it
    returns [true] only for an expression that mentions [history.back],
    [history.forward] or [window.stop], and for any other expression, or for
    an argument that is not a string, it fails: with the "no active tab"
    error when no tab is found, with the "only supports" error otherwise. *)
Theorem legacy_evaluate_runs_whitelist_only
    (args : list JsVal) (originalError : option JsError) :
  let expression := Legacy.string_or_empty (Legacy.arg 0 args) in
  Ends (fun v => v = JBool true ∧ legacy_evaluable expression = true)
    (fun e =>
       e = no_tab_error "Legacy evaluate failed: no active tab" originalError ∨
       (legacy_evaluable expression = false ∧
        e = no_tab_error
              "Legacy evaluate only supports history.back, history.forward, and window.stop"
              originalError))
    (Legacy.evaluate args originalError).
Proof.
  intros expression. unfold Legacy.evaluate. fold expression. unfold legacy_evaluable.
  apply (Ends_bind (fun _ => True)).
  { apply Ends_await. eapply Ends_weaken; [| |apply Ends_resolveTabId]; done. }
  intros tabId _. destruct (negb (Js.truthy tabId)).
  { constructor. by left. }
  destruct (Legacy.includes "history.back" expression).
  { apply (Ends_bind (fun _ => True)); [apply Ends_modify|]. intros _ _. by constructor. }
  destruct (Legacy.includes "history.forward" expression).
  { apply (Ends_bind (fun _ => True)); [apply Ends_modify|]. intros _ _. by constructor. }
  destruct (Legacy.includes "window.stop" expression).
  { apply (Ends_bind (fun _ => True)); [apply Ends_modify|]. intros _ _. by constructor. }
  constructor. by right.
Qed.

(** X22.  The methods that [_legacyMethodList] names are exactly the keys
    of the handler table of [_legacyCall]: every method advertised in legacy
    mode has a handler, and every handler is advertised. *)
Theorem legacy_methods_are_the_handlers
    (getActiveTabIndex waitForTabCount waitForTabUrl : Legacy.Handler) (method : string) :
  method ∈ Surface._legacyMethodList ↔
  is_Some (Legacy._legacyHandlers getActiveTabIndex waitForTabCount waitForTabUrl method).
Proof.
  unfold Surface._legacyMethodList, Legacy._legacyHandlers. split.
  - intros Hin.
    repeat (apply elem_of_cons in Hin as [->|Hin]; [by eexists|]).
    by apply elem_of_nil in Hin.
  - intros Hsome.
    repeat match goal with
           | H : is_Some (if String.eqb method ?name then _ else _) |- _ =>
               destruct (String.eqb method name) eqn:E;
               [apply String.eqb_eq in E; subst method;
                repeat (apply elem_of_cons; first [by left|right])|clear E]
           end.
    by destruct Hsome.
Qed.

(** X23.  [createTabs] posts the message
    [{ type: 'createTab', data: { url } }] as many times as the count asks
    for, with the url of the options when that is a string and the empty one
    otherwise, changes nothing else and returns [true]; a count that is not a
    positive integer posts nothing. *)
Theorem createTabs_posts_one_message_per_tab
    (count opts : JsVal) (originalError : option JsError)
    (env : list (list Loop.Event)) (w : World) :
  iframe_contentWindow w = true →
  let wanted := match count with JNum n => Z.to_nat n | _ => 0 end in
  let url := match (Js.or opts (JObj [])).["url"] with JStr url => url | _ => "" end in
  Loop.exec (Legacy.createTabs [count; opts] originalError) env w =
    (set_posted
       (posted w ++
        replicate wanted
          (JObj [("type", JStr "createTab"); ("data", JObj [("url", JStr url)])],
           Element._allowedOrigin w)) w,
     env, Some (Returned (JBool true))).
Proof.
  intros Hwin wanted url. unfold Legacy.createTabs.
  rewrite exec_bind, exec_modify. cbn [Loop.exec].
  change (Legacy.arg 0 [count; opts]) with count.
  change (Legacy.arg 1 [count; opts]) with opts.
  rewrite iter_postRaw by done.
  do 4 f_equal. subst wanted.
  destruct count as [| | |n| | | |]; try done.
  destruct (0 <? n)%Z eqn:E; [done|]. apply Z.ltb_ge in E.
  by replace (Z.to_nat n) with 0 by lia.
Qed.

Lemma createTabs_posts_one_message_per_tab_witness :
  posted
    (Loop.exec (Legacy.createTabs [JNum 3; JObj [("url", JStr "https://example.com")]] None)
       [] Scenario.ready_world).1.1 =
  posted Scenario.ready_world ++
  replicate 3
    (JObj [("type", JStr "createTab"); ("data", JObj [("url", JStr "https://example.com")])],
     "*").
Proof.
  rewrite (createTabs_posts_one_message_per_tab (JNum 3)
             (JObj [("url", JStr "https://example.com")]) None [] Scenario.ready_world);
    [|vm_compute; reflexivity].
  vm_compute. reflexivity.
Defined.

(** ** Method discovery and the health check *)

Section SurfaceFacts.
Import Element Requests Legacy Loop Surface.

Lemma Ends_ensureReadyForApi :
  Ends (fun _ => True) (fun _ => False) _ensureReadyForApi.
Proof.
  unfold _ensureReadyForApi. constructor. intros w.
  destruct (_isReady w); [by constructor|]. cbv zeta.
  apply (Ends_try_catch _ (fun _ => True)).
  - apply (Ends_bind (fun _ => True)); [|intros; by constructor].
    apply Ends_await. unfold whenReady. constructor. intros w0.
    destruct (_isReady w0); [by constructor|].
    destruct (setTimer _ _ _ w0) as [timer w1]. constructor. constructor.
    intros [v|e]; by repeat constructor.
  - intros e _. apply (Ends_bind (fun _ => True)); [apply Ends_modify|].
    intros; by constructor.
Qed.

Lemma exec_ensureReady_ready env w :
  _isReady w = true → exec _ensureReadyForApi env w = (w, env, Some (Returned (JBool true))).
Proof. intros Hready. unfold _ensureReadyForApi. by rewrite exec_Get, Hready. Qed.

End SurfaceFacts.

(** X24.  [listApiMethods] never fails and always returns an array,
    whatever the state of the element and however its wait for readiness and
    its request end. *)
Theorem listApiMethods_never_fails (options : Requests.RequestOptions) :
  Ends (fun v => Js.isArray v = true) (fun _ => False) (Surface.listApiMethods options).
Proof.
  assert (Ends (fun v => Js.isArray v = true) (fun _ => False) Surface.api_methods)
    as Hmethods by by repeat constructor.
  unfold Surface.listApiMethods. constructor. intros w.
  destruct (0 <? length (_apiMethods w))%nat; [done|].
  apply (Ends_bind (fun _ => True)).
  { apply Ends_await. apply Ends_ensureReadyForApi. }
  intros _ _. constructor. intros w1.
  destruct (mode_is Legacy (_transportMode w1)).
  { apply (Ends_bind (fun _ => True)); [apply Ends_modify|]. by intros. }
  cbv zeta. apply (Ends_bind (fun _ => True)); [|by intros].
  apply (Ends_try_catch _ (fun _ => True)).
  - apply (Ends_bind (fun _ => True)); [apply Ends_request|]. intros methods _.
    apply (Ends_bind (fun _ => True)); [apply Ends_modify|]. intros _ _.
    apply Ends_modify.
  - intros e _. apply (Ends_bind (fun _ => True)); [apply Ends_modify|]. intros _ _.
    apply Ends_modify.
Qed.

(** X25.  [listApiMethods] asks the peer only when it has to.  With
    methods already known it returns them at once; ready and in legacy mode it
    adopts and returns the list of the legacy methods; in both cases nothing
    is sent and nothing else changes.  Otherwise, once ready, it sends one
    [bbx-api-list] request: an answer selects the modern transport and is
    kept as the list of methods when it is an array (the empty list when
    not); a failure of the request selects the legacy transport and its
    list. *)
Theorem listApiMethods_discovers_or_falls_back
    (options : Requests.RequestOptions) (events : list Loop.Event)
    (env : list (list Loop.Event)) (w : World) :
  let legacy := JStr <$> Surface._legacyMethodList in
  (_apiMethods w ≠ [] →
   Loop.exec (Surface.listApiMethods options) env w =
     (w, env, Some (Returned (JArr (_apiMethods w))))) ∧
  (_apiMethods w = [] → _isReady w = true → _transportMode w = Legacy →
   Loop.exec (Surface.listApiMethods options) env w =
     (set_apiMethods legacy w, env, Some (Returned (JArr legacy)))) ∧
  (_apiMethods w = [] → _isReady w = true → _transportMode w ≠ Legacy →
   iframe_contentWindow w = true →
   let timeout :=
     match Requests.timeoutMs options with
     | Some ms => ms
     | None => Z.min (Element.requestTimeoutMs w) 5000
     end in
   let sent :=
     Requests.send "bbx-api-list" (JObj [])
       (Requests.mkOptions (Some timeout) (Requests.messageExtras options)) w in
   let w1 := Loop.deliver_all events sent.2 in
   Loop.exec (Surface.listApiMethods options) (events :: env) w =
     match outcome_of (WRequest sent.1) (settled w1) with
     | Some (Resolved methods) =>
         let items := match methods with JArr items => items | _ => [] end in
         (set_transportMode Modern (set_apiMethods items w1), env,
          Some (Returned (JArr items)))
     | Some (Rejected _) =>
         (set_apiMethods legacy (set_transportMode Legacy w1), env,
          Some (Returned (JArr legacy)))
     | None => (w1, env, None)
     end).
Proof.
  intros legacy. split; [|split].
  - intros Hknown. unfold Surface.listApiMethods. rewrite exec_Get.
    destruct (_apiMethods w) as [|m ms] eqn:Hm; [by destruct Hknown|].
    cbn [length Nat.ltb Nat.leb]. unfold Surface.api_methods. rewrite exec_Get.
    cbn [Loop.exec]. by rewrite Hm.
  - intros Hnone Hready Hmode. unfold Surface.listApiMethods.
    rewrite exec_Get, Hnone. cbn [length Nat.ltb Nat.leb].
    rewrite exec_bind, exec_await, exec_ensureReady_ready by done.
    rewrite exec_Get, Hmode. cbn [mode_is]. done.
  - intros Hnone Hready Hmode Hwin timeout sent w1. unfold Surface.listApiMethods.
    rewrite exec_Get, Hnone. cbn [length Nat.ltb Nat.leb].
    rewrite exec_bind, exec_await, exec_ensureReady_ready by done.
    rewrite exec_Get.
    destruct (mode_is Legacy (_transportMode w)) eqn:E.
    { destruct (_transportMode w); done. }
    cbv zeta. fold timeout.
    rewrite exec_bind, exec_try_catch, exec_bind, exec_request by done.
    cbv zeta. fold sent. fold w1.
    destruct (outcome_of (WRequest sent.1) (settled w1)) as [[methods|e]|]; done.
Qed.

Lemma listApiMethods_discovers_or_falls_back_witness :
  (Loop.exec (Surface.listApiMethods Requests.no_options)
     [[Scenario.reply "bbx-1700-1" (JArr [JStr "getTabs"; JStr "click"])]]
     Scenario.ready_world).2 =
    Some (Returned (JArr [JStr "getTabs"; JStr "click"])) ∧
  _transportMode
    (Loop.exec (Surface.listApiMethods Requests.no_options) [[Loop.TimerFires 2]]
       Scenario.ready_world).1.1 = Legacy.
Proof.
  split.
  - destruct (listApiMethods_discovers_or_falls_back Requests.no_options
                [Scenario.reply "bbx-1700-1" (JArr [JStr "getTabs"; JStr "click"])] []
                Scenario.ready_world) as (_ & _ & Hexec).
    rewrite Hexec; [|vm_compute; reflexivity..|done|vm_compute; reflexivity].
    vm_compute. reflexivity.
  - destruct (listApiMethods_discovers_or_falls_back Requests.no_options
                [Loop.TimerFires 2] [] Scenario.ready_world) as (_ & _ & Hexec).
    rewrite Hexec; [|vm_compute; reflexivity..|done|vm_compute; reflexivity].
    vm_compute. reflexivity.
Defined.



(** X27.  With the transport unknown, [health] tries the modern probe and,
    only when that fails, the legacy one.  The first probe that is answered
    decides the transport and [health] returns [true]; when both fail the
    transport stays undecided and [health] fails with one error that carries
    the timeout and the messages of both failures. *)
Theorem health_decides_the_unknown_transport
    (timeoutMs : option Z) (events1 events2 : list Loop.Event)
    (env : list (list Loop.Event)) (w : World) :
  iframe_contentWindow w = true →
  _transportMode w = Unknown →
  let effectiveTimeoutMs :=
    match timeoutMs with
    | Some ms => Z.max 100 ms
    | None => Z.min (Element.requestTimeoutMs w) 8000
    end in
  let options := Requests.timeout_option effectiveTimeoutMs in
  let modern := Requests.send "bbx-api-call" Requests.probe_data options w in
  let w1 := Loop.deliver_all events1 modern.2 in
  let legacy := Requests.send "getTabCount" (JObj []) options w1 in
  let w2 := Loop.deliver_all events2 legacy.2 in
  Loop.exec (Surface.health timeoutMs) (events1 :: events2 :: env) w =
    match outcome_of (WRequest modern.1) (settled w1) with
    | Some (Resolved _) =>
        (set_transportMode Modern w1, events2 :: env, Some (Returned (JBool true)))
    | Some (Rejected modernError) =>
        if iframe_contentWindow w1 then
          match outcome_of (WRequest legacy.1) (settled w2) with
          | Some (Resolved _) =>
              (set_transportMode Legacy w2, env, Some (Returned (JBool true)))
          | Some (Rejected legacyError) =>
              (w2, env,
               Some (Threw (Surface.health_failed effectiveTimeoutMs modernError
                              legacyError)))
          | None => (w2, env, None)
          end
        else
          (w1, events2 :: env,
           Some (Threw (Surface.health_failed effectiveTimeoutMs modernError
                          (Error "browserbox-webview iframe is not ready."))))
    | None => (w1, events2 :: env, None)
    end.
Proof.
  intros Hwin Hmode effectiveTimeoutMs options modern w1 legacy w2.
  unfold Surface.health. rewrite exec_Get, Hwin, Hmode. cbn [negb mode_is]. cbv zeta.
  fold effectiveTimeoutMs. fold options.
  rewrite exec_try_catch, exec_bind, exec_request by done. cbv zeta.
  fold modern. fold w1.
  destruct (outcome_of (WRequest modern.1) (settled w1)) as [[v|modernError]|]; try done.
  rewrite exec_try_catch, exec_bind.
  destruct (iframe_contentWindow w1) eqn:Hwin1.
  - rewrite exec_request by done. cbv zeta. fold legacy. fold w2.
    by destruct (outcome_of (WRequest legacy.1) (settled w2)) as [[v|legacyError]|].
  - by rewrite exec_request_unavailable.
Qed.

Lemma health_decides_the_unknown_transport_witness :
  (Loop.exec (Surface.health None) [[Loop.TimerFires 2]; [Loop.TimerFires 3]]
     Scenario.ready_world).2 =
    Some (Threw (Error
      ("browserbox-webview health check failed after 8000ms (modern error: " +:+
       "browserbox-webview request timed out (bbx-api-call) after 8000ms; legacy error: " +:+
       "browserbox-webview request timed out (getTabCount) after 8000ms)"))) ∧
  _transportMode
    (Loop.exec (Surface.health None) [[Loop.TimerFires 2]; [Loop.TimerFires 3]]
       Scenario.ready_world).1.1 = Unknown.
Proof.
  rewrite (health_decides_the_unknown_transport None [Loop.TimerFires 2]
             [Loop.TimerFires 3] [] Scenario.ready_world);
    [|vm_compute; reflexivity..].
  split; vm_compute; reflexivity.
Defined.

(** ** Invariants under concurrent calls *)

Section ConcurrencyFacts.
Import Element Requests Legacy Loop Concurrency.

Lemma Keeps_bind {A B} P (m : Async A) (f : A → Async B) :
  Keeps P m → (∀ a, Keeps P (f a)) → Keeps P (m ≫= f).
Proof.
  intros Hm Hf. unfold mbind, Async_bind.
  induction m as [a|e|k IH|w k IH|p k IH|k IH]; simpl in *; auto.
  destruct Hm. auto.
Qed.

Lemma Keeps_try_catch {A} P (m : Async A) (h : JsError → Async A) :
  Keeps P m → (∀ e, Keeps P (h e)) → Keeps P (try_catch m h).
Proof.
  intros Hm Hh.
  induction m as [a|e|k IH|w k IH|p k IH|k IH]; simpl in *; auto.
  destruct Hm. auto.
Qed.

Lemma Keeps_await {A} P (m : Async A) : Keeps P m → Keeps P (await m).
Proof. intros Hm. unfold await. by apply Keeps_bind. Qed.

Lemma Keeps_modify P f : (∀ w, P w → P (f w)) → Keeps P (modify f).
Proof. intros Hf w Hw. simpl. auto. Qed.

(** *** The machine *)

Lemma run_sync_Keeps {A} P (m : Async A) w :
  P w → Keeps P m →
  P (run_sync m w).1 ∧
  match (run_sync m w).2 with
  | Finished _ => True
  | Waiting _ k => ∀ o, Keeps P (k o)
  | Yielded k => Keeps P k
  end.
Proof.
  revert w. induction m as [a|e|k IH|w' k IH|p k IH|k IH]; intros w Hw Hm; simpl in *; auto.
  destruct Hm. auto.
Qed.

Lemma resume_Holds P id body M : Holds P M → Keeps P body → Holds P (resume id body M).
Proof.
  intros (Hw & Hmicro & Hwait) Hbody. unfold resume.
  destruct (run_sync_Keeps P body (world M) Hw Hbody) as [Hw' Hstatus].
  destruct (run_sync body (world M)) as [w' [r|p k|k]]; simpl in *.
  - by split.
  - split; [done|]. split; [done|]. apply Forall_app. split; [done|]. by constructor.
  - split; [done|]. split; [|done]. apply Forall_app. split; [done|]. by constructor.
Qed.

Lemma wake_Holds P M : Holds P M → Holds P (wake M).
Proof.
  intros (Hw & Hmicro & Hwait). unfold wake. split; [done|]. simpl. split.
  - apply Forall_app. split; [done|].
    apply Forall_forall. intros [id body] Hin.
    apply list_elem_of_omap in Hin as ([id' [p k]] & Hin & Hsome). simpl in *.
    destruct (outcome_of p (settled (world M))) as [o|]; [|done].
    injection Hsome as <- <-. rewrite Forall_forall in Hwait. apply (Hwait _ Hin).
  - rewrite Forall_forall in *. intros t Hin.
    apply list_elem_of_filter in Hin as [_ Hin]. auto.
Qed.

Lemma drain_Holds P fuel M : Holds P M → Holds P (drain fuel M).
Proof.
  revert M. induction fuel as [|fuel IH]; intros M HM.
  - simpl. destruct (microtasks (wake M)); by apply wake_Holds.
  - cbn [drain]. pose proof (wake_Holds P M HM) as (Hw & Hmicro & Hwait).
    destruct (microtasks (wake M)) as [|[id body] rest] eqn:Hqueue.
    + split; [done|]. by rewrite Hqueue.
    + apply Forall_cons in Hmicro as [Hbody Hrest].
      apply IH. apply resume_Holds; [|done]. by split.
Qed.

Lemma step_Holds P a M :
  Holds P M →
  match a with
  | Call body => Keeps P body
  | Env e => ∀ w, P w → P (deliver e w)
  end →
  Holds P (step a M).
Proof.
  intros HM Ha. destruct a as [body|e]; simpl.
  - apply resume_Holds; [|done]. by destruct HM as (? & ? & ?).
  - destruct HM as (Hw & Hmicro & Hwait). split; [|done]. simpl. auto.
Qed.

Lemma run_Holds P fuel turns M :
  Holds P M →
  Forall (Forall (fun a => match a with
                           | Call body => Keeps P body
                           | Env e => ∀ w, P w → P (deliver e w)
                           end)) turns →
  Holds P (run fuel turns M).
Proof.
  intros HM Hturns. revert M HM.
  induction Hturns as [|actions turns Hactions Hturns IH]; intros M HM; simpl; [done|].
  apply IH. unfold turn. apply drain_Holds.
  clear IH Hturns. revert M HM.
  induction Hactions as [|a actions Ha Hactions IH]; intros M HM; simpl; [done|].
  apply IH. by apply step_Holds.
Qed.

(** *** The element's steps are sound *)

Lemma Sound_apply op w : Sound w → Sound (Ledger.apply op w).
Proof.
  intros ([issued HL] & HR & HP). split; [|split].
  - eexists. by apply Inv_apply.
  - by apply ready_apply.
  - by apply (prober_apply issued).
Qed.

Lemma Sound_constructor parent_origin request_timeout_ms clock :
  Sound (constructor parent_origin request_timeout_ms clock).
Proof.
  split; [|split].
  - eexists. apply Inv_constructor.
  - apply ready_constructor.
  - apply prober_constructor.
Qed.

Lemma Sound_postRaw message w : Sound w → Sound (_postRaw message w).
Proof. apply (Sound_apply (Ledger.PostRaw message)). Qed.

Lemma Keeps_request type data options : Keeps Sound (_request type data options).
Proof.
  intros w Hw. destruct (negb (iframe_contentWindow w)) eqn:Hwin; [done|].
  apply negb_false_iff in Hwin.
  pose proof (Sound_apply (Ledger.Send type data options) w Hw) as Hsent.
  cbn [Ledger.apply] in Hsent. rewrite Hwin in Hsent.
  destruct (send type data options w) as [requestId w']. cbn [snd] in Hsent.
  split; [done|]. by intros [v|e].
Qed.

Lemma Keeps_whenReady timeoutMs : Keeps Sound (whenReady timeoutMs).
Proof.
  intros w Hw. destruct (_isReady w); [done|].
  pose proof (Sound_apply (Ledger.ArmReadyTimeout timeoutMs) w Hw) as Harmed.
  cbn [Ledger.apply] in Harmed.
  destruct (setTimer timeoutMs false (ReadyTimeout timeoutMs) w) as [timer w'].
  split; [done|]. by intros [v|e].
Qed.

Lemma Keeps_ensureReadyForApi : Keeps Sound _ensureReadyForApi.
Proof.
  intros w Hw. destruct (_isReady w); [done|]. cbv zeta.
  apply Keeps_try_catch.
  - apply Keeps_bind; [|done]. apply Keeps_await, Keeps_whenReady.
  - intros e. apply Keeps_bind; [|done]. apply Keeps_modify. intros w' Hw'.
    apply (Sound_apply (Ledger.DispatchEvent _ _)).
    by apply (Sound_apply Ledger.ForceReady).
Qed.

Lemma Keeps_set_transportMode mode : Keeps Sound (modify (set_transportMode mode)).
Proof. apply Keeps_modify. intros w. apply (Sound_apply (Ledger.SetTransportMode mode)). Qed.

Lemma Keeps_set_apiMethods methods : Keeps Sound (modify (set_apiMethods methods)).
Proof. apply Keeps_modify. intros w. apply (Sound_apply (Ledger.SetApiMethods methods)). Qed.

Lemma Keeps_resolveTransport : Keeps Sound _resolveTransport.
Proof.
  intros w Hw. destruct (negb (mode_is Unknown (_transportMode w))); [done|].
  apply Keeps_bind; [|done]. apply Keeps_try_catch.
  - apply Keeps_bind; [apply Keeps_request|]. intros _. apply Keeps_set_transportMode.
  - intros _. apply Keeps_set_transportMode.
Qed.

Lemma Keeps_getTabs args originalError : Keeps Sound (getTabs args originalError).
Proof.
  unfold getTabs. apply Keeps_bind.
  - apply Keeps_try_catch; [apply Keeps_request|done].
  - intros tabs. destruct tabs; try done.
    apply Keeps_bind; [|done]. apply Keeps_modify. intros w.
    apply (Sound_apply (Ledger.SetLegacyTabsCache _)).
Qed.

Lemma Keeps_resolveTabId indexArg : Keeps Sound (resolveTabId indexArg).
Proof.
  unfold resolveTabId. destruct (given_tab_id indexArg); [done|].
  apply Keeps_bind; [apply Keeps_await, Keeps_getTabs|].
  intros tabs.
  assert (Keeps Sound
            (activeTab ← try_catch (_request "getActiveTab" (JObj []) no_options)
                           (fun _ => Ret JNull);
             Ret (Js.or (tab_identifier activeTab) JNull))) as Hactive.
  { apply Keeps_bind; [|done]. apply Keeps_try_catch; [apply Keeps_request|done]. }
  destruct tabs as [| | | | | |[|tab0 rest]|]; done.
Qed.

Lemma Sound_postRaw_all messages w :
  Sound w → Sound (fold_left (fun w message => _postRaw message w) messages w).
Proof.
  revert w. induction messages as [|message messages IH]; intros w Hw; simpl; [done|].
  by apply IH, Sound_postRaw.
Qed.

Lemma Keeps_on_tab indexArg failure messages originalError :
  Keeps Sound (on_tab indexArg failure messages originalError).
Proof.
  unfold on_tab. apply Keeps_bind; [apply Keeps_await, Keeps_resolveTabId|].
  intros tabId. destruct (negb (Js.truthy tabId)); [done|].
  apply Keeps_bind; [|done]. apply Keeps_modify. intros w. apply Sound_postRaw_all.
Qed.

Lemma Keeps_post message : Keeps Sound (modify (_postRaw message)).
Proof. apply Keeps_modify. intros w. apply Sound_postRaw. Qed.

Section Handlers.
Variables getActiveTabIndex waitForTabCount waitForTabUrl : Handler.
Variable inherited : string → list JsVal → option JsError → Result JsVal.
Hypothesis getActiveTabIndex_sound :
  ∀ args originalError, Keeps Sound (getActiveTabIndex args originalError).
Hypothesis waitForTabCount_sound :
  ∀ args originalError, Keeps Sound (waitForTabCount args originalError).
Hypothesis waitForTabUrl_sound :
  ∀ args originalError, Keeps Sound (waitForTabUrl args originalError).

Lemma Keeps_legacyCall method args originalError :
  Keeps Sound
    (_legacyCall getActiveTabIndex waitForTabCount waitForTabUrl inherited method args
       originalError).
Proof.
  unfold _legacyCall, _legacyHandlers.
  repeat match goal with
         | |- context [String.eqb method ?name] => destruct (String.eqb method name)
         end;
    try done; try apply Keeps_getTabs; try apply Keeps_on_tab;
    try (case_bool_decide; [by destruct (inherited _ _ _)|done]).
  - unfold getTabCount. apply Keeps_bind; [apply Keeps_await, Keeps_getTabs|].
    by intros [].
  - unfold createTab. apply Keeps_bind; [apply Keeps_post|done].
  - unfold createTabs. apply Keeps_bind; [|done]. apply Keeps_modify. intros w.
    generalize (Z.to_nat
                  match arg 0 args with
                  | JNum n => if (0 <? n)%Z then n else 0%Z
                  | _ => 0%Z
                  end).
    intros count Hw. induction count as [|count IH]; simpl; [done|].
    by apply Sound_postRaw.
  - unfold closeAllTabs. apply Keeps_bind; [apply Keeps_await, Keeps_getTabs|].
    intros tabs. destruct tabs as [| | | | | |tabs|]; try done.
    case_match; [done|]. apply Keeps_bind; [|done]. apply Keeps_modify.
    intros w. generalize (closing_indices (length tabs) (Z.to_nat
      match (Js.or (arg 0 args) (JObj [])).["keep"] with
      | JNum k => Z.max 0 k
      | _ => 0%Z
      end)).
    intros indices. revert w.
    induction indices as [|i indices IH]; intros w Hw; simpl; [done|].
    apply IH. unfold close_if_identified. cbv zeta.
    destruct (negb (Js.truthy _)); [done|by apply Sound_postRaw].
  - unfold evaluate. apply Keeps_bind; [apply Keeps_await, Keeps_resolveTabId|].
    intros tabId. repeat case_match; try done;
      (apply Keeps_bind; [apply Keeps_post|done]).
Qed.

Lemma Keeps_callApi method args :
  Keeps Sound (callApi getActiveTabIndex waitForTabCount waitForTabUrl inherited method args).
Proof.
  unfold callApi. destruct method as [| | | | |method| |]; try done.
  destruct (String.eqb (Js.trim method) ""); [done|].
  apply Keeps_bind; [apply Keeps_await, Keeps_ensureReadyForApi|]. intros _.
  apply Keeps_bind.
  - intros w Hw. destruct (mode_is Unknown (_transportMode w)); [|done].
    apply Keeps_await, Keeps_resolveTransport.
  - intros _ w Hw. destruct (mode_is Legacy (_transportMode w)).
    + apply Keeps_legacyCall.
    + apply Keeps_request.
Qed.

Lemma Keeps_listApiMethods options : Keeps Sound (Surface.listApiMethods options).
Proof.
  intros w Hw. destruct (0 <? length (_apiMethods w))%nat; [done|].
  apply Keeps_bind; [apply Keeps_await, Keeps_ensureReadyForApi|]. intros _ w1 Hw1.
  destruct (mode_is Legacy (_transportMode w1)).
  { apply Keeps_bind; [apply Keeps_set_apiMethods|done]. }
  cbv zeta. apply Keeps_bind; [|done]. apply Keeps_try_catch.
  - apply Keeps_bind; [apply Keeps_request|]. intros methods.
    apply Keeps_bind; [apply Keeps_set_apiMethods|]. intros _.
    apply Keeps_set_transportMode.
  - intros _. apply Keeps_bind; [apply Keeps_set_transportMode|]. intros _.
    apply Keeps_set_apiMethods.
Qed.

Lemma Keeps_health timeoutMs : Keeps Sound (Surface.health timeoutMs).
Proof.
  intros w Hw. destruct (negb (iframe_contentWindow w)); [done|]. cbv zeta.
  destruct (mode_is Modern (_transportMode w)).
  { apply Keeps_bind; [apply Keeps_request|done]. }
  destruct (mode_is Legacy (_transportMode w)).
  { apply Keeps_bind; [apply Keeps_request|done]. }
  apply Keeps_try_catch.
  - apply Keeps_bind; [apply Keeps_request|]. intros _.
    apply Keeps_bind; [apply Keeps_set_transportMode|done].
  - intros modernError. apply Keeps_try_catch; [|done].
    apply Keeps_bind; [apply Keeps_request|]. intros _.
    apply Keeps_bind; [apply Keeps_set_transportMode|done].
Qed.

Lemma Sound_after fuel turns w :
  Sound w →
  Sound (after getActiveTabIndex waitForTabCount waitForTabUrl inherited fuel turns w).
Proof.
  intros Hw. unfold after.
  apply (run_Holds Sound fuel); [by split|].
  apply Forall_forall. intros actions Hactions.
  apply list_elem_of_fmap in Hactions as (turn & -> & _).
  apply Forall_forall. intros a Ha.
  apply list_elem_of_fmap in Ha as ([invocation|e] & -> & _); simpl.
  - destruct invocation; simpl.
    + apply Keeps_callApi.
    + intros w0 Hw0. apply Keeps_whenReady.
    + apply Keeps_listApiMethods.
    + apply Keeps_health.
  - intros w' Hw'. apply (Sound_apply (Ledger.Deliver e) w' Hw').
Qed.

End Handlers.

(** *** What soundness gives *)

Lemma Sound_settled_once w id :
  Sound w → length (Ledger.settlements id (settled w)) ≤ 1.
Proof.
  intros ([issued HL] & _ & _).
  destruct (Ledger.settlements id (settled w)) as [|s log] eqn:Hlog; [simpl; lia|].
  assert (id ∈ issued) as Hsent
    by (apply (Ledger.settled_issued _ _ HL); by rewrite Hlog).
  destruct (Ledger.once _ _ HL id Hsent) as [[_ Hnone]|[[_ Hone]|[_ Hnone]]].
  - by rewrite Hnone in Hlog.
  - rewrite Hlog in Hone. lia.
  - by rewrite Hnone in Hlog.
Qed.

Lemma Sound_ready w :
  Sound w → _isReady w = true ↔ ResolveReady (_readyPromise w) ∈ settled w.
Proof.
  intros (_ & [Hnow Hunready _ _] & _). split.
  - intros Hready. specialize (Hnow Hready).
    destruct (Readiness.ready_resolutions (_readyPromise w) (settled w)) as [|s log] eqn:Hlog;
      [done|].
    assert (s ∈ Readiness.ready_resolutions (_readyPromise w) (settled w)) as Hs
      by (rewrite Hlog; apply elem_of_cons; by left).
    apply list_elem_of_filter in Hs as [Hres Hin].
    destruct s as [| |promise|]; try done. simpl in Hres.
    apply Nat.eqb_eq in Hres. by subst.
  - intros Hin. destruct (_isReady w); [done|].
    assert (ResolveReady (_readyPromise w) ∈
              Readiness.ready_resolutions (_readyPromise w) (settled w)) as Hs.
    { apply list_elem_of_filter. split; [|done]. simpl. apply Nat.eqb_refl. }
    rewrite Hunready in Hs by done. by apply elem_of_nil in Hs.
Qed.

End ConcurrencyFacts.

(** X28.  The invariants survive concurrency.  Let the host page call
    [callApi], [whenReady], [listApiMethods] and [health] as it likes, any
    number of calls in flight at once, and let events arrive in any order
    between the microtasks of those calls.  Then, at the end of every turn of
    the loop: no request has been settled twice; the element is ready exactly
    when its current ready promise is resolved; and at most one liveness
    interval is armed, the one that [_initPingTimer] records.  The three
    legacy handlers that the development leaves open are taken to keep the
    invariants, as the handlers it defines do. *)
Theorem concurrent_calls_keep_the_invariants
    (getActiveTabIndex waitForTabCount waitForTabUrl : Legacy.Handler)
    (inherited : string → list JsVal → option JsError → Result JsVal)
    (parent_origin : option string) (request_timeout_ms : option Z) (clock : Z)
    (fuel : nat) (turns : list (list Concurrency.HostAction)) :
  (∀ args originalError,
     Concurrency.Keeps Concurrency.Sound (getActiveTabIndex args originalError)) →
  (∀ args originalError,
     Concurrency.Keeps Concurrency.Sound (waitForTabCount args originalError)) →
  (∀ args originalError,
     Concurrency.Keeps Concurrency.Sound (waitForTabUrl args originalError)) →
  let w :=
    Concurrency.after getActiveTabIndex waitForTabCount waitForTabUrl inherited fuel turns
      (Element.constructor parent_origin request_timeout_ms clock) in
  (∀ requestId, length (Ledger.settlements requestId (settled w)) ≤ 1) ∧
  (_isReady w = true ↔ ResolveReady (_readyPromise w) ∈ settled w) ∧
  Prober.pings w =
    match _initPingTimer w with
    | Some t => [mkTimer t 1000 true InitPing]
    | None => []
    end.
Proof.
  intros Hactive Hcount Hurl w.
  assert (Concurrency.Sound w) as Hw.
  { apply Sound_after; try done. apply Sound_constructor. }
  split; [|split].
  - intros requestId. by apply Sound_settled_once.
  - by apply Sound_ready.
  - destruct Hw as (_ & _ & HP). apply (Prober.ping_armed _ HP).
Qed.

Lemma concurrent_calls_keep_the_invariants_witness :
  let idle : Legacy.Handler := fun _ _ => Ret JUndefined in
  let inherited : string → list JsVal → option JsError → Result JsVal :=
    fun _ args _ => Returned (JArr args) in
  let w :=
    Concurrency.after idle idle idle inherited 16
      [[Concurrency.Happen (Loop.Connected (Some "https://bbx.example/login"));
        Concurrency.Happen Loop.Loaded];
       [Concurrency.Happen
          (Loop.Message true "https://bbx.example" (JObj [("type", JStr "tab-api-ready")]));
        Concurrency.Invoke (Concurrency.CallApi (JStr "getTabs") []);
        Concurrency.Invoke (Concurrency.CallApi (JStr "getTabs") [])];
       [Concurrency.Happen (Scenario.reply "bbx-1700-1" (JNum 1));
        Concurrency.Happen (Loop.TimerFires 3)]]
      (Element.constructor None None 1700) in
  length (Ledger.settlements "bbx-1700-1" (settled w)) ≤ 1 ∧
  length (Ledger.settlements "bbx-1700-2" (settled w)) ≤ 1.
Proof.
  intros idle inherited w.
  destruct (concurrent_calls_keep_the_invariants idle idle idle inherited None None 1700 16
              [[Concurrency.Happen (Loop.Connected (Some "https://bbx.example/login"));
                Concurrency.Happen Loop.Loaded];
               [Concurrency.Happen
                  (Loop.Message true "https://bbx.example"
                     (JObj [("type", JStr "tab-api-ready")]));
                Concurrency.Invoke (Concurrency.CallApi (JStr "getTabs") []);
                Concurrency.Invoke (Concurrency.CallApi (JStr "getTabs") [])];
               [Concurrency.Happen (Scenario.reply "bbx-1700-1" (JNum 1));
                Concurrency.Happen (Loop.TimerFires 3)]])
    as (Honce & _ & _); [simpl; done..|].
  split; apply Honce.
Defined.
